(** * vis: alignment of voices, n-gram windows and their labels

    A shallow embedding of the analytical core of the [vis] repository:
    the two hand-written two-voice aligners ([intsec.visTheseParts] and
    [analytic_engine.vis_these_parts]), the [NGram] label renderer, the
    duration filler [fill_space_between_offsets] (two copies), and the
    constructor of [OverBassIndexer].  The n-gram indexer of
    [new_ngram.py], of which only the tests are at hand, is modelled from
    the specification and checked against those tests.

    Conventions of the embedding.
    - Offsets and durations are exact rationals ([Q]); Python's [==], [<=]
      on numbers are [Qeq_bool], [Qle_bool].  Where a result depends on the
      rounding of Python's floats, the function is given in doubles as well
      (the modules [Doubles]): a float is the rational it stands for, and
      every operation is followed by [double], the rounding to the nearest
      double.
    - Python exceptions are values of [exn]; a function that may raise
      returns [outcome A].
    - [list.append] is [l ++ [x]], [l[-1]] is [last_opt l]. *)

From Stdlib Require Import ZArith QArith Qround Qabs Qpower Qreduction Lia Lqa List Sorted
  String Ascii Bool.
From stdpp Require Import base gmap strings pretty.
Import ListNotations.

Local Open Scope Q_scope.

(** ** Python values shared by all modules *)

Inductive exn : Type :=
| IndexError
| KeyError
| ZeroDivisionError
| TypeError
| AttributeError
| NonsensicalInputError (msg : string)
| RuntimeError (msg : string)
| UnboundLocalError.

(** The result of running a piece of Python: a value, a raised exception,
    or a loop that never ends. *)
Inductive outcome (A : Type) : Type :=
| Ret (a : A)
| Raise (e : exn)
| Diverge.
Arguments Ret {A} a.
Arguments Raise {A} e.
Arguments Diverge {A}.

#[global] Instance outcome_ret : MRet outcome := fun A a => Ret a.
#[global] Instance outcome_bind : MBind outcome := fun A B k m =>
  match m with
  | Ret a => k a
  | Raise e => Raise e
  | Diverge => Diverge
  end.

Definition Qltb (a b : Q) : bool := negb (Qle_bool b a).

(** Python's [min(a, b)] and [max(a, b)]: the first argument wins a tie. *)
Definition py_min (a b : Q) : Q := if Qltb b a then b else a.
Definition py_max (a b : Q) : Q := if Qltb a b then b else a.

(** Python's [int(x)] on a number: truncation toward zero. *)
Definition py_int (x : Q) : Z := Z.quot (Qnum x) (Zpos (Qden x)).

(** ** Python floats

    A float is an IEEE 754 double: 53 significant bits, every operation
    rounded to the nearest double, a tie to the one with an even last bit.
    Below [2 ** -1022] the doubles are spaced [2 ** -1074] apart; the upper
    end of the range (overflow) is not modelled. *)

(** [2 ** e] *)
Definition pow2 (e : Z) : Q := 2 ^ e.

(** The exponent [e] with [2 ** e <= |q| < 2 ** (e + 1)], for [q] other
    than 0. *)
Definition binade (q : Q) : Z :=
  let e := (Z.log2 (Z.abs (Qnum q)) - Z.log2 (Zpos (Qden q)))%Z in
  if Qle_bool (pow2 e) (Qabs q) then e else (e - 1)%Z.

(** The integer nearest to [x]; of two equally near, the even one. *)
Definition round_half_even (x : Q) : Z :=
  let f := Qfloor x in
  let r := x - inject_Z f in
  if Qltb r (1 # 2) then f
  else if Qltb (1 # 2) r then (f + 1)%Z
  else if Z.even f then f else (f + 1)%Z.

(** The double nearest to [q]: [float( q )], and the rounding at the end of
    every operation on floats. *)
Definition double (q : Q) : Q :=
  if Qeq_bool q 0 then 0
  else
    let e := Z.max (binade q - 52) (-1074) in
    Qred (inject_Z (round_half_even (q / pow2 e)) * pow2 e).

(** [l[i]] with Python's negative indices. *)
Definition py_index {A : Type} (l : list A) (i : Z) : outcome A :=
  let len := Z.of_nat (List.length l) in
  let j := (if (i <? 0)%Z then len + i else i)%Z in
  if ((0 <=? j) && (j <? len))%Z%bool
  then match nth_error l (Z.to_nat j) with
       | Some x => Ret x
       | None => Raise IndexError
       end
  else Raise IndexError.

Definition last_opt {A : Type} (l : list A) : option A :=
  match rev l with
  | [] => None
  | x :: _ => Some x
  end.

(** [s[1:]] on a string. *)
Definition py_tail (s : string) : string :=
  match s with
  | EmptyString => EmptyString
  | String _ rest => rest
  end.

(** [s.split(' ')]: the pieces between single spaces; never an empty list. *)
Fixpoint py_split_space (s : string) : list string :=
  match s with
  | EmptyString => [EmptyString]
  | String c rest =>
    if Ascii.eqb c " " then EmptyString :: py_split_space rest
    else match py_split_space rest with
         | [] => [String c EmptyString]
         | w :: ws => String c w :: ws
         end
  end.

(** [' '.join(pieces)]. *)
Definition py_join_space (pieces : list string) : string := String.concat " " pieces.

Definition starts_with_space (s : string) : bool :=
  match s with
  | String c _ => Ascii.eqb c " "
  | EmptyString => false
  end.

Fixpoint ends_with_space (s : string) : bool :=
  match s with
  | EmptyString => false
  | String c EmptyString => Ascii.eqb c " "
  | String _ rest => ends_with_space rest
  end.

Fixpoint has_double_space (s : string) : bool :=
  match s with
  | EmptyString => false
  | String c rest => (Ascii.eqb c " " && starts_with_space rest) || has_double_space rest
  end.

Fixpoint space_free (s : string) : bool :=
  match s with
  | EmptyString => true
  | String c rest => negb (Ascii.eqb c " ") && space_free rest
  end.

(** A loop whose body may raise. *)
Fixpoint foldM {A B : Type} (body : A -> B -> outcome A) (acc : A) (l : list B)
  : outcome A :=
  match l with
  | [] => Ret acc
  | x :: l' => acc' ← body acc x; foldM body acc' l'
  end.

(** [s[start:stop]] on a string; [None] is an omitted bound, a negative
    bound counts from the end, bounds past the ends are cut. *)
Definition py_slice (s : string) (start stop : option Z) : string :=
  let len := Z.of_nat (String.length s) in
  let bound (i : Z) := if (i <? 0)%Z then Z.max (len + i) 0 else Z.min i len in
  let a := match start with Some i => bound i | None => 0%Z end in
  let b := match stop with Some i => bound i | None => len end in
  String.substring (Z.to_nat a) (Z.to_nat (b - a)) s.

(** [s.find(sub)]: where [sub] first occurs in [s], or -1. *)
Fixpoint py_find_from (sub s : string) (i : Z) : Z :=
  if String.prefix sub s then i
  else match s with
       | EmptyString => (-1)%Z
       | String _ rest => py_find_from sub rest (i + 1)%Z
       end.

Definition py_find (sub s : string) : Z := py_find_from sub s 0.

(** [s.isdigit()] and [c.isalpha()] on a [str]. *)
Definition is_digit (c : ascii) : bool :=
  let n := nat_of_ascii c in (48 <=? n)%nat && (n <=? 57)%nat.

Definition is_alpha (c : ascii) : bool :=
  let n := nat_of_ascii c in
  ((65 <=? n)%nat && (n <=? 90)%nat) || ((97 <=? n)%nat && (n <=? 122)%nat).

Fixpoint all_chars (p : ascii -> bool) (s : string) : bool :=
  match s with
  | EmptyString => true
  | String c rest => p c && all_chars p rest
  end.

Definition py_isdigit (s : string) : bool :=
  negb (String.eqb s EmptyString) && all_chars is_digit s.

(** The white space of [str.strip()] and of [int( s )]: the space and the
    characters 9 to 13. *)
Definition is_space (c : ascii) : bool :=
  let n := nat_of_ascii c in (n =? 32)%nat || ((9 <=? n)%nat && (n <=? 13)%nat).

Fixpoint py_lstrip (s : string) : string :=
  match s with
  | EmptyString => EmptyString
  | String c rest => if is_space c then py_lstrip rest else s
  end.

Fixpoint py_rstrip (s : string) : string :=
  match s with
  | EmptyString => EmptyString
  | String c rest =>
    match py_rstrip rest with
    | EmptyString => if is_space c then EmptyString else String c EmptyString
    | kept => String c kept
    end
  end.

(** [s.strip()] *)
Definition py_strip (s : string) : string := py_rstrip (py_lstrip s).

(** [s.replace( c, '' )] for a character [c]. *)
Fixpoint remove_char (c : ascii) (s : string) : string :=
  match s with
  | EmptyString => EmptyString
  | String d rest =>
    if Ascii.eqb d c then remove_char c rest else String d (remove_char c rest)
  end.

(** What the functions on interval names raise: the [ValueError] of
    [int( s )], the [IndexError] of [s[0]] on an empty string. *)
Inductive str_exn : Type :=
| ValueError
| EmptyIndexError.

(** The number that decimal digits stand for, read after [acc]. *)
Fixpoint digits_value (s : string) (acc : Z) : Z :=
  match s with
  | EmptyString => acc
  | String c rest =>
    digits_value rest (acc * 10 + (Z.of_nat (nat_of_ascii c) - 48))%Z
  end.

(** [int( s )] on a [str]: white space around the number is dropped, one
    sign may stand before the digits, and there is at least one digit. *)
Definition py_int_str (s : string) : str_exn + Z :=
  let digits (t : string) (sign : Z) : str_exn + Z :=
    if py_isdigit t then inr (sign * digits_value t 0)%Z else inl ValueError in
  match py_strip s with
  | String "+" t => digits t 1%Z
  | String "-" t => digits t (-1)%Z
  | t => digits t 1%Z
  end.

(** ** music21 objects, as far as the analysis reads them *)

Module Music21.

(** A [note.Note] of a flattened part.  Two pitches are equal when their
    names with octave are. *)
Record Note : Type := {
  offset : Q;
  quarterLength : Q;
  nameWithOctave : string
}.

(** An [interval.Interval]: the notes it was built from, when it was built
    from notes, and the attributes music21 derives. *)
Record Interval : Type := {
  noteStart : option Note;
  noteEnd : option Note;
  name : string;
  semiSimpleName : string;
  direction : Z;
  interval_offset : Q
}.

(** An element of [flat.notesAndRests]: a [note.Note], or a [note.Rest]
    with its offset and its length. *)
Inductive GeneralNote : Type :=
| ANote (n : Note)
| ARest (rest_offset rest_quarterLength : Q).

End Music21.

(** Sum of a list of durations. *)
Definition Qsum (l : list Q) : Q := fold_right Qplus 0 l.

(** Fuel for [the_solver]: every recursive call removes at least a 256th
    note (1/64 of a quarter) from what remains. *)
Definition solver_fuel (q : Q) : nat := S (Z.to_nat (Qfloor (64 * q))).

(** ** analytic_engine.py *)

Module AnalyticEngine.

(** [highest_valid_qL( rem )], lines 58-68.  [None] is Python's implicit
    [return None] when the [for] loop finds nothing. *)
Definition list_of_durations : list Q :=
  [2; 1; 1 # 2; 1 # 4; 1 # 8; 1 # 16; 1 # 32; 1 # 64; 0].

Definition highest_valid_qL (rem : Q) : option Q :=
  if existsb (Qeq_bool rem) list_of_durations then Some rem
  else find (fun dur => Qltb dur rem) list_of_durations.

(** [the_solver( qL_remains )], lines 79-97. *)
Fixpoint the_solver (fuel : nat) (qL_remains : Q) : outcome (list Q) :=
  match fuel with
  | O => Diverge
  | S fuel' =>
    if Qeq_bool 4 qL_remains then Ret [4]
    else if Qltb qL_remains 4 && Qle_bool 0 qL_remains then
      if Qltb qL_remains (1 # 64) then Ret [qL_remains]
      else
        match highest_valid_qL qL_remains with
        | None => Raise TypeError
        | Some possible_finish =>
          if Qeq_bool possible_finish qL_remains then Ret [qL_remains]
          else rest ← the_solver fuel' (qL_remains - possible_finish);
               Ret (possible_finish :: rest)
        end
    else if Qltb 4 qL_remains then
      rest ← the_solver fuel' (qL_remains - 4); Ret (4 :: rest)
    else Raise (NonsensicalInputError "How'd we end up with quarterLength remaining?")
  end.

(** [fill_space_between_offsets( start_o, end_o )], lines 39-101, over
    exact numbers; [Doubles.fill_space_between_offsets] has the conversion to
    floats and the rounding. *)
Definition fill_space_between_offsets (start_o end_o : Q) : outcome (Q * list Q) :=
  result ← the_solver (solver_fuel (end_o - start_o)) (end_o - start_o);
  match result with
  | [] => Raise IndexError
  | first :: others => Ret (first, others)
  end.

(** [round_to( n, precision )], lines 208-210, over exact numbers: what the
    loop of [vis_these_parts] is given here.  [Doubles.round_to] is the
    function with the rounding of the floats. *)
Definition round_to (n precision : Q) : outcome Q :=
  let correction := if Qle_bool 0 n then 1 # 2 else - (1 # 2) in
  if Qeq_bool precision 0 then Raise ZeroDivisionError
  else Ret (inject_Z (py_int (n / precision + correction)) * precision).

(** [fill_space_between_offsets] and [round_to] as Python computes them. *)
Module Doubles.

(** [the_solver( qL_remains )], lines 79-97.  Every call of itself is one
    more frame of the interpreter: [frames] is the number of calls the
    recursion limit still allows. *)
Fixpoint the_solver (frames : nat) (qL_remains : Q) : outcome (list Q) :=
  match frames with
  | O => Raise (RuntimeError "maximum recursion depth exceeded")
  | S frames' =>
    if Qeq_bool 4 qL_remains then Ret [4]
    else if Qltb qL_remains 4 && Qle_bool 0 qL_remains then
      if Qltb qL_remains (1 # 64) then Ret [qL_remains]
      else
        match highest_valid_qL qL_remains with
        | None => Raise TypeError
        | Some possible_finish =>
          if Qeq_bool possible_finish qL_remains then Ret [qL_remains]
          else rest ← the_solver frames' (double (qL_remains - possible_finish));
               Ret (possible_finish :: rest)
        end
    else if Qltb 4 qL_remains then
      rest ← the_solver frames' (double (qL_remains - 4)); Ret (4 :: rest)
    else Raise (NonsensicalInputError "How'd we end up with quarterLength remaining?")
  end.

(** [fill_space_between_offsets( start_o, end_o )], lines 39-101, with
    [start_o = float(start_o)], [end_o = float(end_o)] and the subtraction
    of line 100. *)
Definition fill_space_between_offsets (frames : nat) (start_o end_o : Q)
  : outcome (Q * list Q) :=
  let start_o := double start_o in
  let end_o := double end_o in
  result ← the_solver frames (double (end_o - start_o));
  match result with
  | [] => Raise IndexError
  | first :: others => Ret (first, others)
  end.

(** [round_to( n, precision )], lines 208-210, for floats [n] and
    [precision]: the division, the addition and the product are rounded,
    and the [int] is made a float before it is multiplied. *)
Definition round_to (n precision : Q) : outcome Q :=
  let correction := if Qle_bool 0 n then 1 # 2 else - (1 # 2) in
  if Qeq_bool precision 0 then Raise ZeroDivisionError
  else
    let k := py_int (double (double (n / precision) + correction)) in
    Ret (double (double (inject_Z k) * precision)).

End Doubles.

(** [is_rest( thing )], lines 199-200. *)
Definition is_rest (thing : Music21.GeneralNote) : bool :=
  match thing with
  | Music21.ARest _ _ => true
  | Music21.ANote _ => false
  end.

(** [thing.offset] and [thing.quarterLength]. *)
Definition offset_of (thing : Music21.GeneralNote) : Q :=
  match thing with
  | Music21.ANote n => Music21.offset n
  | Music21.ARest o _ => o
  end.

Definition quarterLength_of (thing : Music21.GeneralNote) : Q :=
  match thing with
  | Music21.ANote n => Music21.quarterLength n
  | Music21.ARest _ d => d
  end.

(** [this_interval.offset = o] *)
Definition set_offset (iv : Music21.Interval) (o : Q) : Music21.Interval :=
  {| Music21.noteStart := Music21.noteStart iv;
     Music21.noteEnd := Music21.noteEnd iv;
     Music21.name := Music21.name iv;
     Music21.semiSimpleName := Music21.semiSimpleName iv;
     Music21.direction := Music21.direction iv;
     Music21.interval_offset := o |}.

(** A moment of [interval_history]: the string ['rest'], or an Interval. *)
Inductive moment : Type :=
| MRest
| MInterval (iv : Music21.Interval).

(** The properties [vis_these_parts] reads from the settings object. *)
Record VIS_Settings : Type := {
  offsetBetweenInterval : Q;
  lookForTheseNs : list Z;
  heedQuality : bool;
  simpleOrCompound : string
}.

(** [xrange( a, b )] *)
Definition xrange (a b : Z) : list Z :=
  map (fun k => (a + Z.of_nat k)%Z) (seq 0 (Z.to_nat (b - a))).

(** Turns of the inner [while] loop that suffice when the counting
    interval is positive; with another interval the loop does not end
    unless it ends at once. *)
Definition count_fuel (potential_new_offset greater_offset offset_interval : Q) : nat :=
  S (Z.to_nat (Qfloor ((greater_offset - potential_new_offset) / offset_interval))).

Section VisTheseParts.
Import Music21.

(** music21's [interval.Interval( noteStart, noteEnd )] and
    [Interval.__eq__]; the [NGram] class of the module [NGram], whose
    constructor may raise. *)
Variable Interval_ : option Note -> option Note -> outcome Interval.
Variable Interval_eq : Interval -> Interval -> bool.
Variable NGram : Type.
Variable NGram_ : list moment -> bool -> string -> outcome NGram.

(** The variables of the loop of [vis_these_parts]; [the_statistics] is the
    list of what was handed to [add_interval] and the list of what was
    handed to [add_ngram], each n-gram with the list it was made of. *)
Record engine_state : Type := {
  current_lower_index : Z;
  current_higher_index : Z;
  current_offset : option Q;
  interval_history : list moment;
  add_interval_calls : list Interval;
  add_ngram_calls : list (list moment * NGram)
}.

Variable the_settings : VIS_Settings.
Variable higher_part lower_part : list GeneralNote.

Definition len_lower : Z := Z.of_nat (List.length lower_part).
Definition len_higher : Z := Z.of_nat (List.length higher_part).

(** "Make sure the current indices aren't past the end of the parts",
    lines 265-270. *)
Definition clamp (index len : Z) : Z :=
  if (len <=? index)%Z then (index - 1)%Z else index.

(** "Make sure we have the right objects", lines 297-343: the part with
    the greater offset goes back to its previous object. *)
Definition right_objects (current_lower_index current_higher_index : Z)
    (lower higher : GeneralNote) : Z * Z :=
  if negb (Qeq_bool (offset_of lower) (offset_of higher)) then
    if ((current_lower_index =? len_lower - 1) &&
        (current_higher_index =? len_higher - 1))%Z
    then (current_lower_index, current_higher_index)
    else if (current_higher_index =? len_higher - 1)%Z then
      if Qltb (offset_of lower) (offset_of higher)
      then (current_lower_index, (current_higher_index - 1)%Z)
      else (current_lower_index, current_higher_index)
    else if (current_lower_index =? len_lower - 1)%Z then
      if Qltb (offset_of higher) (offset_of lower)
      then ((current_lower_index - 1)%Z, current_higher_index)
      else (current_lower_index, current_higher_index)
    else if Qltb (offset_of lower) (offset_of higher)
    then (current_lower_index, (current_higher_index - 1)%Z)
    else ((current_lower_index - 1)%Z, current_higher_index)
  else (current_lower_index, current_higher_index).

(** The offset from which counting starts, lines 365-375. *)
Definition first_potential_offset (current_offset : option Q) : outcome Q :=
  match current_offset with
  | None =>
    higher0 ← py_index higher_part 0;
    lower0 ← py_index lower_part 0;
    Ret (py_min (offset_of higher0) (offset_of lower0))
  | Some current_offset =>
    potential_new_offset ← round_to current_offset (offsetBetweenInterval the_settings);
    Ret (if Qltb current_offset potential_new_offset
         then potential_new_offset - offsetBetweenInterval the_settings
         else potential_new_offset)
  end.

(** [while potential_new_offset <= greater_offset: ...], lines 389-397:
    the offset reached, and whether it is the greater offset. *)
Fixpoint count_up (fuel : nat) (potential_new_offset greater_offset : Q)
  : outcome (Q * bool) :=
  if Qle_bool potential_new_offset greater_offset then
    if Qeq_bool potential_new_offset greater_offset
    then Ret (potential_new_offset, true)
    else match fuel with
         | O => Diverge
         | S fuel' =>
           count_up fuel' (potential_new_offset + offsetBetweenInterval the_settings)
                    greater_offset
         end
  else Ret (potential_new_offset, false).

(** "Does this event continue past the next offset we're supposed to
    measure?", lines 402-443. *)
Definition continues_past (current_lower_index current_higher_index : Z)
    (lower higher : GeneralNote) (potential_new_offset : Q) : outcome bool :=
  if ((current_higher_index =? len_higher - 1) ||
      (current_lower_index =? len_lower - 1))%Z
  then
    let end_of_higher := offset_of higher + quarterLength_of higher in
    let end_of_lower := offset_of lower + quarterLength_of lower in
    Ret (Qltb potential_new_offset end_of_lower &&
         Qltb potential_new_offset end_of_higher)
  else
    next_higher ← py_index higher_part (current_higher_index + 1);
    if Qltb potential_new_offset (offset_of next_higher) then
      next_lower ← py_index lower_part (current_lower_index + 1);
      Ret (Qltb potential_new_offset (offset_of next_lower))
    else Ret false.

(** [this_interval == interval_history[-1]] and, when it holds, the
    comparison of the names of the lower notes, lines 471-476.  An
    Interval does not equal the string ['rest']. *)
Definition same_as_previous (this_interval : Interval) (interval_history : list moment)
  : outcome bool :=
  match last_opt interval_history with
  | Some (MInterval previous) =>
    if Interval_eq this_interval previous then
      match noteStart this_interval, noteStart previous with
      | Some this_start, Some previous_start =>
        Ret (String.eqb (nameWithOctave this_start) (nameWithOctave previous_start))
      | _, _ => Raise AttributeError
      end
    else Ret false
  | _ => Ret false
  end.

(** "Process this moment for intervals", lines 446-501: whether to go on
    to the n-grams, the history, the intervals counted, the current
    offset. *)
Definition process_intervals (lower higher : GeneralNote) (st : engine_state)
  : outcome (bool * list moment * list Interval * option Q) :=
  match higher, lower with
  | ANote higher_note, ANote lower_note =>
    this_interval ← Interval_ (Some lower_note) (Some higher_note);
    let this_interval :=
      set_offset this_interval (py_max (offset_of lower) (offset_of higher)) in
    same ← same_as_previous this_interval (interval_history st);
    if (same : bool)
    then Ret (false, interval_history st, add_interval_calls st, current_offset st)
    else Ret (true, interval_history st ++ [MInterval this_interval],
              add_interval_calls st ++ [this_interval],
              Some (py_max (offset_of higher) (offset_of lower)))
  | _, _ =>
    Ret (false, interval_history st ++ [MRest], add_interval_calls st,
         current_offset st)
  end.

(** [for i in xrange( ( -1 * n ), 0 ): ...], lines 528-538: the list of
    intervals, or [None] when a rest was met. *)
Fixpoint gather (interval_history : list moment) (indices : list Z)
    (list_of_intervals : list moment) : outcome (option (list moment)) :=
  match indices with
  | [] => Ret (Some list_of_intervals)
  | i :: indices' =>
    previous_thing ← py_index interval_history i;
    match previous_thing with
    | MRest => Ret None
    | MInterval _ =>
      gather interval_history indices' (list_of_intervals ++ [previous_thing])
    end
  end.

(** One turn of [for n in find_these_ns: ...], lines 513-555. *)
Definition process_ngram (interval_history : list moment)
    (calls : list (list moment * NGram)) (n : Z)
  : outcome (list (list moment * NGram)) :=
  if (Z.of_nat (List.length interval_history) <? n)%Z then Ret calls
  else
    enough_non_rests ← gather interval_history (xrange (-1 * n) 0) [];
    match enough_non_rests with
    | None => Ret calls
    | Some list_of_intervals =>
      this_ngram ← NGram_ list_of_intervals (heedQuality the_settings)
                          (simpleOrCompound the_settings);
      Ret (calls ++ [(list_of_intervals, this_ngram)])
    end.

(** One turn of the [while] loop of [vis_these_parts], lines 257-569. *)
Definition vis_these_parts_body (st : engine_state) : outcome engine_state :=
  let current_lower_index := clamp (current_lower_index st) len_lower in
  let current_higher_index := clamp (current_higher_index st) len_higher in
  (* the sanity check and the comparison of the offsets read both objects *)
  lower ← py_index lower_part current_lower_index;
  higher ← py_index higher_part current_higher_index;
  let '(current_lower_index, current_higher_index) :=
    right_objects current_lower_index current_higher_index lower higher in
  potential_new_offset ← first_potential_offset (current_offset st);
  higher ← py_index higher_part current_higher_index;
  lower ← py_index lower_part current_lower_index;
  let greater_offset := py_max (offset_of higher) (offset_of lower) in
  '(potential_new_offset, contin) ←
    count_up (count_fuel potential_new_offset greater_offset
                         (offsetBetweenInterval the_settings))
             potential_new_offset greater_offset;
  contin ←
    (if (contin : bool) then Ret true
     else continues_past current_lower_index current_higher_index lower higher
                         potential_new_offset);
  '(contin, history, intervals, offset_now) ←
    (if (contin : bool) then process_intervals lower higher st
     else Ret (false, interval_history st, add_interval_calls st, current_offset st));
  ngrams ←
    (if (contin : bool)
     then foldM (process_ngram history) (add_ngram_calls st)
                (lookForTheseNs the_settings)
     else Ret (add_ngram_calls st));
  Ret {| current_lower_index := (current_lower_index + 1)%Z;
         current_higher_index := (current_higher_index + 1)%Z;
         current_offset := offset_now;
         interval_history := history;
         add_interval_calls := intervals;
         add_ngram_calls := ngrams |}.

(** [while current_lower_index < len_lower or current_higher_index <
    len_higher: ...], line 257. *)
Fixpoint vis_these_parts_loop (fuel : nat) (st : engine_state)
  : outcome engine_state :=
  if ((current_lower_index st <? len_lower) ||
      (current_higher_index st <? len_higher))%Z
  then
    match fuel with
    | O => Diverge
    | S fuel' =>
      st' ← vis_these_parts_body st;
      vis_these_parts_loop fuel' st'
    end
  else Ret st.

(** [vis_these_parts( these_parts, the_settings, the_statistics )], lines
    169-594; [higher_part] and [lower_part] are the notes and rests of the
    flattened parts.  Every turn moves an index forward, so as many turns as
    there are objects suffice.  The [return] of line 593 reads
    [list_of_lilypond_parts], a name that only a turn of the loop binds
    (line 561): without a turn, that is with two empty parts, it raises
    [UnboundLocalError]. *)
Definition vis_these_parts : outcome engine_state :=
  st ← vis_these_parts_loop (List.length lower_part + List.length higher_part)
         {| current_lower_index := 0;
            current_higher_index := 0;
            current_offset := None;
            interval_history := [];
            add_interval_calls := [];
            add_ngram_calls := [] |};
  if ((0 <? len_lower) || (0 <? len_higher))%Z then Ret st
  else Raise UnboundLocalError.

End VisTheseParts.

Arguments current_lower_index {NGram} _.
Arguments current_higher_index {NGram} _.
Arguments current_offset {NGram} _.
Arguments interval_history {NGram} _.
Arguments add_interval_calls {NGram} _.
Arguments add_ngram_calls {NGram} _.

End AnalyticEngine.

(** ** controllers/experimenter.py: [LilyPondExperiment] *)

Module LilyPondExperiment.

(** [highest_valid_ql(rem)], lines 1250-1262. *)
Definition list_of_durations : list Q :=
  [2; 1; 1 # 2; 1 # 4; 1 # 8; 1 # 16; 1 # 32; 1 # 64; 0].

Definition highest_valid_ql (rem : Q) : option Q :=
  if existsb (Qeq_bool rem) list_of_durations then Some rem
  else find (fun dur => Qltb dur rem) list_of_durations.

(** [the_solver(ql_remains)], lines 1264-1288. *)
Fixpoint the_solver (fuel : nat) (ql_remains : Q) : outcome (list Q) :=
  match fuel with
  | O => Diverge
  | S fuel' =>
    if Qeq_bool 4 ql_remains then Ret [4]
    else if Qltb ql_remains 4 && Qle_bool 0 ql_remains then
      if Qltb ql_remains (1 # 64) then Ret [ql_remains]
      else
        match highest_valid_ql ql_remains with
        | None => Raise TypeError
        | Some possible_finish =>
          if Qeq_bool possible_finish ql_remains then Ret [ql_remains]
          else rest ← the_solver fuel' (ql_remains - possible_finish);
               Ret (possible_finish :: rest)
        end
    else if Qltb 4 ql_remains then
      rest ← the_solver fuel' (ql_remains - 4); Ret (4 :: rest)
    else Raise (RuntimeError "Impossible quarterLength remaining")
  end.

(** [fill_space_between_offsets(start_o, end_o)], lines 1233-1293, over
    exact numbers; [Doubles.fill_space_between_offsets] has the conversion to
    floats and the rounding. *)
Definition fill_space_between_offsets (start_o end_o : Q) : outcome (Q * list Q) :=
  result ← the_solver (solver_fuel (end_o - start_o)) (end_o - start_o);
  match result with
  | [] => Raise IndexError
  | first :: others => Ret (first, others)
  end.

(** [fill_space_between_offsets] as Python computes it. *)
Module Doubles.

(** [the_solver(ql_remains)], lines 1264-1288; [frames] is the number of
    calls the recursion limit still allows. *)
Fixpoint the_solver (frames : nat) (ql_remains : Q) : outcome (list Q) :=
  match frames with
  | O => Raise (RuntimeError "maximum recursion depth exceeded")
  | S frames' =>
    if Qeq_bool 4 ql_remains then Ret [4]
    else if Qltb ql_remains 4 && Qle_bool 0 ql_remains then
      if Qltb ql_remains (1 # 64) then Ret [ql_remains]
      else
        match highest_valid_ql ql_remains with
        | None => Raise TypeError
        | Some possible_finish =>
          if Qeq_bool possible_finish ql_remains then Ret [ql_remains]
          else rest ← the_solver frames' (double (ql_remains - possible_finish));
               Ret (possible_finish :: rest)
        end
    else if Qltb 4 ql_remains then
      rest ← the_solver frames' (double (ql_remains - 4)); Ret (4 :: rest)
    else Raise (RuntimeError "Impossible quarterLength remaining")
  end.

(** [fill_space_between_offsets(start_o, end_o)], lines 1233-1293, with
    [start_o = float(start_o)], [end_o = float(end_o)] and the subtraction
    of line 1292. *)
Definition fill_space_between_offsets (frames : nat) (start_o end_o : Q)
  : outcome (Q * list Q) :=
  let start_o := double start_o in
  let end_o := double end_o in
  result ← the_solver frames (double (end_o - start_o));
  match result with
  | [] => Raise IndexError
  | first :: others => Ret (first, others)
  end.

End Doubles.

End LilyPondExperiment.

(** ** vis/analyzers/indexers/over_bass.py *)

Module OverBass.

(** Values of the settings dictionary. *)
Inductive pyval : Type :=
| PInt (z : Z)
| PStr (s : string).

(** The part of a [pandas.DataFrame] under one indexer's name: the labels
    of its columns, its index, and the cells of each column. *)
Record DataFrame : Type := {
  columns : list string;
  index : list Q;
  cells : gmap string (list string)
}.

Definition _WRONG_HORIZ : string :=
  "horizontal setting must be a voice present in the piece".
Definition _WRONG_TYPE : string := "Type given is not found".

Record OverBassIndexer : Type := {
  _settings : gmap string pyval;
  horiz_score : DataFrame;
  horizontal_voice : Z;
  vert_score : DataFrame
}.

Definition types : gmap string string :=
  {[ "intervals" := "interval.HorizontalIntervalIndexer";
     "notes" := "noterest.NoteRestIndexer" ]}.

(** [OverBassIndexer.__init__(self, score, settings=None)], lines 55-91.
    [dict.update] lets the caller's entries win, so it is a left-biased
    union.  Comparing a [str] with an [int] is a [TypeError] (Python 3). *)
Definition __init__ (score : gmap string DataFrame)
    (settings : option (gmap string pyval)) : outcome OverBassIndexer :=
  let settings0 : gmap string pyval := {[ "type" := PStr "notes" ]} in
  let settings1 :=
    match settings with
    | Some s => s ∪ settings0
    | None => settings0
    end in
  horiz ←
    match settings1 !! "type" with
    | Some (PStr t) =>
      match types !! t with
      | Some name =>
        match score !! name with
        | Some df => Ret df
        | None => Raise (RuntimeError _WRONG_TYPE)
        end
      | None => Raise (RuntimeError _WRONG_TYPE)
      end
    | Some (PInt _) => Raise (RuntimeError _WRONG_TYPE)
    | None => Raise KeyError
    end;
  let last_voice := (Z.of_nat (List.length (columns horiz)) - 1)%Z in
  horizontal ←
    match settings1 !! "horizontal" with
    | None => Ret last_voice
    | Some (PInt h) =>
      if (h >? last_voice)%Z then Raise (RuntimeError _WRONG_HORIZ) else Ret h
    | Some (PStr _) => Raise TypeError
    end;
  vert ←
    match score !! "interval.IntervalIndexer" with
    | Some df => Ret df
    | None => Raise KeyError
    end;
  Ret {| _settings := <[ "horizontal" := PInt horizontal ]> settings1;
         horiz_score := horiz;
         horizontal_voice := horizontal;
         vert_score := vert |}.

(** [needle in haystack] on strings. *)
Fixpoint str_in (needle haystack : string) : bool :=
  String.prefix needle haystack ||
  match haystack with
  | EmptyString => false
  | String _ rest => str_in needle rest
  end.

(** Python zip over unpacked lists, the first list singled out. *)
Fixpoint zip_star (first : list string) (others : list (list string))
  : list (list string) :=
  match first with
  | [] => []
  | x :: first' =>
    match mapM head others with
    | Some hs => (x :: hs) :: zip_star first' (map tail others)
    | None => []
    end
  end.

Definition column (df : DataFrame) (name : string) : outcome (list string) :=
  match cells df !! name with
  | Some c => Ret c
  | None => Raise KeyError
  end.

(** [OverBassIndexer.run(self)], lines 93-133: the label of the single
    result column and, per index entry, the tuple of the bass event and the
    intervals above it (the tuple itself stands for its [str]). *)
Definition run (self : OverBassIndexer) : outcome (string * list (Q * list string)) :=
  let voice := pretty (horizontal_voice self) in
  results ← column (horiz_score self) voice;
  let pairs := List.filter (fun pair => str_in voice pair) (columns (vert_score self)) in
  above ← mapM (column (vert_score self)) pairs;
  let intervals := zip_star results above in
  Ret (voice +:+ " " +:+ String.concat " " pairs,
       combine (index (horiz_score self)) intervals).

End OverBass.

(** ** vis/analyzers/indexers/new_ngram.py (absent from the sources) *)

Module NewNGram.

Definition token : Type := string.

Definition _MISSING_SETTINGS : string := "_MISSING_SETTINGS".
Definition _N_VALUE_TOO_LOW : string := "_N_VALUE_TOO_LOW".
Definition _UNDECLARED_VOICE : string := "_UNDECLARED_VOICE".

(** Modelled from the spec: the settings dictionary handed to
    [NewNGramIndexer] (section 6, option table).  [None] is an absent key. *)
Record settings : Type := {
  set_n : option Z;
  set_vertical : option (list string);
  set_horizontal : option (list string);
  set_brackets : option bool;
  set_mark_singles : option bool;
  set_terminator : option (list token);
  set_continuer : option token
}.

(** Modelled from the spec: the validated configuration of section 9, with
    every default of section 6 resolved. *)
Record config : Type := {
  cfg_n : Z;
  cfg_vertical : list string;
  cfg_horizontal : list string;
  cfg_brackets : bool;
  cfg_mark_singles : bool;
  cfg_terminator : list token;
  cfg_continuer : token
}.

(** A score: the declared voices and, per offset, the event of every voice
    that has one there. *)
Record score : Type := {
  voices : list string;
  events : list (Q * gmap string token)
}.

(** Modelled from the spec: [NewNGramIndexer.__init__], missing from the
    sources.  Sections 4.3 and 7: a configuration without window size or
    without a vertical grouping, with [n < 1], or naming an undeclared voice
    is rejected at construction. *)
Definition __init__ (sc : score) (setts : settings) : outcome config :=
  match set_n setts, set_vertical setts with
  | Some n, Some (v :: vs) =>
    if (n <? 1)%Z then Raise (RuntimeError _N_VALUE_TOO_LOW)
    else
      let horizontal := default [] (set_horizontal setts) in
      if forallb (fun x => bool_decide (x ∈ voices sc)) (v :: vs ++ horizontal)
      then
        let brackets := default false (set_brackets setts) in
        Ret {| cfg_n := n;
               cfg_vertical := v :: vs;
               cfg_horizontal := horizontal;
               cfg_brackets := brackets;
               cfg_mark_singles := default brackets (set_mark_singles setts);
               cfg_terminator := default [] (set_terminator setts);
               cfg_continuer := default "_" (set_continuer setts) |}
      else Raise (RuntimeError _UNDECLARED_VOICE)
  | _, _ => Raise (RuntimeError _MISSING_SETTINGS)
  end.

(** A synchronized row (section 3): the forward-filled token of every
    vertical voice, and what each horizontal voice observed at this offset. *)
Record aligned_row : Type := {
  row_offset : Q;
  row_vertical : list token;
  row_horizontal : list (option token)
}.

(** Modelled from the spec: the Aligner of section 4.1 for the indexer.
    The forward-fill state starts with every voice missing; a row takes
    part when a configured voice has an event at its offset, and is passed
    on once every vertical voice has left the missing state. *)
Fixpoint align (cfg : config) (state : gmap string token)
    (evs : list (Q * gmap string token)) : list aligned_row :=
  match evs with
  | [] => []
  | (o, ev) :: rest =>
    if existsb (fun v => bool_decide (is_Some (ev !! v)))
               (cfg_vertical cfg ++ cfg_horizontal cfg)
    then
      let state' := ev ∪ state in
      match mapM (fun v => state' !! v) (cfg_vertical cfg) with
      | Some vs =>
        {| row_offset := o;
           row_vertical := vs;
           row_horizontal := map (fun h => ev !! h) (cfg_horizontal cfg) |}
          :: align cfg state' rest
      | None => align cfg state' rest
      end
    else align cfg state rest
  end.

(** The slots of a window, in document order. *)
Inductive slot : Type :=
| Vertical (ts : list token)
| Horizontal (ts : list token).

Definition slot_tokens (s : slot) : list token :=
  match s with
  | Vertical ts => ts
  | Horizontal ts => ts
  end.

(** Modelled from the spec: section 4.3, end-of-stream shortfall.  Past
    the end of the stream the last available vertical token is repeated. *)
Definition vertical_slot (rows : list aligned_row) (i : nat) : option (list token) :=
  match rows !! i with
  | Some r => Some (row_vertical r)
  | None => row_vertical <$> last rows
  end.

Definition horizontal_obs (cfg : config) (rows : list aligned_row) (i : nat)
  : list (option token) :=
  match rows !! i with
  | Some r => row_horizontal r
  | None => map (fun _ => None) (cfg_horizontal cfg)
  end.

(** Modelled from the spec: section 4.3, missing horizontal data.  A voice
    without an observation in the gap contributes the continuer. *)
Definition horizontal_slot (cfg : config) (rows : list aligned_row) (i : nat)
  : list token :=
  map (default (cfg_continuer cfg)) (horizontal_obs cfg rows i).

Definition observed (cfg : config) (rows : list aligned_row) (i : nat) : bool :=
  existsb (fun o => bool_decide (is_Some o)) (horizontal_obs cfg rows i).

(** Modelled from the spec: the [k] slots that follow the vertical token at
    row [i].  A later vertical slot is filled from the stream, or, at the
    end of the stream, by repetition of the last vertical token (section 4.3,
    end-of-stream shortfall) when the gap before it still carries a
    horizontal observation.  The condition is the one under which section 4.3
    and section 8 agree: scenario A of section 8 (four vertical tokens, no
    horizontal voice, [n = 2]) has three windows, none anchored at the last
    offset, and so have [test_ngram_1a] and [test_ngram_1b]; the padded
    window ['C c C'] is the one of [test_ngram_13], where the horizontal
    voice has an observation at the last offset. *)
Fixpoint extend (cfg : config) (rows : list aligned_row) (i k : nat)
  : option (list slot) :=
  match k with
  | O => Some []
  | S k' =>
    if bool_decide (S i < List.length rows)%nat || observed cfg rows i then
      v ← vertical_slot rows (S i);
      rest ← extend cfg rows (S i) k';
      Some ((match cfg_horizontal cfg with
             | [] => []
             | _ => [Horizontal (horizontal_slot cfg rows i)]
             end) ++ Vertical v :: rest)
    else None
  end.

(** The window anchored at row [i]: [n] vertical slots, interleaved with
    horizontal slots when horizontal voices are configured. *)
Definition window (cfg : config) (rows : list aligned_row) (i : nat)
  : option (list slot) :=
  r ← rows !! i;
  rest ← extend cfg rows i (Z.to_nat (cfg_n cfg) - 1);
  Some (Vertical (row_vertical r) :: rest).


Definition horizontals (w : list slot) : list (list token) :=
  flat_map (fun s => match s with Horizontal ts => [ts] | Vertical _ => [] end) w.

(** Modelled from the spec: section 4.3, terminator.  A window one of
    whose slots holds a terminator token is discarded. *)
Definition has_terminator (cfg : config) (w : list slot) : bool :=
  existsb (fun s => existsb (fun t => bool_decide (t ∈ cfg_terminator cfg))
                            (slot_tokens s)) w.

(** Modelled from the spec: the WindowBuilder of section 4.3: one window
    per start row, in stream order, each with the offset of its first
    vertical token.  The rows are the Aligner's output, from which repeated
    vertical tokens were already removed (sections 3 and 4.1). *)
Definition windows (cfg : config) (rows : list aligned_row)
  : list (Q * list slot) :=
  flat_map (fun i =>
    match rows !! i, window cfg rows i with
    | Some r, Some w =>
      if has_terminator cfg w then [] else [(row_offset r, w)]
    | _, _ => []
    end) (seq 0 (List.length rows)).

(** Modelled from the spec: the Formatter of section 4.4. *)
Definition render_slot (cfg : config) (s : slot) : string :=
  let body := String.concat " " (slot_tokens s) in
  if cfg_brackets cfg then
    match s with
    | Vertical ts =>
      if bool_decide (List.length ts = 1%nat) && negb (cfg_mark_singles cfg)
      then body else "[" +:+ body +:+ "]"
    | Horizontal _ => "(" +:+ body +:+ ")"
    end
  else body.

Definition render (cfg : config) (w : list slot) : string :=
  String.concat " " (map (render_slot cfg) w).

(** Modelled from the spec: [NewNGramIndexer.run], missing from the
    sources: Aligner, WindowBuilder and Formatter in sequence. *)
Definition run (cfg : config) (sc : score) : list (Q * string) :=
  map (fun '(o, w) => (o, render cfg w)) (windows cfg (align cfg ∅ (events sc))).

(** Construction followed by the scan. *)
Definition index_piece (sc : score) (setts : settings) : outcome (list (Q * string)) :=
  cfg ← __init__ sc setts;
  Ret (run cfg sc).

End NewNGram.

(** ** intsec.py: [NGram] *)

Module Intsec.
Import Music21.

Record NGram : Type := {
  _heedQuality : bool;
  _n : nat;
  _listOfIntervals : list Interval;
  _listOfMovements : list Interval
}.

Definition name_for (simpleOrCompound : string) (iv : Interval) : outcome string :=
  if String.eqb "simple" simpleOrCompound then Ret (semiSimpleName iv)
  else if String.eqb "compound" simpleOrCompound then Ret (name iv)
  else Raise (NonsensicalInputError
                "NGram.stringVersion(): 'simpleOrCompound' (2nd argument) must be either 'simple' or 'compound'.").

(** One turn of the [for] loop of [stringVersion], lines 156-205. *)
Definition stringVersion_body (self : NGram) (simpleOrCompound : string)
    (heedQuality : bool) (post : string) (i : nat) : outcome string :=
  let post := if (0 <? String.length post)%nat then post +:+ " " else post in
  this ← py_index (_listOfIntervals self) (Z.of_nat i);
  thisInt ← name_for simpleOrCompound this;
  let thisInt := if heedQuality then thisInt else py_tail thisInt in
  let post := post +:+ thisInt in
  match nth_error (_listOfMovements self) i with
  | Some thisMove =>
    let post :=
      if (1 =? direction thisMove)%Z then post +:+ " +"
      else if (-1 =? direction thisMove)%Z then post +:+ " -"
      else post +:+ " " in
    zzz ← name_for simpleOrCompound thisMove;
    let zzz := if heedQuality then zzz else py_tail zzz in
    Ret (post +:+ zzz)
  | None => Ret post
  end.

(** [NGram.stringVersion( self, simpleOrCompound='compound', heedQuality=None )],
    lines 139-207. *)
Definition stringVersion (self : NGram) (simpleOrCompound : string)
    (heedQuality : option bool) : outcome string :=
  let heedQuality := default (_heedQuality self) heedQuality in
  foldM (stringVersion_body self simpleOrCompound heedQuality) ""
        (seq 0 (List.length (_listOfIntervals self))).

(** [NGram.__str__( self )], lines 210-211. *)
Definition __str__ (self : NGram) : outcome string :=
  stringVersion self "compound" None.

(** The name of an interval as the plain label prints it: music21's name,
    without its first character when quality is not heeded. *)
Definition printed_name (self : NGram) (iv : Interval) : string :=
  if _heedQuality self then name iv else py_tail (name iv).

(** What music21 guarantees of a printed name ("M3", "3", "P12", ...): it
    is not empty and holds no space. *)
Definition printable (t : string) : bool :=
  negb (String.eqb t EmptyString) && space_free t.

(** A vertical interval counted by [theStatistics.addInterval]: the offset
    of the loop when it was counted, the notes it was made from, and the
    interval music21 made of them. *)
Record counted : Type := {
  at_offset : Q;
  low : option Note;
  high : option Note;
  interval : Interval
}.

(** The variables of [visTheseParts]; [theStatistics] is the two lists of
    what was handed to [addInterval] and to [addNGram], in call order. *)
Record vis_state : Type := {
  thisOffset : Q;
  mostRecentHigh : option Note;
  mostRecentLow : option Note;
  previousHighs : list Note;
  previousLows : list Note;
  addInterval_calls : list counted;
  addNGram_calls : list NGram
}.

(** [Stream.getElementsByOffset( offset )] on the notes of a flat part. *)
Definition getElementsByOffset (notes : list Note) (o : Q) : list Note :=
  List.filter (fun n => Qeq_bool (offset n) o) notes.

(** [Stream.highestOffset]: the largest offset of an element, 0.0 for an
    empty stream. *)
Definition highestOffset (notes : list Note) : Q :=
  match notes with
  | [] => 0
  | n :: rest => fold_left py_max (map offset rest) (offset n)
  end.

(** [not isinstance( mostRecent, note.Note ) or gebo.pitch != mostRecent.pitch] *)
Definition is_new_pitch (mostRecent : option Note) (gebo : Note) : bool :=
  match mostRecent with
  | None => true
  | Some m => negb (String.eqb (nameWithOctave gebo) (nameWithOctave m))
  end.

(** [if None != x: xs.append( x )] *)
Definition append_if_note (xs : list Note) (x : option Note) : list Note :=
  match x with
  | Some m => xs ++ [m]
  | None => xs
  end.

(** Number of turns of the [while] loop that certainly suffices. *)
Definition vis_fuel (highest : Q) : nat := S (Z.to_nat (Qfloor (2 * highest))).

Section WithMusic21.

(** [interval.Interval( noteStart, noteEnd )] of music21, which may raise. *)
Variable Interval_ : option Note -> option Note -> outcome Interval.

Definition lower_note (iv : Interval) : option Note :=
  if (1 =? direction iv)%Z then noteStart iv else noteEnd iv.

(** [NGram._calculateMovements( self )], lines 91-122. *)
Definition _calculateMovements (intervals : list Interval) : outcome (list Interval) :=
  if forallb (fun eachInterval =>
                bool_decide (is_Some (noteStart eachInterval)) &&
                bool_decide (is_Some (noteEnd eachInterval))) intervals
  then
    mapM (fun i =>
            this ← py_index intervals (Z.of_nat i);
            next ← py_index intervals (Z.of_nat i + 1);
            Interval_ (lower_note this) (lower_note next))
         (seq 0 (List.length intervals - 1))
  else Raise (NonsensicalInputError
                "NGram: (At least) one of the vertical intervals doesn't have noteStart.").

(** [NGram.__init__( self, someIntervals, heedQuality=False )], lines 64-88. *)
Definition __init__ (someIntervals : list Interval) (heedQuality : bool)
  : outcome NGram :=
  movements ← _calculateMovements someIntervals;
  Ret {| _heedQuality := heedQuality;
         _n := List.length someIntervals;
         _listOfIntervals := someIntervals;
         _listOfMovements := movements |}.

Variable hfn lfn : list Note.

(** One turn of the [while] loop of [visTheseParts], lines 519-588, with
    [n = 2] and [offsetInterval = 0.5]. *)
Definition visTheseParts_body (st : vis_state) : outcome vis_state :=
  let n := 2%nat in
  let offsetInterval := 1 # 2 in
  (* the lower voice, lines 535-548 *)
  let '(mostRecentLow1, previousLows1, lowUpdated) :=
    match getElementsByOffset lfn (thisOffset st) with
    | lfnGEBO :: _ =>
      if is_new_pitch (mostRecentLow st) lfnGEBO
      then (Some lfnGEBO, append_if_note (previousLows st) (mostRecentLow st), true)
      else (mostRecentLow st, previousLows st, false)
    | [] => (mostRecentLow st, previousLows st, false)
    end in
  let highMustUpdate := lowUpdated in
  (* the higher voice, lines 549-562 *)
  let '(mostRecentHigh1, previousHighs1, highUpdated) :=
    match getElementsByOffset hfn (thisOffset st) with
    | hfnGEBO :: _ =>
      if is_new_pitch (mostRecentHigh st) hfnGEBO
      then (Some hfnGEBO, append_if_note (previousHighs st) (mostRecentHigh st), true)
      else (mostRecentHigh st, previousHighs st, false)
    | [] => (mostRecentHigh st, previousHighs st, false)
    end in
  let lowMustUpdate := highUpdated in
  (* the static voice records its position too, lines 563-568 *)
  let previousLows2 :=
    if lowMustUpdate && negb lowUpdated
    then append_if_note previousLows1 mostRecentLow1 else previousLows1 in
  let previousHighs2 :=
    if highMustUpdate && negb highUpdated
    then append_if_note previousHighs1 mostRecentHigh1 else previousHighs1 in
  (* counting, lines 572-585 *)
  '(intervals, ngrams) ←
    (if lowUpdated || highUpdated then
       thisInterval ← Interval_ mostRecentLow1 mostRecentHigh1;
       let intervals :=
         addInterval_calls st ++
         [{| at_offset := thisOffset st; low := mostRecentLow1;
             high := mostRecentHigh1; interval := thisInterval |}] in
       if bool_decide (n - 1 <= List.length previousLows2)%nat &&
          bool_decide (n - 1 <= List.length previousHighs2)%nat
       then
         previous ← Interval_ (last_opt previousLows2) (last_opt previousHighs2);
         ngram ← __init__ [previous; thisInterval] false;
         Ret (intervals, addNGram_calls st ++ [ngram])
       else Ret (intervals, addNGram_calls st)
     else Ret (addInterval_calls st, addNGram_calls st));
  Ret {| thisOffset := thisOffset st + offsetInterval;
         mostRecentHigh := mostRecentHigh1;
         mostRecentLow := mostRecentLow1;
         previousHighs := previousHighs2;
         previousLows := previousLows2;
         addInterval_calls := intervals;
         addNGram_calls := ngrams |}.

(** [while thisOffset <= highestOffset: ...], line 518. *)
Fixpoint visTheseParts_loop (fuel : nat) (highest : Q) (st : vis_state)
  : outcome vis_state :=
  if Qle_bool (thisOffset st) highest then
    match fuel with
    | O => Diverge
    | S fuel' =>
      st' ← visTheseParts_body st;
      visTheseParts_loop fuel' highest st'
    end
  else Ret st.

(** [visTheseParts( theseParts, theSettings, theStatistics )], lines
    492-589; [hfn] and [lfn] are the notes of the flattened parts. *)
Definition visTheseParts : outcome vis_state :=
  let highest := py_max (highestOffset hfn) (highestOffset lfn) in
  visTheseParts_loop (vis_fuel highest) highest
    {| thisOffset := 0;
       mostRecentHigh := None;
       mostRecentLow := None;
       previousHighs := [];
       previousLows := [];
       addInterval_calls := [];
       addNGram_calls := [] |}.

End WithMusic21.

(** [VerticalIntervalStatistics]: the two tables of intervals and, per
    value of [n], the two tables of n-grams. *)
Record VerticalIntervalStatistics : Type := {
  _simpleIntervalDict : gmap string Z;
  _compoundIntervalDict : gmap string Z;
  _compoundQualityNGramsDict : list (gmap string Z);
  _compoundNoQualityNGramsDict : list (gmap string Z)
}.

(** [VerticalIntervalStatistics.__init__( self )], lines 284-291. *)
Definition VerticalIntervalStatistics__init__ : VerticalIntervalStatistics :=
  {| _simpleIntervalDict := ∅;
     _compoundIntervalDict := ∅;
     _compoundQualityNGramsDict := [∅; ∅; ∅];
     _compoundNoQualityNGramsDict := [∅; ∅; ∅] |}.

(** [if key in d: d[key] += 1 else: d[key] = 1] *)
Definition count_one (key : string) (d : gmap string Z) : gmap string Z :=
  match d !! key with
  | Some occurrences => <[ key := (occurrences + 1)%Z ]> d
  | None => <[ key := 1%Z ]> d
  end.

(** [addInterval( self, theInterval )], lines 299-332. *)
Definition addInterval (self : VerticalIntervalStatistics) (theInterval : Interval)
  : VerticalIntervalStatistics :=
  if String.eqb (name theInterval) (semiSimpleName theInterval) then
    {| _simpleIntervalDict := count_one (name theInterval) (_simpleIntervalDict self);
       _compoundIntervalDict := count_one (name theInterval) (_compoundIntervalDict self);
       _compoundQualityNGramsDict := _compoundQualityNGramsDict self;
       _compoundNoQualityNGramsDict := _compoundNoQualityNGramsDict self |}
  else
    {| _simpleIntervalDict :=
         count_one (semiSimpleName theInterval) (_simpleIntervalDict self);
       _compoundIntervalDict := count_one (name theInterval) (_compoundIntervalDict self);
       _compoundQualityNGramsDict := _compoundQualityNGramsDict self;
       _compoundNoQualityNGramsDict := _compoundNoQualityNGramsDict self |}.

(** [findNumberOfAllQualities( species, db )], lines 346-353. *)
Definition findNumberOfAllQualities (species : string) (db : gmap string Z) : Z :=
  fold_left (fun post quality =>
               match db !! (quality +:+ species) with
               | Some occurrences => (post + occurrences)%Z
               | None => post
               end)
            ["d"; "m"; "M"; "P"; "A"] 0%Z.

(** [getIntervalOccurrences( self, whichInterval, simpleOrCompound='simple' )],
    lines 334-380. *)
Definition getIntervalOccurrences (self : VerticalIntervalStatistics)
    (whichInterval simpleOrCompound : string) : outcome Z :=
  let errorstr :=
    "VerticalIntervalStatistics.getIntervalOccurrences(): 'simpleOrCompound' must be set to either 'simple' or 'compound'" in
  if py_isdigit whichInterval then
    if String.eqb "simple" simpleOrCompound
    then Ret (findNumberOfAllQualities whichInterval (_simpleIntervalDict self))
    else if String.eqb "compound" simpleOrCompound
    then Ret (findNumberOfAllQualities whichInterval (_compoundIntervalDict self))
    else Raise (NonsensicalInputError errorstr)
  else
    if String.eqb "simple" simpleOrCompound
    then Ret (default 0%Z (_simpleIntervalDict self !! whichInterval))
    else if String.eqb "compound" simpleOrCompound
    then Ret (default 0%Z (_compoundIntervalDict self !! whichInterval))
    else Raise (NonsensicalInputError errorstr).

(** [while len(self._compoundQualityNGramsDict) <= theNGram._n: ...], lines
    390-392; [turns] is the number of turns the loop takes. *)
Fixpoint make_room (turns : nat) (tables : list (gmap string Z) * list (gmap string Z))
  : list (gmap string Z) * list (gmap string Z) :=
  match turns with
  | O => tables
  | S turns' => make_room turns' (fst tables ++ [∅], snd tables ++ [∅])
  end.

(** [tables[n][key] += 1] or [tables[n][key] = 1] *)
Definition count_in_table (tables : list (gmap string Z)) (n : nat) (key : string)
  : outcome (list (gmap string Z)) :=
  table ← py_index tables (Z.of_nat n);
  Ret (<[ n := count_one key table ]> tables).

(** [addNGram( self, theNGram )], lines 382-406. *)
Definition addNGram (self : VerticalIntervalStatistics) (theNGram : NGram)
  : outcome VerticalIntervalStatistics :=
  let '(quality, noQuality) :=
    make_room (S (_n theNGram) - List.length (_compoundQualityNGramsDict self))
              (_compoundQualityNGramsDict self, _compoundNoQualityNGramsDict self) in
  zzz ← stringVersion theNGram "compound" (Some true);
  quality ← count_in_table quality (_n theNGram) zzz;
  zzz ← stringVersion theNGram "compound" (Some false);
  noQuality ← count_in_table noQuality (_n theNGram) zzz;
  Ret {| _simpleIntervalDict := _simpleIntervalDict self;
         _compoundIntervalDict := _compoundIntervalDict self;
         _compoundQualityNGramsDict := quality;
         _compoundNoQualityNGramsDict := noQuality |}.

(** [getNGramOccurrences( self, whichNGram, n )], lines 408-441; the
    [IndexError] of [whichNGram[0]] and of [...Dict[n]] is caught. *)
Definition getNGramOccurrences (self : VerticalIntervalStatistics)
    (whichNGram : string) (n : Z) : outcome Z :=
  let attempt :=
    match whichNGram with
    | EmptyString => Raise IndexError
    | String first _ =>
      table ← py_index (if is_alpha first
                        then _compoundQualityNGramsDict self
                        else _compoundNoQualityNGramsDict self) n;
      Ret (default 0%Z (table !! whichNGram))
    end in
  match attempt with
  | Raise IndexError => Ret 0%Z
  | other => other
  end.

(** A value of the settings table: a bool, a str, or a list of ints. *)
Inductive setting : Type :=
| SBool (b : bool)
| SStr (s : string)
| SInts (ns : list Z).

Record IntSecSettings : Type := {
  _secretSettingsHash : gmap string setting
}.

(** [IntSecSettings.__init__( self )], lines 688-692. *)
Definition IntSecSettings__init__ : IntSecSettings :=
  {| _secretSettingsHash :=
       {[ "produceLabeledScore" := SBool false;
          "heedQuality" := SBool false;
          "lookForTheseNs" := SInts [2%Z] ]} |}.

(** [isTorF( s )], lines 704-708. *)
Definition isTorF (s : string) : bool :=
  String.eqb "true" s || String.eqb "True" s ||
  String.eqb "false" s || String.eqb "False" s.

(** The first lines of both parsers, lines 712-715 and 749-752: a leading
    ["set "] (["get "]) is removed. *)
Definition without_prefix (prefix propertyStr : string) : string :=
  if (String.length propertyStr <? 4)%nat then propertyStr
  else if String.eqb prefix (py_slice propertyStr None (Some 4%Z))
       then py_slice propertyStr (Some 4%Z) None
       else propertyStr.

(** [parsePropertySet( self, propertyStr )], lines 694-738. *)
Definition parsePropertySet (self : IntSecSettings) (propertyStr : string)
  : outcome IntSecSettings :=
  let propertyStr := without_prefix "set " propertyStr in
  let spaceIndex := py_find " " propertyStr in
  let property := py_slice propertyStr None (Some spaceIndex) in
  let value := py_slice propertyStr (Some (spaceIndex + 1)%Z) None in
  if (String.eqb "heedQuality" property ||
      String.eqb "produceLabeledScore" property ||
      String.eqb "produceLabelledScore" property) && negb (isTorF value)
  then Raise (NonsensicalInputError
                ("Value must be either True or False, but we got " +:+ value))
  else if bool_decide (is_Some (_secretSettingsHash self !! property))
  then Ret {| _secretSettingsHash :=
                <[ property := SStr value ]> (_secretSettingsHash self) |}
  else if String.eqb "produceLabelledScore" property
  then Ret {| _secretSettingsHash :=
                <[ "produceLabeledScore" := SStr value ]> (_secretSettingsHash self) |}
  else Raise (NonsensicalInputError ("Unrecognized property: " +:+ property)).

(** [parsePropertyGet( self, propertyStr )], lines 740-769. *)
Definition parsePropertyGet (self : IntSecSettings) (propertyStr : string)
  : outcome setting :=
  let propertyStr := without_prefix "get " propertyStr in
  post ←
    match _secretSettingsHash self !! propertyStr with
    | Some post => Ret post
    | None =>
      if String.eqb "produceLabelledScore" propertyStr
      then match _secretSettingsHash self !! "produceLabeledScore" with
           | Some post => Ret post
           | None => Raise KeyError
           end
      else Raise (NonsensicalInputError ("Unrecognized property: " +:+ propertyStr))
    end;
  match post with
  | SStr s =>
    if String.eqb "True" s || String.eqb "true" s then Ret (SBool true)
    else if String.eqb "False" s || String.eqb "false" s then Ret (SBool false)
    else Ret post
  | _ => Ret post
  end.

(** A ["set ..."] line of the command loop, lines 810-813: the error of
    [parsePropertySet] is printed and the settings stay as they were. *)
Definition set_command (mySettings : IntSecSettings) (userSays : string)
  : IntSecSettings :=
  match parsePropertySet mySettings userSays with
  | Ret settings => settings
  | _ => mySettings
  end.

(** [intervalSorter( x, y )], lines 445-487. *)
Definition intervalSorter (x y : string) : str_exn + Z :=
  if String.eqb x y then inr 0%Z
  else
    match py_int_str (py_tail x) with
    | inl e => inl e
    | inr size_x =>
      match py_int_str (py_tail y) with
      | inl e => inl e
      | inr size_y =>
        if (size_x <? size_y)%Z then inr (-1)%Z
        else if (size_y <? size_x)%Z then inr 1%Z
        else
          match x, y with
          | String xQual _, String yQual _ =>
            if Ascii.eqb xQual "d" then inr (-1)%Z
            else if Ascii.eqb yQual "d" then inr 1%Z
            else if Ascii.eqb xQual "A" then inr 1%Z
            else if Ascii.eqb yQual "A" then inr (-1)%Z
            else if Ascii.eqb xQual "m" then inr (-1)%Z
            else if Ascii.eqb yQual "m" then inr 1%Z
            else inr 0%Z
          | _, _ => inl EmptyIndexError
          end
      end
    end.

End Intsec.

(** ** controllers/experimenter.py: [ChordsLists] and [IntervalsStatistics] *)

Module ChordsLists.

(** A member of an event: a string, or a list or tuple of strings. *)
Inductive chord_member : Type :=
| Single (s : string)
| Nested (inner : list string).

(** [remove_rests(event)], lines 504-528. *)
Definition remove_rests (event : list chord_member) : list string :=
  fold_left
    (fun post chord_member =>
       match chord_member with
       | Nested inner =>
         fold_left
           (fun post inner_chord_member =>
              if negb (String.eqb "Rest" inner_chord_member)
              then post ++ [inner_chord_member] else post)
           inner post
       | Single s =>
         if negb (String.eqb "Rest" s) then post ++ [s] else post
       end)
    event [].

End ChordsLists.

Module IntervalsStatistics.

(** [interval_sorter(left, right)], lines 675-736. *)
Definition interval_sorter (left right : string) : str_exn + Z :=
  let left := remove_char "-" (remove_char "+" left) in
  let right := remove_char "-" (remove_char "+" right) in
  (* left[0] in string_digits and right[0] in string_digits *)
  let both_numbers : str_exn + bool :=
    match left with
    | EmptyString => inl EmptyIndexError
    | String left0 _ =>
      if is_digit left0 then
        match right with
        | EmptyString => inl EmptyIndexError
        | String right0 _ => inr (is_digit right0)
        end
      else inr false
    end in
  match both_numbers with
  | inl e => inl e
  | inr both_numbers =>
    let left := if both_numbers then String "P" left else left in
    let right := if both_numbers then String "P" right else right in
    if String.eqb left right then inr 0%Z
    else
      match py_int_str (py_tail left) with
      | inl e => inl e
      | inr size_left =>
        match py_int_str (py_tail right) with
        | inl e => inl e
        | inr size_right =>
          if (size_left <? size_right)%Z then inr (-1)%Z
          else if (size_right <? size_left)%Z then inr 1%Z
          else
            match left, right with
            | String left_qual _, String right_qual _ =>
              if Ascii.eqb left_qual "d" then inr (-1)%Z
              else if Ascii.eqb right_qual "d" then inr 1%Z
              else if Ascii.eqb left_qual "A" then inr 1%Z
              else if Ascii.eqb right_qual "A" then inr (-1)%Z
              else if Ascii.eqb left_qual "m" then inr (-1)%Z
              else if Ascii.eqb right_qual "m" then inr 1%Z
              else inr 0%Z
            | _, _ => inl EmptyIndexError
            end
        end
      end
  end.

End IntervalsStatistics.

(** ** controllers/experimenter.py: [IntervalNGramStatistics] *)

Module IntervalNGramStatistics.

(** [ngram_sorter(left, right)], lines 902-966, for two strings.  The
    function calls itself on what follows the first space of [left], a
    shorter string: [None] is a call that [turns] calls do not reach. *)
Fixpoint ngram_sorter_turns (turns : nat) (left right : string)
  : option (str_exn + Z) :=
  match turns with
  | O => None
  | S turns' =>
    let left := py_strip left in
    let right := py_strip right in
    let left_find := py_find " " left in
    let right_find := py_find " " right in
    if (-1 =? left_find)%Z then
      if (-1 =? right_find)%Z
      then Some (IntervalsStatistics.interval_sorter left right)
      else Some (inr (-1)%Z)
    else if (-1 =? right_find)%Z then Some (inr 1%Z)
    else
      match IntervalsStatistics.interval_sorter
              (py_slice left None (Some left_find))
              (py_slice right None (Some right_find)) with
      | inl e => Some (inl e)
      | inr possible_result =>
        if negb (0 =? possible_result)%Z then Some (inr possible_result)
        else ngram_sorter_turns turns'
               (py_slice left (Some (left_find + 1)%Z) None)
               (py_slice right (Some (right_find + 1)%Z) None)
      end
  end.

Definition ngram_sorter (left right : string) : option (str_exn + Z) :=
  ngram_sorter_turns (S (String.length left)) left right.

End IntervalNGramStatistics.

(** ** A stand-in for music21, for the examples *)

Module ToyMusic21.
Import Music21.

(** Diatonic step and semitone of a note letter. *)
Definition letter (c : ascii) : option (Z * Z) :=
  if Ascii.eqb c "C" then Some (0, 0)%Z
  else if Ascii.eqb c "D" then Some (1, 2)%Z
  else if Ascii.eqb c "E" then Some (2, 4)%Z
  else if Ascii.eqb c "F" then Some (3, 5)%Z
  else if Ascii.eqb c "G" then Some (4, 7)%Z
  else if Ascii.eqb c "A" then Some (5, 9)%Z
  else if Ascii.eqb c "B" then Some (6, 11)%Z
  else None.

Definition octave (c : ascii) : option Z :=
  let n := Z.of_nat (nat_of_ascii c) in
  if ((48 <=? n) && (n <=? 57))%Z then Some (n - 48)%Z else None.

(** Diatonic number and MIDI number of a name such as "C4", "F#4", "B-3". *)
Definition numbers (nameWithOctave : string) : option (Z * Z) :=
  match nameWithOctave with
  | String l (String o EmptyString) =>
    '(d, m) ← letter l; k ← octave o;
    Some (7 * k + d, 12 * (k + 1) + m)%Z
  | String l (String a (String o EmptyString)) =>
    '(d, m) ← letter l; k ← octave o;
    if Ascii.eqb a "#" then Some (7 * k + d, 12 * (k + 1) + m + 1)%Z
    else if Ascii.eqb a "-" then Some (7 * k + d, 12 * (k + 1) + m - 1)%Z
    else None
  | _ => None
  end.

Definition major_or_perfect (steps : Z) : Z :=
  (12 * (steps / 7) +
   nth (Z.to_nat (steps mod 7)) [0; 2; 4; 5; 7; 9; 11] 0)%Z.

Definition quality (steps semitones : Z) : string :=
  let extra := (semitones - major_or_perfect steps)%Z in
  let perfect := existsb (Z.eqb (steps mod 7)) [0; 3; 4]%Z in
  if (extra =? 0)%Z then (if perfect then "P" else "M")
  else if (extra =? 1)%Z then "A"
  else if (extra =? -1)%Z then (if perfect then "d" else "m")
  else if ((extra =? -2) && negb perfect)%Z then "d"
  else "?".

(** The interval from [lo] to [hi]; music21 refuses what is not a note. *)
Definition Interval_ (lo hi : option Note) : outcome Interval :=
  match lo, hi with
  | Some a, Some b =>
    match numbers (nameWithOctave a), numbers (nameWithOctave b) with
    | Some (d1, m1), Some (d2, m2) =>
      let up := ((d1 <? d2) || ((d1 =? d2) && (m1 <=? m2)))%Z in
      let steps := Z.abs (d2 - d1) in
      let semitones := (if up then m2 - m1 else m1 - m2)%Z in
      let simple := (if (0 <? steps) && (steps mod 7 =? 0) then 7 else steps mod 7)%Z in
      Ret {| noteStart := Some a;
             noteEnd := Some b;
             name := quality steps semitones +:+ pretty (steps + 1)%Z;
             semiSimpleName := quality steps semitones +:+ pretty (simple + 1)%Z;
             direction := (if (d1 =? d2) && (m1 =? m2) then 0
                           else if up then 1 else -1)%Z;
             interval_offset := 0 |}
    | _, _ => Raise AttributeError
    end
  | _, _ => Raise AttributeError
  end.

(** [Interval.__eq__]: the same size in the same direction. *)
Definition Interval_eqb (a b : Interval) : bool :=
  String.eqb (name a) (name b) && (direction a =? direction b)%Z.

Definition quarter (o : Q) (p : string) : Note :=
  {| offset := o; quarterLength := 1; nameWithOctave := p |}.

End ToyMusic21.

(** * Properties *)

(** ** Numbers and lists *)

Lemma Qltb_lt a b : Qltb a b = true <-> a < b.
Proof.
  unfold Qltb. rewrite negb_true_iff.
  destruct (Qle_bool b a) eqn:E.
  - apply Qle_bool_iff in E. split; [discriminate | lra].
  - split; [intros _ | reflexivity].
    apply Qnot_le_lt. intros H. apply Qle_bool_iff in H. congruence.
Qed.

Lemma Qltb_ge a b : Qltb a b = false <-> b <= a.
Proof.
  unfold Qltb. rewrite negb_false_iff. apply Qle_bool_iff.
Qed.

Lemma py_int_nonneg (x : Q) : 0 <= x -> py_int x = Qfloor x.
Proof.
  destruct x as [n d]. unfold py_int, Qfloor, Qle. simpl. intros H.
  apply Z.quot_div_nonneg; lia.
Qed.

Lemma last_opt_snoc {A : Type} (l : list A) (x : A) : last_opt (l ++ [x]) = Some x.
Proof. unfold last_opt. rewrite rev_app_distr. reflexivity. Qed.

(** The docstring example: [round_to( 12.6, 0.5 ) ==> 12.5]. *)
Example round_to_doc :
  exists r, AnalyticEngine.round_to (126 # 10) (1 # 2) = Ret r /\ r == 125 # 10.
Proof. eexists. split; [reflexivity | reflexivity]. Qed.

Lemma Qhalf (p : Q) : p / 2 == p * (1 # 2).
Proof. field. Qed.

Lemma round_to_bracket (n p : Q) (k : Z) :
  0 <= n -> 0 < p -> k = Qfloor (n / p + (1 # 2)) ->
  inject_Z k * p - p * (1 # 2) <= n /\ n < inject_Z k * p + p * (1 # 2).
Proof.
  intros Hn Hp ->.
  assert (Hx : n == (n / p) * p) by (field; lra).
  pose proof (Qfloor_le (n / p + (1 # 2))) as Hlo.
  pose proof (Qlt_floor (n / p + (1 # 2))) as Hhi.
  rewrite inject_Z_plus in Hhi. change (inject_Z 1) with 1 in Hhi.
  remember (inject_Z (Qfloor (n / p + (1 # 2)))) as k eqn:Ek.
  remember (n / p) as x eqn:Ex.
  clear Ek Ex.
  split.
  - assert (H : (k - (1 # 2)) * p <= x * p) by (apply Qmult_le_compat_r; lra).
    lra.
  - assert (H : x * p < (k + (1 # 2)) * p) by (apply Qmult_lt_compat_r; lra).
    lra.
Qed.

Lemma inject_Z_mult_le_pred (j k : Z) (p : Q) :
  0 < p -> (j <= k - 1)%Z -> inject_Z j * p <= inject_Z k * p - p.
Proof.
  intros Hp Hj.
  assert (H : inject_Z j <= inject_Z k - 1).
  { unfold Qle, Qminus, Qplus, Qopp, inject_Z; simpl. lia. }
  assert (H' : inject_Z j * p <= (inject_Z k - 1) * p)
    by (apply Qmult_le_compat_r; lra).
  lra.
Qed.

(** Over exact numbers the formula of [round_to] is right: for [n >= 0]
    and [p > 0] it gives a multiple [k * p] of [p] whose distance from [n]
    is at most [p / 2]; no other multiple of [p] is nearer, and a multiple
    at the same distance is not above the result (ties go up). *)
Lemma round_to_exact_nearest_multiple (n p : Q) :
  0 <= n -> 0 < p ->
  exists k : Z,
    AnalyticEngine.round_to n p = Ret (inject_Z k * p) /\
    Qabs (inject_Z k * p - n) <= p / 2 /\
    (forall j : Z, Qabs (inject_Z k * p - n) <= Qabs (inject_Z j * p - n)) /\
    (forall j : Z, Qabs (inject_Z j * p - n) == Qabs (inject_Z k * p - n) ->
                   inject_Z j * p <= inject_Z k * p).
Proof.
  intros Hn Hp.
  exists (Qfloor (n / p + (1 # 2))).
  assert (Hq : 0 <= n / p).
  { apply Qle_shift_div_l; lra. }
  destruct (round_to_bracket n p _ Hn Hp eq_refl) as [Hlo Hhi].
  set (k := Qfloor (n / p + (1 # 2))) in *.
  assert (Hmul : forall j : Z, (j <= k - 1)%Z -> inject_Z j * p <= inject_Z k * p - p)
    by (intros j; apply inject_Z_mult_le_pred; exact Hp).
  assert (Hmul' : forall j : Z, (k + 1 <= j)%Z -> inject_Z k * p + p <= inject_Z j * p).
  { intros j Hj. pose proof (inject_Z_mult_le_pred k j p Hp ltac:(lia)). lra. }
  assert (Habs : Qabs (inject_Z k * p - n) <= p * (1 # 2))
    by (apply Qabs_Qle_condition; split; lra).
  rewrite Qhalf.
  repeat split.
  - unfold AnalyticEngine.round_to.
    destruct (Qeq_bool p 0) eqn:E.
    { apply Qeq_bool_iff in E. lra. }
    assert (E0 : Qle_bool 0 n = true) by (apply Qle_bool_iff; exact Hn).
    rewrite E0, py_int_nonneg by lra. reflexivity.
  - exact Habs.
  - intros j.
    destruct (Z.lt_trichotomy j k) as [Hj | [-> | Hj]].
    + specialize (Hmul j ltac:(lia)).
      rewrite (Qabs_neg (inject_Z j * p - n)) by lra. lra.
    + apply Qle_refl.
    + specialize (Hmul' j ltac:(lia)).
      rewrite (Qabs_pos (inject_Z j * p - n)) by lra. lra.
  - intros j Heq.
    destruct (Z.lt_trichotomy j k) as [Hj | [-> | Hj]].
    + specialize (Hmul j ltac:(lia)). lra.
    + apply Qle_refl.
    + specialize (Hmul' j ltac:(lia)). exfalso.
      rewrite (Qabs_pos (inject_Z j * p - n)) in Heq by lra.
      lra.
Qed.

(** ** [fill_space_between_offsets]: the two copies *)

Lemma Qeq_bool_false_neq (a b : Q) : Qeq_bool a b = false -> ~ a == b.
Proof. intros E H. apply Qeq_bool_iff in H. congruence. Qed.

(** What [highest_valid_qL] answers once at least a 256th note remains. *)
Lemma highest_valid_qL_spec (q : Q) :
  (1 # 64) <= q ->
  exists pf, AnalyticEngine.highest_valid_qL q = Some pf /\
             (pf = q \/ (pf < q /\ (1 # 64) <= pf /\ pf <= 2)).
Proof.
  intros Hq. unfold AnalyticEngine.highest_valid_qL.
  destruct (existsb (Qeq_bool q) AnalyticEngine.list_of_durations) eqn:Ein.
  - exists q. split; [reflexivity | left; reflexivity].
  - unfold AnalyticEngine.list_of_durations in *. simpl in Ein.
    repeat (apply orb_false_elim in Ein; destruct Ein as [? Ein]).
    simpl.
    repeat match goal with
           | |- context [Qltb ?a q] =>
             let E := fresh "E" in
             destruct (Qltb a q) eqn:E;
             [ apply Qltb_lt in E; eexists; split;
               [reflexivity | right; repeat split; (exact E || lra)]
             | apply Qltb_ge in E ]
           end.
    exfalso.
    assert (Heq : q == 1 # 64) by lra.
    apply Qeq_bool_iff in Heq. congruence.
Qed.

Lemma solver_measure_decreases (q d : Q) (fuel : nat) :
  0 <= q - d -> (1 # 64) <= d ->
  (Z.to_nat (Qfloor (64 * q)) < S fuel)%nat ->
  (Z.to_nat (Qfloor (64 * (q - d))) < fuel)%nat.
Proof.
  intros Hpos Hd Hfuel.
  pose proof (Qfloor_le (64 * (q - d))) as Hlo.
  assert (H0 : (0 <= Qfloor (64 * (q - d)))%Z).
  { pose proof (Qfloor_resp_le 0 (64 * (q - d)) ltac:(lra)) as H.
    exact H. }
  assert (H1 : (Qfloor (64 * (q - d)) + 1 <= Qfloor (64 * q))%Z).
  { rewrite <- (Qfloor_Z (Qfloor (64 * (q - d)) + 1)).
    apply Qfloor_resp_le. rewrite inject_Z_plus.
    change (inject_Z 1) with 1. lra. }
  lia.
Qed.

Lemma the_solver_spec (fuel : nat) :
  forall q : Q,
    0 <= q -> (Z.to_nat (Qfloor (64 * q)) < fuel)%nat ->
    exists first others,
      AnalyticEngine.the_solver fuel q = Ret (first :: others) /\
      Qsum (first :: others) == q /\
      Forall (fun d => 0 <= d /\ d <= 4) (first :: others).
Proof.
  induction fuel as [| fuel IH]; intros q Hq Hfuel; [lia |].
  cbn [AnalyticEngine.the_solver].
  destruct (Qeq_bool 4 q) eqn:E4.
  { apply Qeq_bool_iff in E4. exists 4, []. repeat split.
    - unfold Qsum; simpl. lra.
    - constructor; [lra | constructor]. }
  apply Qeq_bool_false_neq in E4.
  destruct (Qltb q 4) eqn:Elt; simpl.
  - apply Qltb_lt in Elt.
    assert (E0 : Qle_bool 0 q = true) by (apply Qle_bool_iff; exact Hq).
    rewrite E0.
    destruct (Qltb q (1 # 64)) eqn:Esmall.
    { exists q, []. repeat split.
      - unfold Qsum; simpl. lra.
      - constructor; [lra | constructor]. }
    apply Qltb_ge in Esmall.
    destruct (highest_valid_qL_spec q Esmall) as (pf & -> & [-> | (Hlt & Hge & Hle)]).
    + rewrite Qeq_bool_refl. exists q, []. repeat split.
      * unfold Qsum; simpl. lra.
      * constructor; [lra | constructor].
    + destruct (Qeq_bool pf q) eqn:Epf.
      { apply Qeq_bool_iff in Epf. lra. }
      destruct (IH (q - pf)) as (f & o & Hrun & Hsum & Hall).
      * lra.
      * apply solver_measure_decreases; [lra | exact Hge | exact Hfuel].
      * rewrite Hrun. exists pf, (f :: o). repeat split.
        -- change (Qsum (pf :: f :: o)) with (pf + Qsum (f :: o)).
           rewrite Hsum. lra.
        -- constructor; [lra | exact Hall].
  - apply Qltb_ge in Elt.
    assert (Hgt : 4 < q).
    { destruct (Qlt_le_dec 4 q) as [H | H]; [exact H |].
      exfalso. apply E4. lra. }
    assert (Egt : Qltb 4 q = true) by (apply Qltb_lt; exact Hgt).
    rewrite Egt.
    destruct (IH (q - 4)) as (f & o & Hrun & Hsum & Hall).
    + lra.
    + apply solver_measure_decreases; [lra | lra | exact Hfuel].
    + rewrite Hrun. exists 4, (f :: o). repeat split.
      * change (Qsum (4 :: f :: o)) with (4 + Qsum (f :: o)).
        rewrite Hsum. lra.
      * constructor; [lra | exact Hall].
Qed.

(** On a non-negative remainder the two solvers run the same steps; they
    differ only in the exception raised for a negative one. *)
Lemma the_solver_copies_agree (fuel : nat) :
  forall q : Q,
    0 <= q ->
    LilyPondExperiment.the_solver fuel q = AnalyticEngine.the_solver fuel q.
Proof.
  induction fuel as [| fuel IH]; intros q Hq; [reflexivity |].
  cbn [AnalyticEngine.the_solver LilyPondExperiment.the_solver].
  change LilyPondExperiment.highest_valid_ql with AnalyticEngine.highest_valid_qL.
  destruct (Qeq_bool 4 q) eqn:E4; [reflexivity |].
  apply Qeq_bool_false_neq in E4.
  destruct (Qltb q 4) eqn:Elt; simpl.
  - assert (E0 : Qle_bool 0 q = true) by (apply Qle_bool_iff; exact Hq).
    rewrite E0.
    destruct (Qltb q (1 # 64)) eqn:Esmall; [reflexivity |].
    apply Qltb_ge in Esmall.
    destruct (highest_valid_qL_spec q Esmall) as (pf & -> & [-> | (Hlt & Hge & Hle)]).
    + rewrite Qeq_bool_refl. reflexivity.
    + destruct (Qeq_bool pf q); [reflexivity |].
      rewrite IH by lra. reflexivity.
  - apply Qltb_ge in Elt.
    assert (Hgt : 4 < q).
    { destruct (Qlt_le_dec 4 q) as [H | H]; [exact H |].
      exfalso. apply E4. lra. }
    assert (Egt : Qltb 4 q = true) by (apply Qltb_lt; exact Hgt).
    rewrite Egt, IH by lra. reflexivity.
Qed.

Example fill_space_three_and_a_bit :
  exists first others,
    AnalyticEngine.fill_space_between_offsets (1 # 2) (4 + (1 # 4))
    = Ret (first, others) /\
    first == 2 /\ Forall2 Qeq others [1; 1 # 2; 1 # 4].
Proof.
  eexists _, _. split; [vm_compute; reflexivity |].
  split; [reflexivity | repeat constructor].
Qed.

(** Over exact numbers, for offsets [start_o <= end_o], the two copies of
    [fill_space_between_offsets] return the same pair (first duration, list
    of filler durations); the durations of that pair sum to
    [end_o - start_o] and each of them is at most 4. *)
Lemma fill_space_exact_copies_equivalent (start_o end_o : Q) :
  start_o <= end_o ->
  exists first others,
    AnalyticEngine.fill_space_between_offsets start_o end_o = Ret (first, others) /\
    LilyPondExperiment.fill_space_between_offsets start_o end_o = Ret (first, others) /\
    Qsum (first :: others) == end_o - start_o /\
    Forall (fun d => d <= 4) (first :: others).
Proof.
  intros Hle.
  assert (Hq : 0 <= end_o - start_o) by lra.
  destruct (the_solver_spec (solver_fuel (end_o - start_o)) (end_o - start_o) Hq)
    as (first & others & Hrun & Hsum & Hall).
  { unfold solver_fuel. lia. }
  exists first, others.
  unfold AnalyticEngine.fill_space_between_offsets,
         LilyPondExperiment.fill_space_between_offsets.
  rewrite the_solver_copies_agree by exact Hq.
  rewrite Hrun. repeat split; try exact Hsum.
  eapply List.Forall_impl; [| exact Hall].
  intros d [_ H]. exact H.
Qed.


(** ** [OverBassIndexer.__init__] *)

Section OverBassInit.
Import OverBass.

Variable score : gmap string DataFrame.
Variable horiz vert : DataFrame.
Hypothesis Hhoriz : score !! "noterest.NoteRestIndexer" = Some horiz.
Hypothesis Hvert : score !! "interval.IntervalIndexer" = Some vert.

(** Without a ['horizontal'] setting the bass is the last voice. *)
Lemma over_bass_default_horizontal :
  exists self,
    __init__ score None = Ret self /\
    horizontal_voice self = (Z.of_nat (List.length (columns horiz)) - 1)%Z /\
    _settings self !! "horizontal" = Some (PInt (horizontal_voice self)).
Proof using Hhoriz Hvert.
  unfold __init__.
  rewrite lookup_singleton_eq. cbn [mbind outcome_bind].
  change (types !! "notes") with (Some "noterest.NoteRestIndexer").
  cbv beta iota. rewrite Hhoriz. cbn [mbind outcome_bind].
  rewrite lookup_singleton_ne by discriminate.
  cbn [mbind outcome_bind]. rewrite Hvert. cbn [mbind outcome_bind].
  eexists. split; [reflexivity |]. split; [reflexivity |].
  cbn. apply lookup_insert_eq.
Qed.

(** A ['horizontal'] above the last voice is refused at construction. *)
Lemma over_bass_rejects_high (h : Z) :
  (h > Z.of_nat (List.length (columns horiz)) - 1)%Z ->
  __init__ score (Some {[ "horizontal" := PInt h ]})
  = Raise (RuntimeError _WRONG_HORIZ).
Proof using Hhoriz.
  intros Hh. unfold __init__.
  assert (Ht : (({[ "horizontal" := PInt h ]} : gmap string pyval)
                 ∪ {[ "type" := PStr "notes" ]}) !! "type"
               = Some (PStr "notes")).
  { apply lookup_union_Some_raw. right.
    split; [apply lookup_singleton_ne; discriminate | apply lookup_singleton_eq]. }
  rewrite Ht. cbn [mbind outcome_bind].
  change (types !! "notes") with (Some "noterest.NoteRestIndexer").
  cbv beta iota. rewrite Hhoriz. cbn [mbind outcome_bind].
  assert (Hl : (({[ "horizontal" := PInt h ]} : gmap string pyval)
                 ∪ {[ "type" := PStr "notes" ]}) !! "horizontal"
               = Some (PInt h)).
  { apply lookup_union_Some_raw. left. apply lookup_singleton_eq. }
  rewrite Hl.
  destruct (Z.gtb_spec h (Z.of_nat (List.length (columns horiz)) - 1)); [| lia].
  reflexivity.
Qed.

(** A negative ['horizontal'] passes the only test of the constructor. *)
Lemma over_bass_accepts_negative (h : Z) :
  (h < 0)%Z ->
  exists self,
    __init__ score (Some {[ "horizontal" := PInt h ]}) = Ret self /\
    horizontal_voice self = h.
Proof using Hhoriz Hvert.
  intros Hh. unfold __init__.
  assert (Ht : (({[ "horizontal" := PInt h ]} : gmap string pyval)
                 ∪ {[ "type" := PStr "notes" ]}) !! "type"
               = Some (PStr "notes")).
  { apply lookup_union_Some_raw. right.
    split; [apply lookup_singleton_ne; discriminate | apply lookup_singleton_eq]. }
  rewrite Ht. cbn [mbind outcome_bind].
  change (types !! "notes") with (Some "noterest.NoteRestIndexer").
  cbv beta iota. rewrite Hhoriz. cbn [mbind outcome_bind].
  assert (Hl : (({[ "horizontal" := PInt h ]} : gmap string pyval)
                 ∪ {[ "type" := PStr "notes" ]}) !! "horizontal"
               = Some (PInt h)).
  { apply lookup_union_Some_raw. left. apply lookup_singleton_eq. }
  rewrite Hl.
  destruct (Z.gtb_spec h (Z.of_nat (List.length (columns horiz)) - 1)); [lia |].
  cbn [mbind outcome_bind]. rewrite Hvert. cbn [mbind outcome_bind].
  eexists. split; reflexivity.
Qed.
End OverBassInit.

(** A piece of two voices: the notes of voices 0 and 1 and the interval
    between them. *)
Definition two_voice_piece : gmap string OverBass.DataFrame :=
  {[ "noterest.NoteRestIndexer" :=
       {| OverBass.columns := ["0"; "1"];
          OverBass.index := [0; 1];
          OverBass.cells := {[ "0" := ["E4"; "F4"]; "1" := ["C4"; "D4"] ]} |};
     "interval.IntervalIndexer" :=
       {| OverBass.columns := ["0,1"];
          OverBass.index := [0; 1];
          OverBass.cells := {[ "0,1" := ["M3"; "m3"] ]} |} ]}.

Example over_bass_two_voice_default :
  (self ← OverBass.__init__ two_voice_piece None; OverBass.run self)
  = Ret ("1 0,1", [(0, ["C4"; "M3"]); (1, ["D4"; "m3"])]).
Proof. vm_compute. reflexivity. Qed.

(** C7. In the two-voice piece the setting ['horizontal'] = -1 names no
    voice (the voices are "0" and "1"), yet [OverBassIndexer.__init__]
    returns an indexer whose bass voice is -1; the failure only shows in
    [run], as a [KeyError]. *)
Theorem over_bass_negative_horizontal_not_rejected :
  exists self,
    OverBass.__init__ two_voice_piece (Some {[ "horizontal" := OverBass.PInt (-1) ]})
    = Ret self /\
    OverBass.horizontal_voice self = (-1)%Z /\
    ~ In (pretty (OverBass.horizontal_voice self))
         (OverBass.columns (OverBass.horiz_score self)) /\
    OverBass.run self = Raise KeyError.
Proof.
  eexists. split; [vm_compute; reflexivity |].
  split; [reflexivity |]. split.
  - vm_compute. intros [H | [H | []]]; discriminate.
  - vm_compute. reflexivity.
Qed.

(** ** The n-gram indexer: construction *)

(** C6. A configuration whose window size is below 1, or that has no
    vertical grouping, makes the constructor raise a [RuntimeError]; the
    scan after it is never reached, so indexing the piece raises the same
    error and returns no result. *)
Theorem ngram_init_rejects_bad_settings (sc : NewNGram.score) (setts : NewNGram.settings) :
  (exists n, NewNGram.set_n setts = Some n /\ (n < 1)%Z) \/
  NewNGram.set_vertical setts = None \/
  NewNGram.set_vertical setts = Some [] ->
  exists msg,
    NewNGram.__init__ sc setts = Raise (RuntimeError msg) /\
    NewNGram.index_piece sc setts = Raise (RuntimeError msg).
Proof.
  intros H.
  assert (Hinit : exists msg, NewNGram.__init__ sc setts = Raise (RuntimeError msg)).
  { unfold NewNGram.__init__.
    destruct H as [(n & Hn & Hlt) | [Hv | Hv]].
    - rewrite Hn. destruct (NewNGram.set_vertical setts) as [[| v vs] |].
      + eexists; reflexivity.
      + destruct (Z.ltb_spec n 1); [eexists; reflexivity | lia].
      + eexists; reflexivity.
    - rewrite Hv. destruct (NewNGram.set_n setts); eexists; reflexivity.
    - rewrite Hv. destruct (NewNGram.set_n setts); eexists; reflexivity. }
  destruct Hinit as [msg Hmsg]. exists msg. split; [exact Hmsg |].
  unfold NewNGram.index_piece. rewrite Hmsg. reflexivity.
Qed.

(** The settings of [test_init_3]: [{'n': 0, 'vertical': ['0,1']}]. *)
Definition test_init_3_settings : NewNGram.settings :=
  {| NewNGram.set_n := Some 0%Z;
     NewNGram.set_vertical := Some ["0,1"];
     NewNGram.set_horizontal := None;
     NewNGram.set_brackets := None;
     NewNGram.set_mark_singles := None;
     NewNGram.set_terminator := None;
     NewNGram.set_continuer := None |}.

Lemma ngram_init_rejects_bad_settings_witness :
  exists msg,
    NewNGram.__init__ {| NewNGram.voices := ["0,1"]; NewNGram.events := [] |}
                      test_init_3_settings = Raise (RuntimeError msg) /\
    NewNGram.index_piece {| NewNGram.voices := ["0,1"]; NewNGram.events := [] |}
                         test_init_3_settings = Raise (RuntimeError msg).
Proof.
  apply ngram_init_rejects_bad_settings.
  left. exists 0%Z. split; [reflexivity | lia].
Defined.

(** [test_init_3] and [test_init_4] name the message of each error. *)
Example test_init_3 :
  NewNGram.__init__ {| NewNGram.voices := ["0,1"]; NewNGram.events := [] |}
                    test_init_3_settings
  = Raise (RuntimeError NewNGram._N_VALUE_TOO_LOW).
Proof. reflexivity. Qed.

Example test_init_4 :
  NewNGram.__init__ {| NewNGram.voices := ["0,1"]; NewNGram.events := [] |}
    {| NewNGram.set_n := Some 14%Z;
       NewNGram.set_vertical := None;
       NewNGram.set_horizontal := Some ["0"];
       NewNGram.set_brackets := None;
       NewNGram.set_mark_singles := None;
       NewNGram.set_terminator := None;
       NewNGram.set_continuer := None |}
  = Raise (RuntimeError NewNGram._MISSING_SETTINGS).
Proof. reflexivity. Qed.

(** ** The n-gram indexer: windows *)

Section Windows.
Import NewNGram.

Variable cfg : config.
Variable rows : list aligned_row.


Lemma horizontals_app (w1 w2 : list slot) :
  horizontals (w1 ++ w2) = horizontals w1 ++ horizontals w2.
Proof. unfold horizontals. apply flat_map_app. Qed.


(** With horizontal voices configured, the horizontal slots are those of
    the gaps after rows [i], [i + 1], ... *)
Lemma extend_horizontals (k : nat) :
  cfg_horizontal cfg <> [] ->
  forall (i : nat) (rest : list slot),
    extend cfg rows i k = Some rest ->
    forall j, (j < k)%nat ->
              horizontals rest !! j = Some (horizontal_slot cfg rows (i + j)).
Proof.
  intros Hh.
  induction k as [| k IH]; intros i rest Hext j Hj; [lia |].
  cbn [extend] in Hext.
  destruct (bool_decide (S i < List.length rows)%nat || observed cfg rows i);
    [| discriminate].
  destruct (vertical_slot rows (S i)) as [v |]; [| discriminate].
  destruct (extend cfg rows (S i) k) as [rest' |] eqn:Er; [| discriminate].
  cbn in Hext. injection Hext as <-.
  destruct (cfg_horizontal cfg) as [| h hs] eqn:Ech; [congruence |].
  cbn. destruct j as [| j].
  - rewrite Nat.add_0_r. reflexivity.
  - change (horizontals rest' !! j = Some (horizontal_slot cfg rows (i + S j))).
    rewrite (IH _ _ Er j) by lia. do 2 f_equal. lia.
Qed.

(** The slots after row [i] exist as soon as every later position is in
    the stream or is reached through an observed gap. *)
Lemma extend_is_Some (k : nat) :
  rows <> [] ->
  forall i : nat,
    (forall j, (j < k)%nat ->
               (S (i + j) < List.length rows)%nat \/ observed cfg rows (i + j) = true) ->
    is_Some (extend cfg rows i k).
Proof.
  intros Hne.
  induction k as [| k IH]; intros i Hcan; cbn [extend]; [eexists; reflexivity |].
  assert (Hc : bool_decide (S i < List.length rows)%nat || observed cfg rows i = true).
  { destruct (Hcan 0%nat ltac:(lia)) as [H | H]; rewrite Nat.add_0_r in H.
    - rewrite (bool_decide_eq_true_2 _ H). reflexivity.
    - rewrite H. apply orb_true_r. }
  rewrite Hc.
  assert (Hv : is_Some (vertical_slot rows (S i))).
  { unfold vertical_slot. destruct (rows !! S i); [eexists; reflexivity |].
    destruct (last rows) eqn:El; [eexists; reflexivity |].
    apply last_None in El. contradiction. }
  destruct Hv as [v ->].
  destruct (IH (S i)) as [rest' ->].
  - intros j Hj. specialize (Hcan (S j) ltac:(lia)).
    replace (S i + j)%nat with (i + S j)%nat by lia. exact Hcan.
  - eexists; reflexivity.
Qed.


(** A window is emitted exactly when its start row has one and no slot
    of it holds a terminator. *)
Lemma in_windows (o : Q) (w : list slot) :
  In (o, w) (windows cfg rows) <->
  exists i r, rows !! i = Some r /\ o = row_offset r /\
              window cfg rows i = Some w /\ has_terminator cfg w = false.
Proof.
  unfold windows. rewrite in_flat_map. split.
  - intros (i & _ & Hin).
    destruct (rows !! i) as [r |] eqn:Er; [| destruct Hin].
    destruct (window cfg rows i) as [w' |] eqn:Ew; [| destruct Hin].
    destruct (has_terminator cfg w') eqn:Et; [destruct Hin |].
    destruct Hin as [Heq | []]. injection Heq as <- <-.
    exists i, r. repeat split; assumption.
  - intros (i & r & Er & -> & Ew & Et).
    exists i. split.
    + apply in_seq. apply lookup_lt_Some in Er. lia.
    + rewrite Er, Ew, Et. left. reflexivity.
Qed.
End Windows.

(** The pieces of [test_ngram_13] and [test_ngram_12]. *)
Definition plain_config (n : Z) : NewNGram.config :=
  {| NewNGram.cfg_n := n;
     NewNGram.cfg_vertical := ["0,1"];
     NewNGram.cfg_horizontal := ["1"];
     NewNGram.cfg_brackets := false;
     NewNGram.cfg_mark_singles := false;
     NewNGram.cfg_terminator := [];
     NewNGram.cfg_continuer := "_" |}.


Definition test_ngram_12_score : NewNGram.score :=
  {| NewNGram.voices := ["0,1"; "1"];
     NewNGram.events :=
       [(0, {[ "0,1" := "A"; "1" := "a" ]});
        (1, {[ "0,1" := "B" ]});
        (2, {[ "0,1" := "C"; "1" := "z" ]});
        (3, {[ "0,1" := "D" ]})] |}.







(** C5. When all [n] vertical tokens of a window are in the stream, the
    window exists whatever the horizontal voices observed; in each gap a
    voice without an observation contributes the continuer token, and the
    window is emitted unless one of its slots holds a terminator.  For
    verticals [A, B, C, D] with horizontals [a] at 0 and [z] at 2 the
    windows are ['A a B'], ['B _ C'] and ['C z D']. *)
Theorem missing_horizontal_gets_continuer
    (cfg : NewNGram.config) (rows : list NewNGram.aligned_row) (i : nat) :
  (1 <= NewNGram.cfg_n cfg)%Z ->
  NewNGram.cfg_horizontal cfg <> [] ->
  (i + (Z.to_nat (NewNGram.cfg_n cfg) - 1) < List.length rows)%nat ->
  (exists w r,
     NewNGram.window cfg rows i = Some w /\
     rows !! i = Some r /\
     (forall k v, (k < Z.to_nat (NewNGram.cfg_n cfg) - 1)%nat ->
                  NewNGram.horizontal_obs cfg rows (i + k) !! v = Some None ->
                  exists hs, NewNGram.horizontals w !! k = Some hs /\
                             hs !! v = Some (NewNGram.cfg_continuer cfg)) /\
     (NewNGram.has_terminator cfg w = false ->
      In (NewNGram.row_offset r, w) (NewNGram.windows cfg rows))) /\
  NewNGram.run (plain_config 2) test_ngram_12_score
  = [(0, "A a B"); (1, "B _ C"); (2, "C z D")].
Proof.
  intros Hn Hh Hi. split; [| vm_compute; reflexivity].
  assert (Hne : rows <> []) by (destruct rows; [cbn in Hi; lia | discriminate]).
  destruct (extend_is_Some cfg rows (Z.to_nat (NewNGram.cfg_n cfg) - 1) Hne i)
    as [rest Hrest].
  { intros j Hj. left. lia. }
  destruct (lookup_lt_is_Some_2 rows i ltac:(lia)) as [r Hr].
  assert (Hw : NewNGram.window cfg rows i = Some (NewNGram.Vertical (NewNGram.row_vertical r) :: rest)).
  { unfold NewNGram.window. rewrite Hr. cbn. rewrite Hrest. reflexivity. }
  eexists _, r. split; [exact Hw |]. split; [exact Hr |]. split.
  - intros k v Hk Hobs.
    exists (NewNGram.horizontal_slot cfg rows (i + k)). split.
    + cbn. apply (extend_horizontals cfg rows _ Hh _ _ Hrest k Hk).
    + unfold NewNGram.horizontal_slot. rewrite list_lookup_fmap, Hobs. reflexivity.
  - intros Ht. apply in_windows. exists i, r. repeat split; assumption.
Qed.

Lemma missing_horizontal_gets_continuer_witness :
  (exists w r,
     NewNGram.window (plain_config 2)
       (NewNGram.align (plain_config 2) ∅ (NewNGram.events test_ngram_12_score)) 1
     = Some w /\
     NewNGram.align (plain_config 2) ∅ (NewNGram.events test_ngram_12_score) !! 1%nat
     = Some r /\
     (forall k v, (k < Z.to_nat (NewNGram.cfg_n (plain_config 2)) - 1)%nat ->
                  NewNGram.horizontal_obs (plain_config 2)
                    (NewNGram.align (plain_config 2) ∅
                       (NewNGram.events test_ngram_12_score)) (1 + k) !! v
                  = Some None ->
                  exists hs, NewNGram.horizontals w !! k = Some hs /\
                             hs !! v = Some (NewNGram.cfg_continuer (plain_config 2))) /\
     (NewNGram.has_terminator (plain_config 2) w = false ->
      In (NewNGram.row_offset r, w)
         (NewNGram.windows (plain_config 2)
            (NewNGram.align (plain_config 2) ∅
               (NewNGram.events test_ngram_12_score))))) /\
  NewNGram.run (plain_config 2) test_ngram_12_score
  = [(0, "A a B"); (1, "B _ C"); (2, "C z D")].
Proof.
  apply (missing_horizontal_gets_continuer (plain_config 2)
           (NewNGram.align (plain_config 2) ∅ (NewNGram.events test_ngram_12_score)) 1).
  - simpl. lia.
  - discriminate.
  - vm_compute. lia.
Defined.

(** ** [NGram.stringVersion]: the spaces of a label *)

Lemma append_nil_l (s : string) : EmptyString +:+ s = s.
Proof. reflexivity. Qed.

Lemma append_cons (c : ascii) (s t : string) :
  String c s +:+ t = String c (s +:+ t).
Proof. reflexivity. Qed.

Lemma append_assoc (s t u : string) : (s +:+ t) +:+ u = s +:+ (t +:+ u).
Proof.
  induction s as [| c s IH]; [reflexivity |].
  rewrite !append_cons, IH. reflexivity.
Qed.

Lemma py_split_space_not_nil (s : string) : py_split_space s <> [].
Proof.
  induction s as [| c s IH]; cbn; [discriminate |].
  destruct (Ascii.eqb c " "); [discriminate |].
  destruct (py_split_space s); discriminate.
Qed.

Lemma concat_cons_char (c : ascii) (w : string) (ws : list string) :
  String.concat " " (String c w :: ws) = String c (String.concat " " (w :: ws)).
Proof. destruct ws; reflexivity. Qed.

(** Splitting on single spaces and joining with single spaces gives the
    string back, whatever the string. *)
Lemma join_split_space (s : string) : py_join_space (py_split_space s) = s.
Proof.
  unfold py_join_space.
  induction s as [| c s IH]; [reflexivity |].
  cbn [py_split_space].
  destruct (Ascii.eqb_spec c " ") as [-> | Hc].
  - pose proof (py_split_space_not_nil s) as Hne.
    destruct (py_split_space s) as [| w ws] eqn:E; [congruence |].
    change (String.concat " " (EmptyString :: w :: ws))
      with (EmptyString +:+ (" " +:+ String.concat " " (w :: ws))).
    rewrite IH. reflexivity.
  - pose proof (py_split_space_not_nil s) as Hne.
    destruct (py_split_space s) as [| w ws] eqn:E; [congruence |].
    rewrite concat_cons_char, IH. reflexivity.
Qed.

(** A string is closed when it is not empty, does not end with a space and
    holds no two spaces in a row. *)
Definition closed_label (s : string) : Prop :=
  s <> EmptyString /\ ends_with_space s = false /\ has_double_space s = false.

Lemma ends_with_space_cons (c : ascii) (s : string) :
  s <> EmptyString -> ends_with_space (String c s) = ends_with_space s.
Proof. destruct s; [congruence | reflexivity]. Qed.

Lemma printable_closed (t : string) :
  Intsec.printable t = true -> closed_label t /\ starts_with_space t = false.
Proof.
  unfold Intsec.printable. intros H. apply andb_prop in H as [Hne Hsf].
  assert (Hall : ends_with_space t = false /\ has_double_space t = false /\
                 starts_with_space t = false).
  { clear Hne. induction t as [| c t IH]; [repeat split |].
    cbn [space_free] in Hsf. apply andb_prop in Hsf as [Hc Hsf].
    apply negb_true_iff in Hc. destruct (IH Hsf) as (He & Hd & Hs).
    repeat split.
    - destruct t; [cbn; exact Hc | rewrite ends_with_space_cons by discriminate; exact He].
    - cbn [has_double_space]. rewrite Hc, Hd. reflexivity.
    - exact Hc. }
  destruct Hall as (He & Hd & Hs).
  repeat split; try assumption.
  intros ->. discriminate.
Qed.

(** Appending a space and a printable token keeps a label closed and does
    not change how it starts. *)
Lemma closed_label_app (p t : string) :
  closed_label p -> Intsec.printable t = true ->
  closed_label (p +:+ (" " +:+ t)) /\
  starts_with_space (p +:+ (" " +:+ t)) = starts_with_space p.
Proof.
  intros Hp Ht. destruct (printable_closed t Ht) as [(Htne & Hte & Htd) Hts].
  induction p as [| c p IH]; [destruct Hp as [H _]; congruence |].
  destruct Hp as (_ & Hpe & Hpd).
  rewrite append_cons. split; [| reflexivity].
  destruct p as [| c' p'].
  - rewrite append_nil_l. change (" " +:+ t) with (String " " t).
    cbn in Hpe. repeat split.
    + discriminate.
    + rewrite ends_with_space_cons by discriminate.
      rewrite ends_with_space_cons by exact Htne. exact Hte.
    + cbn [has_double_space starts_with_space]. rewrite Hpe, Hts, Htd. reflexivity.
  - rewrite ends_with_space_cons in Hpe by discriminate.
    cbn [has_double_space] in Hpd. apply orb_false_elim in Hpd as [Hcs Hpd].
    destruct IH as [(Hne & He & Hd) Hs].
    { repeat split; [discriminate | exact Hpe | exact Hpd]. }
    repeat split.
    + discriminate.
    + rewrite ends_with_space_cons by exact Hne. exact He.
    + cbn [has_double_space]. rewrite Hs, Hcs, Hd. reflexivity.
Qed.

Lemma py_index_nat {A : Type} (l : list A) (i : nat) (x : A) :
  nth_error l i = Some x -> py_index l (Z.of_nat i) = Ret x.
Proof.
  intros H. unfold py_index.
  assert (Hi : (i < List.length l)%nat) by (apply nth_error_Some; congruence).
  destruct (Z.ltb_spec (Z.of_nat i) 0); [lia |].
  destruct (Z.leb_spec 0 (Z.of_nat i)); [| lia].
  destruct (Z.ltb_spec (Z.of_nat i) (Z.of_nat (List.length l))); [| lia].
  cbn. rewrite Nat2Z.id, H. reflexivity.
Qed.

Section Label.
Import Music21 Intsec.

Variable self : NGram.
Hypothesis Hnames :
  Forall (fun iv => printable (printed_name self iv) = true)
         (_listOfIntervals self ++ _listOfMovements self).

(** What the loop keeps true of [post]: it is empty, or closed and without
    a leading space. *)
Definition label_so_far (post : string) : Prop :=
  post = EmptyString \/ (closed_label post /\ starts_with_space post = false).

Lemma glue_token (post t : string) :
  label_so_far post -> printable t = true ->
  closed_label ((if (0 <? String.length post)%nat then post +:+ " " else post) +:+ t) /\
  starts_with_space ((if (0 <? String.length post)%nat then post +:+ " " else post) +:+ t)
  = false.
Proof.
  intros [-> | [Hc Hs]] Ht.
  - cbn. rewrite append_nil_l. apply printable_closed, Ht.
  - assert (Hlen : (0 <? String.length post)%nat = true).
    { destruct post; [destruct Hc as [H _]; congruence | reflexivity]. }
    rewrite Hlen, append_assoc.
    destruct (closed_label_app post t Hc Ht) as [Hc' Hs'].
    split; [exact Hc' | rewrite Hs'; exact Hs].
Qed.

Lemma stringVersion_body_keeps (post : string) (i : nat) :
  (i < List.length (_listOfIntervals self))%nat ->
  label_so_far post ->
  exists post',
    stringVersion_body self "compound" (_heedQuality self) post i = Ret post' /\
    label_so_far post'.
Proof using Hnames.
  intros Hi Hpost.
  apply Forall_app in Hnames as [Hivs Hmvs].
  destruct (nth_error (_listOfIntervals self) i) as [this |] eqn:Ethis;
    [| apply nth_error_None in Ethis; lia].
  assert (Hthis : printable (printed_name self this) = true).
  { rewrite List.Forall_forall in Hivs. apply Hivs. eapply nth_error_In, Ethis. }
  unfold stringVersion_body.
  rewrite (py_index_nat _ _ _ Ethis). cbn [mbind outcome_bind name_for String.eqb].
  change (if _heedQuality self then name this else py_tail (name this))
    with (printed_name self this).
  destruct (glue_token post _ Hpost Hthis) as [Hc Hs].
  set (post1 := (if (0 <? String.length post)%nat then post +:+ " " else post)
                +:+ printed_name self this) in *.
  destruct (nth_error (_listOfMovements self) i) as [thisMove |] eqn:Emove.
  - assert (Hmove : printable (printed_name self thisMove) = true).
    { rewrite List.Forall_forall in Hmvs. apply Hmvs. eapply nth_error_In, Emove. }
    cbn [mbind outcome_bind name_for String.eqb].
    change (if _heedQuality self then name thisMove else py_tail (name thisMove))
      with (printed_name self thisMove).
    eexists. split; [reflexivity |]. right.
    destruct (1 =? direction thisMove)%Z; [| destruct (-1 =? direction thisMove)%Z].
    + rewrite append_assoc.
      assert (Hp : printable ("+" +:+ printed_name self thisMove) = true).
      { unfold printable in *. apply andb_prop in Hmove as [_ Hsf].
        rewrite append_cons. cbn. exact Hsf. }
      destruct (closed_label_app post1 _ Hc Hp) as [Hc' Hs'].
      split; [exact Hc' | exact (eq_trans Hs' Hs)].
    + rewrite append_assoc.
      assert (Hp : printable ("-" +:+ printed_name self thisMove) = true).
      { unfold printable in *. apply andb_prop in Hmove as [_ Hsf].
        rewrite append_cons. cbn. exact Hsf. }
      destruct (closed_label_app post1 _ Hc Hp) as [Hc' Hs'].
      split; [exact Hc' | exact (eq_trans Hs' Hs)].
    + rewrite append_assoc.
      destruct (closed_label_app post1 _ Hc Hmove) as [Hc' Hs'].
      split; [exact Hc' | exact (eq_trans Hs' Hs)].
  - eexists. split; [reflexivity |]. right. split; assumption.
Qed.

Lemma stringVersion_loop_keeps (indices : list nat) :
  forall post : string,
    Forall (fun i => (i < List.length (_listOfIntervals self))%nat) indices ->
    label_so_far post ->
    exists label,
      foldM (stringVersion_body self "compound" (_heedQuality self)) post indices
      = Ret label /\ label_so_far label.
Proof using Hnames.
  induction indices as [| i indices IH]; intros post Hin Hpost.
  - exists post. split; [reflexivity | exact Hpost].
  - apply Forall_cons in Hin as [Hi Hin].
    destruct (stringVersion_body_keeps post i Hi Hpost) as (post' & Hrun & Hpost').
    cbn [foldM]. rewrite Hrun. cbn [mbind outcome_bind].
    apply IH; assumption.
Qed.
End Label.

(** The 2-gram of a major third C4-E4 followed by a minor third D4-F4,
    the lower voice rising a major second. *)
Definition third_to_third : Intsec.NGram :=
  let note p o := {| Music21.offset := o; Music21.quarterLength := 1;
                     Music21.nameWithOctave := p |} in
  let between lo hi nm d :=
    {| Music21.noteStart := Some lo; Music21.noteEnd := Some hi;
       Music21.name := nm; Music21.semiSimpleName := nm; Music21.direction := d;
       Music21.interval_offset := 0 |} in
  {| Intsec._heedQuality := false;
     Intsec._n := 2;
     Intsec._listOfIntervals :=
       [between (note "C4" 0) (note "E4" 0) "M3" 1%Z;
        between (note "D4" 1) (note "F4" 1) "m3" 1%Z];
     Intsec._listOfMovements :=
       [between (note "C4" 0) (note "D4" 1) "M2" 1%Z] |}.

Example third_to_third_label : Intsec.__str__ third_to_third = Ret "3 +2 3".
Proof. reflexivity. Qed.

(** C9. For an NGram object whose interval names, as printed, are not
    empty and hold no space (music21's names), [str(ngram)] returns a label
    that splitting on single spaces and joining with single spaces gives
    back, and that has no leading, no trailing and no two consecutive
    spaces. *)
Theorem ngram_label_round_trip (ng : Intsec.NGram) :
  Forall (fun iv => Intsec.printable (Intsec.printed_name ng iv) = true)
         (Intsec._listOfIntervals ng ++ Intsec._listOfMovements ng) ->
  exists label,
    Intsec.__str__ ng = Ret label /\
    py_join_space (py_split_space label) = label /\
    starts_with_space label = false /\
    ends_with_space label = false /\
    has_double_space label = false.
Proof.
  intros Hnames.
  destruct (stringVersion_loop_keeps ng Hnames
              (seq 0 (List.length (Intsec._listOfIntervals ng))) EmptyString)
    as (label & Hrun & Hlabel).
  - apply List.Forall_forall. intros i Hi. apply in_seq in Hi. lia.
  - left. reflexivity.
  - exists label. split; [exact Hrun |]. split; [apply join_split_space |].
    destruct Hlabel as [-> | [(_ & He & Hd) Hs]]; repeat split; assumption.
Qed.

Lemma ngram_label_round_trip_witness :
  exists label,
    Intsec.__str__ third_to_third = Ret label /\
    py_join_space (py_split_space label) = label /\
    starts_with_space label = false /\
    ends_with_space label = false /\
    has_double_space label = false.
Proof.
  apply (ngram_label_round_trip third_to_third).
  repeat constructor.
Defined.

(** ** [intsec.visTheseParts]: what is counted, and where *)

(** [R] relates every two neighbours of a list. *)
Definition neighbours {A : Type} (R : A -> A -> Prop) (l : list A) : Prop :=
  forall l1 a b l2, l = l1 ++ a :: b :: l2 -> R a b.

Lemma neighbours_nil {A : Type} (R : A -> A -> Prop) : neighbours R [].
Proof. intros l1 a b l2 H. destruct l1; discriminate. Qed.

Lemma neighbours_snoc {A : Type} (R : A -> A -> Prop) (l : list A) (c : A) :
  neighbours R l ->
  (forall a, last_opt l = Some a -> R a c) ->
  neighbours R (l ++ [c]).
Proof.
  intros Hl Hlast l1 a b l2 Heq.
  destruct (list_eq_nil_dec l2) as [-> | Hne].
  - replace (l1 ++ [a; b]) with ((l1 ++ [a]) ++ [b]) in Heq
      by (rewrite <- app_assoc; reflexivity).
    apply app_inj_tail in Heq as [-> ->].
    apply Hlast, last_opt_snoc.
  - destruct (exists_last Hne) as (l2' & d & ->).
    replace (l1 ++ a :: b :: l2' ++ [d]) with ((l1 ++ a :: b :: l2') ++ [d]) in Heq
      by (rewrite <- app_assoc; reflexivity).
    apply app_inj_tail in Heq as [-> _].
    eapply Hl. reflexivity.
Qed.

Lemma neighbours_app_inv {A : Type} (R : A -> A -> Prop) (l1 l2 : list A) :
  neighbours R (l1 ++ l2) -> neighbours R l1 /\ neighbours R l2.
Proof.
  intros H. split.
  - intros k1 a b k2 ->. eapply (H k1 a b (k2 ++ l2)).
    rewrite <- app_assoc. reflexivity.
  - intros k1 a b k2 ->. eapply (H (l1 ++ k1) a b k2).
    rewrite <- app_assoc. reflexivity.
Qed.

Section VisTheseParts.
Import Music21 Intsec.

Variable Interval_ : option Note -> option Note -> outcome Interval.
Variable hfn lfn : list Note.

(** What one voice does at one offset, lines 535-548 and 549-562. *)
Definition voice_step (notes : list Note) (o : Q) (mostRecent : option Note)
    (previous : list Note) : option Note * list Note * bool :=
  match getElementsByOffset notes o with
  | gebo :: _ =>
    if is_new_pitch mostRecent gebo
    then (Some gebo, append_if_note previous mostRecent, true)
    else (mostRecent, previous, false)
  | [] => (mostRecent, previous, false)
  end.

(** One turn of the loop, read off its result. *)
Lemma visTheseParts_body_inv (st st' : vis_state) :
  visTheseParts_body Interval_ hfn lfn st = Ret st' ->
  forall ml pl lu mh ph hu,
    voice_step lfn (thisOffset st) (mostRecentLow st) (previousLows st) = (ml, pl, lu) ->
    voice_step hfn (thisOffset st) (mostRecentHigh st) (previousHighs st) = (mh, ph, hu) ->
    thisOffset st' = thisOffset st + (1 # 2) /\
    mostRecentLow st' = ml /\
    mostRecentHigh st' = mh /\
    previousLows st' = (if hu && negb lu then append_if_note pl ml else pl) /\
    previousHighs st' = (if lu && negb hu then append_if_note ph mh else ph) /\
    (if lu || hu
     then exists iv, Interval_ ml mh = Ret iv /\
                     addInterval_calls st' =
                     addInterval_calls st ++
                     [{| at_offset := thisOffset st; low := ml; high := mh;
                         interval := iv |}]
     else addInterval_calls st' = addInterval_calls st).
Proof.
  intros Hbody ml pl lu mh ph hu Hl Hh.
  unfold visTheseParts_body in Hbody.
  change (match getElementsByOffset lfn (thisOffset st) with
          | [] => (mostRecentLow st, previousLows st, false)
          | lfnGEBO :: _ =>
            if is_new_pitch (mostRecentLow st) lfnGEBO
            then (Some lfnGEBO, append_if_note (previousLows st) (mostRecentLow st), true)
            else (mostRecentLow st, previousLows st, false)
          end)
    with (voice_step lfn (thisOffset st) (mostRecentLow st) (previousLows st)) in Hbody.
  rewrite Hl in Hbody.
  change (match getElementsByOffset hfn (thisOffset st) with
          | [] => (mostRecentHigh st, previousHighs st, false)
          | hfnGEBO :: _ =>
            if is_new_pitch (mostRecentHigh st) hfnGEBO
            then (Some hfnGEBO, append_if_note (previousHighs st) (mostRecentHigh st), true)
            else (mostRecentHigh st, previousHighs st, false)
          end)
    with (voice_step hfn (thisOffset st) (mostRecentHigh st) (previousHighs st)) in Hbody.
  rewrite Hh in Hbody.
  destruct (lu || hu) eqn:Eany.
  - destruct (Interval_ ml mh) as [iv | |] eqn:Eiv; try discriminate.
    cbn [mbind outcome_bind] in Hbody.
    destruct (bool_decide _ && bool_decide _) in Hbody.
    + destruct (Interval_ (last_opt _) (last_opt _)) in Hbody; try discriminate.
      cbn [mbind outcome_bind] in Hbody.
      destruct (__init__ Interval_ _ false) in Hbody; try discriminate.
      cbn [mbind outcome_bind] in Hbody. injection Hbody as <-.
      cbn. repeat split; try reflexivity. exists iv. split; reflexivity.
    + cbn [mbind outcome_bind] in Hbody. injection Hbody as <-.
      cbn. repeat split; try reflexivity. exists iv. split; reflexivity.
  - cbn [mbind outcome_bind] in Hbody. injection Hbody as <-.
    cbn. repeat split; reflexivity.
Qed.

(** A property kept by every turn holds when the loop returns. *)
Lemma visTheseParts_loop_inv (P : vis_state -> Prop) (highest : Q) :
  (forall st st', P st -> visTheseParts_body Interval_ hfn lfn st = Ret st' -> P st') ->
  forall (fuel : nat) (st st' : vis_state),
    P st -> visTheseParts_loop Interval_ hfn lfn fuel highest st = Ret st' -> P st'.
Proof.
  intros Hstep. induction fuel as [| fuel IH]; intros st st' HP Hrun;
    cbn [visTheseParts_loop] in Hrun;
    destruct (Qle_bool (thisOffset st) highest); try discriminate;
    try (injection Hrun as <-; exact HP).
  destruct (visTheseParts_body Interval_ hfn lfn st) as [st1 | |] eqn:Ebody;
    try discriminate.
  cbn [mbind outcome_bind] in Hrun.
  eapply IH; [| exact Hrun]. eapply Hstep; eassumption.
Qed.

Lemma voice_step_updated (notes : list Note) (o : Q) (m : option Note)
    (p : list Note) (m' : option Note) (p' : list Note) :
  voice_step notes o m p = (m', p', true) ->
  exists gebo, m' = Some gebo /\ In gebo notes /\ offset gebo == o /\
               is_new_pitch m gebo = true.
Proof.
  unfold voice_step. intros H.
  destruct (getElementsByOffset notes o) as [| gebo rest] eqn:E; [discriminate |].
  destruct (is_new_pitch m gebo) eqn:Enew; [| discriminate].
  injection H as <- _. exists gebo.
  assert (Hin : In gebo (getElementsByOffset notes o)) by (rewrite E; left; reflexivity).
  unfold getElementsByOffset in Hin. apply filter_In in Hin as [Hin Hoff].
  repeat split; try assumption. apply Qeq_bool_iff, Hoff.
Qed.

Lemma voice_step_same (notes : list Note) (o : Q) (m : option Note)
    (p : list Note) (m' : option Note) (p' : list Note) :
  voice_step notes o m p = (m', p', false) -> m' = m.
Proof.
  unfold voice_step. intros H.
  destruct (getElementsByOffset notes o) as [| gebo rest]; [congruence |].
  destruct (is_new_pitch m gebo); congruence.
Qed.

(** The name of the pitch of a voice, if it has sounded. *)
Definition pitch_of (n : option Note) : option string := nameWithOctave <$> n.

Lemma is_new_pitch_differs (m : option Note) (gebo : Note) :
  is_new_pitch m gebo = true -> pitch_of m <> pitch_of (Some gebo).
Proof.
  unfold is_new_pitch, pitch_of. destruct m as [m |]; cbn; [| discriminate].
  intros H Heq. injection Heq as Heq. rewrite Heq, String.eqb_refl in H. discriminate.
Qed.

(** Rows lie at offsets of the union, before the offset of the loop, in
    increasing order; the last row holds the current notes; neighbouring
    rows differ in a pitch. *)
Definition rows_ok (st : vis_state) : Prop :=
  (forall c, In c (addInterval_calls st) ->
             at_offset c < thisOffset st /\
             exists n, In n (hfn ++ lfn) /\ offset n == at_offset c) /\
  neighbours (fun a b => at_offset a < at_offset b) (addInterval_calls st) /\
  (forall a, last_opt (addInterval_calls st) = Some a ->
             low a = mostRecentLow st /\ high a = mostRecentHigh st) /\
  neighbours (fun a b => pitch_of (low a) <> pitch_of (low b) \/
                         pitch_of (high a) <> pitch_of (high b))
             (addInterval_calls st).

Lemma rows_ok_step (st st' : vis_state) :
  rows_ok st -> visTheseParts_body Interval_ hfn lfn st = Ret st' -> rows_ok st'.
Proof.
  intros (Hin & Hinc & Hlast & Hdiff) Hbody.
  destruct (voice_step lfn (thisOffset st) (mostRecentLow st) (previousLows st))
    as [[ml pl] lu] eqn:El.
  destruct (voice_step hfn (thisOffset st) (mostRecentHigh st) (previousHighs st))
    as [[mh ph] hu] eqn:Eh.
  destruct (visTheseParts_body_inv st st' Hbody _ _ _ _ _ _ El Eh)
    as (Hoff & Hml & Hmh & _ & _ & Hcalls).
  destruct (lu || hu) eqn:Eany.
  - destruct Hcalls as (iv & _ & Hcalls).
    set (c := {| at_offset := thisOffset st; low := ml; high := mh; interval := iv |}) in *.
    assert (Hunion : exists n, In n (hfn ++ lfn) /\ offset n == thisOffset st).
    { destruct lu.
      - destruct (voice_step_updated _ _ _ _ _ _ El) as (g & _ & Hg & Ho & _).
        exists g. split; [apply in_or_app; right; exact Hg | exact Ho].
      - cbn in Eany. subst hu.
        destruct (voice_step_updated _ _ _ _ _ _ Eh) as (g & _ & Hg & Ho & _).
        exists g. split; [apply in_or_app; left; exact Hg | exact Ho]. }
    unfold rows_ok. rewrite Hcalls, Hoff, Hml, Hmh. repeat split.
    + apply in_app_or in H as [H | [<- | []]].
      * destruct (Hin _ H) as [Hlt _]. lra.
      * cbn. lra.
    + apply in_app_or in H as [H | [<- | []]].
      * apply Hin, H.
      * exact Hunion.
    + apply neighbours_snoc; [exact Hinc |].
      intros a Ha. cbn. apply Hin. unfold last_opt in Ha.
      apply in_rev. destruct (rev (addInterval_calls st)); [discriminate |].
      injection Ha as ->. left. reflexivity.
    + rewrite last_opt_snoc in H. injection H as <-. reflexivity.
    + rewrite last_opt_snoc in H. injection H as <-. reflexivity.
    + apply neighbours_snoc; [exact Hdiff |].
      intros a Ha. destruct (Hlast a Ha) as [Hla Hha]. cbn. rewrite Hla, Hha.
      destruct lu.
      * destruct (voice_step_updated _ _ _ _ _ _ El) as (g & -> & _ & _ & Hnew).
        left. apply is_new_pitch_differs, Hnew.
      * cbn in Eany. subst hu.
        destruct (voice_step_updated _ _ _ _ _ _ Eh) as (g & -> & _ & _ & Hnew).
        right. apply is_new_pitch_differs, Hnew.
  - apply orb_false_elim in Eany as [-> ->].
    apply voice_step_same in El, Eh. subst ml mh.
    unfold rows_ok. rewrite Hcalls, Hoff, Hml, Hmh. repeat split; try assumption.
    + destruct (Hin _ H) as [Hlt _]. lra.
    + apply Hin, H.
    + apply Hlast, H.
    + apply Hlast, H.
Qed.

Lemma visTheseParts_rows_ok (st : vis_state) :
  visTheseParts Interval_ hfn lfn = Ret st -> rows_ok st.
Proof.
  unfold visTheseParts. apply visTheseParts_loop_inv.
  - apply rows_ok_step.
  - repeat split; cbn; try contradiction; try apply neighbours_nil; discriminate.
Qed.
End VisTheseParts.

(** ** [intsec.visTheseParts] on time series of the half-beat grid *)

Lemma py_max_ge (a b : Q) : a <= py_max a b /\ b <= py_max a b.
Proof.
  unfold py_max. destruct (Qltb a b) eqn:E.
  - apply Qltb_lt in E. split; lra.
  - apply Qltb_ge in E. split; lra.
Qed.

Lemma fold_py_max_ge (l : list Q) :
  forall a : Q, a <= fold_left py_max l a /\
                forall x, In x l -> x <= fold_left py_max l a.
Proof.
  induction l as [| y l IH]; intros a; cbn [fold_left].
  - split; [lra | intros x []].
  - destruct (IH (py_max a y)) as [Ha Hl].
    destruct (py_max_ge a y) as [H1 H2].
    split; [lra |].
    intros x [<- | Hx]; [lra | apply Hl, Hx].
Qed.

Lemma highestOffset_ge (notes : list Music21.Note) (n : Music21.Note) :
  In n notes -> Music21.offset n <= Intsec.highestOffset notes.
Proof.
  destruct notes as [| m rest]; [intros [] |].
  cbn [Intsec.highestOffset].
  destruct (fold_py_max_ge (map Music21.offset rest) (Music21.offset m)) as [Hm Hrest].
  intros [<- | Hn]; [exact Hm |].
  apply Hrest, in_map, Hn.
Qed.

(** A point of the half-beat grid: a non-negative multiple of 0.5. *)
Definition half_beat (k : nat) : Q := inject_Z (Z.of_nat k) * (1 # 2).

Definition on_grid (n : Music21.Note) : Prop :=
  exists k : nat, Music21.offset n == half_beat k.

Lemma half_beat_succ (k : nat) : half_beat (S k) == half_beat k + (1 # 2).
Proof.
  unfold half_beat. rewrite Nat2Z.inj_succ. unfold Z.succ.
  rewrite inject_Z_plus. change (inject_Z 1) with 1. lra.
Qed.

Lemma half_beat_lt (j k : nat) : half_beat j < half_beat k -> (j < k)%nat.
Proof.
  unfold half_beat. intros H.
  assert (H' : inject_Z (Z.of_nat j) < inject_Z (Z.of_nat k)) by lra.
  rewrite <- Zlt_Qlt in H'. lia.
Qed.

Lemma half_beat_le (j k : nat) : (j <= k)%nat -> half_beat j <= half_beat k.
Proof.
  unfold half_beat. intros H.
  assert (H' : inject_Z (Z.of_nat j) <= inject_Z (Z.of_nat k))
    by (rewrite <- Zle_Qle; lia).
  lra.
Qed.

(** Between two neighbouring grid points there is no grid point. *)
Lemma grid_next (n : Music21.Note) (k : nat) (o : Q) :
  on_grid n -> o == half_beat k -> o < Music21.offset n ->
  o + (1 # 2) <= Music21.offset n.
Proof.
  intros [j Hj] Ho Hlt.
  assert (Hjk : (k < j)%nat) by (apply half_beat_lt; lra).
  pose proof (half_beat_le (S k) j Hjk) as Hle.
  rewrite half_beat_succ in Hle. lra.
Qed.

Lemma grid_prev (n : Music21.Note) (k : nat) (o : Q) :
  on_grid n -> o == half_beat k -> Music21.offset n < o + (1 # 2) ->
  Music21.offset n <= o.
Proof.
  intros [j Hj] Ho Hlt.
  assert (Hjk : (j < S k)%nat) by (apply half_beat_lt; rewrite half_beat_succ; lra).
  pose proof (half_beat_le j k ltac:(lia)) as Hle. lra.
Qed.

Lemma last_opt_In {A : Type} (l : list A) (x : A) : last_opt l = Some x -> In x l.
Proof.
  unfold last_opt. intros H. apply in_rev.
  destruct (rev l); [discriminate |]. injection H as ->. left. reflexivity.
Qed.

Lemma last_opt_nil {A : Type} (l : list A) : last_opt l = None -> l = [].
Proof.
  unfold last_opt. intros H. destruct (rev l) eqn:E; [| discriminate].
  apply (f_equal (@rev A)) in E. rewrite rev_involutive in E. exact E.
Qed.

(** A voice as the spec's TimeSeries: strictly increasing offsets, no two
    consecutive equal tokens. *)
Definition time_series (notes : list Music21.Note) : Prop :=
  StronglySorted (fun a b => Music21.offset a < Music21.offset b) notes /\
  neighbours (fun a b => Music21.nameWithOctave a <> Music21.nameWithOctave b) notes.

Section OneVoice.
Import Music21 Intsec.

Variable notes : list Note.
Hypothesis Hseries : time_series notes.
Hypothesis Hgrid : Forall on_grid notes.

(** Where a voice stands when the loop is at offset [o]: the notes before
    [o] have been seen, the most recent one is the last of them. *)
Definition voice_at (o : Q) (mostRecent : option Note) : Prop :=
  exists seen rest,
    notes = seen ++ rest /\
    Forall (fun n => offset n < o) seen /\
    Forall (fun n => o <= offset n) rest /\
    mostRecent = last_opt seen.

Lemma voice_at_seen (o : Q) (m : option Note) (n : Note) :
  voice_at o m -> In n notes -> offset n < o ->
  exists x, m = Some x /\ In x notes.
Proof.
  intros (seen & rest & Hsplit & Hseen & Hrest & ->) Hn Hlt.
  destruct (last_opt seen) as [x |] eqn:El.
  - exists x. split; [reflexivity |].
    rewrite Hsplit. apply in_or_app. left. apply last_opt_In, El.
  - apply last_opt_nil in El. subst seen. cbn in Hsplit. subst rest.
    rewrite List.Forall_forall in Hrest. specialize (Hrest n Hn). lra.
Qed.

Lemma voice_at_recent_In (o : Q) (m : option Note) (x : Note) :
  voice_at o m -> m = Some x -> In x notes.
Proof.
  intros (seen & rest & Hsplit & _ & _ & ->) Hx.
  rewrite Hsplit. apply in_or_app. left. apply last_opt_In, Hx.
Qed.

Lemma filter_none (o : Q) (l : list Note) :
  Forall (fun n => ~ offset n == o) l ->
  List.filter (fun n => Qeq_bool (offset n) o) l = [].
Proof.
  induction 1 as [| n l Hn _ IH]; [reflexivity |].
  cbn [List.filter]. destruct (Qeq_bool (offset n) o) eqn:E; [| exact IH].
  apply Qeq_bool_iff in E. contradiction.
Qed.

(** One offset of the loop, for a voice that is a time series on the grid:
    the voice is updated exactly when it has a note at this offset. *)
Lemma voice_step_spec (k : nat) (o : Q) (m : option Note) (p : list Note) :
  o == half_beat k -> voice_at o m -> Forall (fun x => In x notes) p ->
  exists m' p' u,
    voice_step notes o m p = (m', p', u) /\
    voice_at (o + (1 # 2)) m' /\
    Forall (fun x => In x notes) p' /\
    (forall n, In n notes -> offset n == o -> u = true).
Proof using Hseries Hgrid.
  intros Ho (seen & rest & Hsplit & Hseen & Hrest & ->) Hp.
  destruct Hseries as [Hsorted Hdiff].
  assert (Hseen_none : Forall (fun n => ~ offset n == o) seen).
  { eapply List.Forall_impl; [| exact Hseen]. cbn. intros n Hn. lra. }
  assert (Hgrid_rest : Forall on_grid rest).
  { rewrite Hsplit in Hgrid. apply Forall_app in Hgrid as [_ H]. exact H. }
  assert (Hsorted_rest :
            StronglySorted (fun a b => offset a < offset b) rest).
  { rewrite Hsplit in Hsorted. clear - Hsorted.
    induction seen as [| s seen IH]; [exact Hsorted |].
    apply IH. inversion Hsorted; assumption. }
  assert (Hf : List.filter (fun n => Qeq_bool (offset n) o) notes =
               List.filter (fun n => Qeq_bool (offset n) o) rest).
  { rewrite Hsplit, List.filter_app, (filter_none o seen Hseen_none). reflexivity. }
  unfold voice_step, getElementsByOffset. rewrite Hf. clear Hf.
  destruct rest as [| x rest'].
  - cbn [List.filter]. eexists _, _, _. split; [reflexivity |]. repeat split.
    + exists seen, []. repeat split; try assumption; try constructor.
      eapply List.Forall_impl; [| exact Hseen]. cbn. intros n Hn. lra.
    + exact Hp.
    + intros n Hn Hno. rewrite Hsplit, app_nil_r in Hn.
      rewrite List.Forall_forall in Hseen. specialize (Hseen n Hn). lra.
  - apply Forall_cons in Hrest as [Hx Hrest].
    apply Forall_cons in Hgrid_rest as [Hgx Hgrest].
    assert (Hafter : Forall (fun n => offset x < offset n) rest').
    { inversion Hsorted_rest; assumption. }
    cbn [List.filter]. destruct (Qeq_bool (offset x) o) eqn:Ex.
    + apply Qeq_bool_iff in Ex.
      assert (Hnew : is_new_pitch (last_opt seen) x = true).
      { unfold is_new_pitch. destruct (last_opt seen) as [a |] eqn:El; [| reflexivity].
        apply negb_true_iff, String.eqb_neq. intros Heq.
        assert (Hsn : exists s', seen = s' ++ [a]).
        { unfold last_opt in El. destruct (rev seen) as [| a' r] eqn:Er; [discriminate |].
          injection El as ->. exists (rev r).
          apply (f_equal (@rev Note)) in Er. rewrite rev_involutive in Er.
          exact Er. }
        destruct Hsn as [s' ->].
        apply (Hdiff s' a x rest'); [| symmetry; exact Heq].
        rewrite Hsplit, <- app_assoc. reflexivity. }
      rewrite Hnew. eexists _, _, _. split; [reflexivity |]. repeat split.
      * exists (seen ++ [x]), rest'. repeat split.
        -- rewrite Hsplit, <- app_assoc. reflexivity.
        -- apply Forall_app. split.
           ++ eapply List.Forall_impl; [| exact Hseen]. cbn. intros n Hn. lra.
           ++ constructor; [lra | constructor].
        -- rewrite List.Forall_forall in *. intros n Hn.
           apply (grid_next n k o); [apply Hgrest, Hn | exact Ho |].
           specialize (Hafter n Hn). lra.
        -- symmetry. apply last_opt_snoc.
      * unfold append_if_note. destruct (last_opt seen) as [a |] eqn:El; [| exact Hp].
        apply Forall_app. split; [exact Hp |]. constructor; [| constructor].
        rewrite Hsplit. apply in_or_app. left. apply last_opt_In, El.
    + assert (Hxo : o < offset x).
      { apply Qeq_bool_false_neq in Ex.
        destruct (Qlt_le_dec o (offset x)) as [H | H]; [exact H |].
        exfalso. apply Ex. lra. }
      rewrite (filter_none o rest').
      2:{ rewrite List.Forall_forall in *. intros n Hn.
          specialize (Hafter n Hn). lra. }
      eexists _, _, _. split; [reflexivity |]. repeat split.
      * exists seen, (x :: rest'). repeat split.
        -- exact Hsplit.
        -- eapply List.Forall_impl; [| exact Hseen]. cbn. intros n Hn. lra.
        -- constructor.
           ++ apply (grid_next x k o); assumption.
           ++ rewrite List.Forall_forall in *. intros n Hn.
              apply (grid_next n k o); [apply Hgrest, Hn | exact Ho |].
              specialize (Hafter n Hn). lra.
      * exact Hp.
      * intros n Hn Hno. exfalso. rewrite Hsplit in Hn.
        apply in_app_or in Hn as [Hn | [<- | Hn]].
        -- rewrite List.Forall_forall in Hseen. specialize (Hseen n Hn). lra.
        -- lra.
        -- rewrite List.Forall_forall in Hafter. specialize (Hafter n Hn). lra.
Qed.
End OneVoice.

Lemma half_beat_nonneg (k : nat) : 0 <= half_beat k.
Proof.
  unfold half_beat.
  assert (H : 0 <= inject_Z (Z.of_nat k)).
  { change 0 with (inject_Z 0). rewrite <- Zle_Qle. lia. }
  lra.
Qed.

Lemma half_beat_count (k : nat) (highest : Q) :
  half_beat k <= highest -> (k <= Z.to_nat (Qfloor (2 * highest)))%nat.
Proof.
  unfold half_beat. intros H.
  assert (H' : inject_Z (Z.of_nat k) <= 2 * highest) by lra.
  apply Qfloor_resp_le in H'. rewrite Qfloor_Z in H'. lia.
Qed.

Lemma last_opt_nonempty {A : Type} (l : list A) :
  (1 <= List.length l)%nat -> exists x, last_opt l = Some x /\ In x l.
Proof.
  intros H. destruct (last_opt l) as [x |] eqn:E.
  - exists x. split; [reflexivity | apply last_opt_In, E].
  - apply last_opt_nil in E. subst l. cbn in H. lia.
Qed.

Lemma time_series_head (notes : list Music21.Note) (a n : Music21.Note) :
  time_series notes -> head notes = Some a -> In n notes ->
  Music21.offset a <= Music21.offset n.
Proof.
  intros [Hsorted _] Ha Hn. destruct notes as [| x rest]; [discriminate |].
  injection Ha as ->. destruct Hn as [<- | Hn]; [lra |].
  inversion Hsorted as [| ? ? _ Hall]; subst.
  rewrite List.Forall_forall in Hall. specialize (Hall n Hn). lra.
Qed.

Section OnTheGrid.
Import Music21 Intsec.

Variable Interval_ : option Note -> option Note -> outcome Interval.
Variable hfn lfn : list Note.

Hypothesis Hhigh : time_series hfn.
Hypothesis Hlow : time_series lfn.
Hypothesis Hgrid : Forall on_grid (hfn ++ lfn).
Hypothesis Hstart :
  exists a b, head hfn = Some a /\ head lfn = Some b /\ offset a == offset b.
Hypothesis Hmusic21 :
  forall a b, In a (hfn ++ lfn) -> In b (hfn ++ lfn) ->
    exists iv, Interval_ (Some a) (Some b) = Ret iv /\
               noteStart iv = Some a /\ noteEnd iv = Some b.

Lemma lower_note_of_parts (iv : Interval) (a b : Note) :
  noteStart iv = Some a -> noteEnd iv = Some b ->
  In a (hfn ++ lfn) -> In b (hfn ++ lfn) ->
  exists x, lower_note iv = Some x /\ In x (hfn ++ lfn).
Proof.
  intros Hs He Ha Hb. unfold lower_note.
  destruct (1 =? direction iv)%Z; eauto.
Qed.

(** With notes of the parts in every variable, a turn of the loop returns. *)
Lemma visTheseParts_body_returns (st : vis_state) ml pl lu mh ph hu :
  voice_step lfn (thisOffset st) (mostRecentLow st) (previousLows st) = (ml, pl, lu) ->
  voice_step hfn (thisOffset st) (mostRecentHigh st) (previousHighs st) = (mh, ph, hu) ->
  (lu || hu = true ->
   exists a b, ml = Some a /\ mh = Some b /\ In a (hfn ++ lfn) /\ In b (hfn ++ lfn)) ->
  Forall (fun x => In x (hfn ++ lfn))
         (if hu && negb lu then append_if_note pl ml else pl) ->
  Forall (fun x => In x (hfn ++ lfn))
         (if lu && negb hu then append_if_note ph mh else ph) ->
  exists st', visTheseParts_body Interval_ hfn lfn st = Ret st'.
Proof.
  intros Hl Hh Hnotes Hpl Hph.
  unfold visTheseParts_body.
  change (match getElementsByOffset lfn (thisOffset st) with
          | [] => (mostRecentLow st, previousLows st, false)
          | lfnGEBO :: _ =>
            if is_new_pitch (mostRecentLow st) lfnGEBO
            then (Some lfnGEBO, append_if_note (previousLows st) (mostRecentLow st), true)
            else (mostRecentLow st, previousLows st, false)
          end)
    with (voice_step lfn (thisOffset st) (mostRecentLow st) (previousLows st)).
  rewrite Hl.
  change (match getElementsByOffset hfn (thisOffset st) with
          | [] => (mostRecentHigh st, previousHighs st, false)
          | hfnGEBO :: _ =>
            if is_new_pitch (mostRecentHigh st) hfnGEBO
            then (Some hfnGEBO, append_if_note (previousHighs st) (mostRecentHigh st), true)
            else (mostRecentHigh st, previousHighs st, false)
          end)
    with (voice_step hfn (thisOffset st) (mostRecentHigh st) (previousHighs st)).
  rewrite Hh.
  destruct (lu || hu) eqn:Eany.
  - destruct (Hnotes eq_refl) as (a & b & -> & -> & Ha & Hb).
    destruct (Hmusic21 a b Ha Hb) as (iv & -> & Hivs & Hive).
    cbn [mbind outcome_bind].
    destruct (bool_decide _ && bool_decide _) eqn:Elen.
    + apply andb_true_iff in Elen as [Hlen1 Hlen2].
      apply bool_decide_eq_true in Hlen1, Hlen2.
      destruct (last_opt_nonempty _ Hlen1) as (x & -> & Hx).
      destruct (last_opt_nonempty _ Hlen2) as (y & -> & Hy).
      rewrite List.Forall_forall in Hpl, Hph.
      destruct (Hmusic21 x y (Hpl x Hx) (Hph y Hy)) as (prev & -> & Hps & Hpe).
      cbn [mbind outcome_bind].
      destruct (lower_note_of_parts prev x y Hps Hpe (Hpl x Hx) (Hph y Hy))
        as (u & Hu & Huin).
      destruct (lower_note_of_parts iv a b Hivs Hive Ha Hb) as (v & Hv & Hvin).
      destruct (Hmusic21 u v Huin Hvin) as (move & Hmove & _).
      unfold __init__, _calculateMovements.
      cbn [forallb]. rewrite Hps, Hpe, Hivs, Hive.
      rewrite !bool_decide_eq_true_2 by eauto.
      cbn -[lower_note py_index Z.of_nat Z.add].
      change (Z.of_nat 0 + 1)%Z with (Z.of_nat 1).
      rewrite (py_index_nat [prev; iv] 0 prev eq_refl).
      rewrite (py_index_nat [prev; iv] 1 iv eq_refl).
      cbn [mbind outcome_bind]. rewrite Hu, Hv, Hmove. cbn. eauto.
    + cbn [mbind outcome_bind]. eauto.
  - cbn [mbind outcome_bind]. eauto.
Qed.

(** The state after [k] turns of the loop. *)
Definition aligned (k : nat) (st : vis_state) : Prop :=
  thisOffset st == half_beat k /\
  voice_at lfn (thisOffset st) (mostRecentLow st) /\
  voice_at hfn (thisOffset st) (mostRecentHigh st) /\
  Forall (fun x => In x lfn) (previousLows st) /\
  Forall (fun x => In x hfn) (previousHighs st) /\
  forall n, In n (hfn ++ lfn) -> offset n < thisOffset st ->
            exists c, In c (addInterval_calls st) /\ at_offset c == offset n.

Lemma begun (o : Q) (g : Note) :
  In g (hfn ++ lfn) -> offset g == o ->
  (exists a, In a hfn /\ offset a <= o) /\ (exists b, In b lfn /\ offset b <= o).
Proof.
  intros Hg Ho. destruct Hstart as (a & b & Ha & Hb & Hab).
  assert (Hain : In a hfn) by (destruct hfn; [discriminate | injection Ha as ->; left; reflexivity]).
  assert (Hbin : In b lfn) by (destruct lfn; [discriminate | injection Hb as ->; left; reflexivity]).
  apply in_app_or in Hg as [Hg | Hg].
  - pose proof (time_series_head hfn a g Hhigh Ha Hg).
    split; [exists a | exists b]; split; try assumption; lra.
  - pose proof (time_series_head lfn b g Hlow Hb Hg).
    split; [exists a | exists b]; split; try assumption; lra.
Qed.

Lemma aligned_step (k : nat) (st : vis_state) :
  aligned k st ->
  exists st', visTheseParts_body Interval_ hfn lfn st = Ret st' /\ aligned (S k) st'.
Proof.
  intros (Ho & Hvl & Hvh & Hpl & Hph & Hrows).
  pose proof Hgrid as Hg. apply Forall_app in Hg as [Hgh Hgl].
  destruct (voice_step_spec lfn Hlow Hgl k _ _ _ Ho Hvl Hpl)
    as (ml & pl & lu & El & Hvl' & Hpl' & Hlu).
  destruct (voice_step_spec hfn Hhigh Hgh k _ _ _ Ho Hvh Hph)
    as (mh & ph & hu & Eh & Hvh' & Hph' & Hhu).
  assert (Hml : forall x, ml = Some x -> In x lfn)
    by (intros x; apply (voice_at_recent_In lfn _ _ _ Hvl')).
  assert (Hmh : forall x, mh = Some x -> In x hfn)
    by (intros x; apply (voice_at_recent_In hfn _ _ _ Hvh')).
  assert (Hboth : lu || hu = true ->
                  exists a b, ml = Some a /\ mh = Some b /\
                              In a (hfn ++ lfn) /\ In b (hfn ++ lfn)).
  { intros Hany.
    assert (Hg : exists g, In g (hfn ++ lfn) /\ offset g == thisOffset st).
    { destruct lu.
      - destruct (voice_step_updated _ _ _ _ _ _ El) as (g & _ & Hg & Hgo & _).
        exists g. split; [apply in_or_app; right; exact Hg | exact Hgo].
      - cbn in Hany. subst hu.
        destruct (voice_step_updated _ _ _ _ _ _ Eh) as (g & _ & Hg & Hgo & _).
        exists g. split; [apply in_or_app; left; exact Hg | exact Hgo]. }
    destruct Hg as (g & Hg & Hgo).
    destruct (begun _ g Hg Hgo) as [(a & Ha & Hao) (b & Hb & Hbo)].
    destruct (voice_at_seen lfn _ _ b Hvl' Hb ltac:(lra)) as (x & -> & Hx).
    destruct (voice_at_seen hfn _ _ a Hvh' Ha ltac:(lra)) as (y & -> & Hy).
    exists x, y. repeat split; apply in_or_app; [right | left]; assumption. }
  assert (Hpl2 : Forall (fun x => In x lfn)
                        (if hu && negb lu then append_if_note pl ml else pl)).
  { destruct (hu && negb lu); [| exact Hpl'].
    unfold append_if_note. destruct ml as [x |]; [| exact Hpl'].
    apply Forall_app. split; [exact Hpl' |]. constructor; [| constructor].
    apply Hml. reflexivity. }
  assert (Hph2 : Forall (fun x => In x hfn)
                        (if lu && negb hu then append_if_note ph mh else ph)).
  { destruct (lu && negb hu); [| exact Hph'].
    unfold append_if_note. destruct mh as [x |]; [| exact Hph'].
    apply Forall_app. split; [exact Hph' |]. constructor; [| constructor].
    apply Hmh. reflexivity. }
  destruct (visTheseParts_body_returns st ml pl lu mh ph hu El Eh Hboth)
    as [st' Hbody].
  { eapply List.Forall_impl; [| exact Hpl2]. cbn. intros x Hx.
    apply in_or_app. right. exact Hx. }
  { eapply List.Forall_impl; [| exact Hph2]. cbn. intros x Hx.
    apply in_or_app. left. exact Hx. }
  exists st'. split; [exact Hbody |].
  destruct (visTheseParts_body_inv Interval_ hfn lfn st st' Hbody _ _ _ _ _ _ El Eh)
    as (Hoff & Hml' & Hmh' & Hpl3 & Hph3 & Hcalls).
  unfold aligned. rewrite Hoff, Hml', Hmh', Hpl3, Hph3.
  repeat split; try assumption.
  - rewrite half_beat_succ. lra.
  - intros n Hn Hlt.
    assert (Hon : on_grid n) by (rewrite List.Forall_forall in Hgrid; apply Hgrid, Hn).
    pose proof (grid_prev n k _ Hon Ho Hlt) as Hle.
    destruct (Qlt_le_dec (offset n) (thisOffset st)) as [Hbefore | Hnow].
    + destruct (Hrows n Hn Hbefore) as (c & Hc & Hco).
      exists c. split; [| exact Hco].
      destruct (lu || hu).
      * destruct Hcalls as (iv & _ & ->). apply in_or_app. left. exact Hc.
      * rewrite Hcalls. exact Hc.
    + assert (Heq : offset n == thisOffset st) by lra.
      assert (Hany : lu || hu = true).
      { apply in_app_or in Hn as [Hn | Hn].
        - rewrite (Hhu n Hn Heq). apply orb_true_r.
        - rewrite (Hlu n Hn Heq). reflexivity. }
      rewrite Hany in Hcalls. destruct Hcalls as (iv & _ & ->).
      eexists. split; [apply in_or_app; right; left; reflexivity |].
      cbn. lra.
Qed.

(** The loop returns, having run past the highest offset. *)
Lemma visTheseParts_loop_returns (highest : Q) :
  forall (fuel k : nat) (st : vis_state),
    aligned k st ->
    (Z.to_nat (Qfloor (2 * highest)) < k + fuel)%nat ->
    exists k' st',
      visTheseParts_loop Interval_ hfn lfn fuel highest st = Ret st' /\
      aligned k' st' /\ highest < thisOffset st'.
Proof.
  induction fuel as [| fuel IH]; intros k st Hst Hfuel;
    cbn [visTheseParts_loop];
    destruct (Qle_bool (thisOffset st) highest) eqn:E.
  - apply Qle_bool_iff in E. destruct Hst as [Ho _].
    pose proof (half_beat_count k highest ltac:(lra)). lia.
  - exists k, st. split; [reflexivity |]. split; [exact Hst |].
    destruct (Qlt_le_dec highest (thisOffset st)) as [H | H]; [exact H |].
    apply Qle_bool_iff in H. congruence.
  - destruct (aligned_step k st Hst) as (st1 & -> & Hst1).
    cbn [mbind outcome_bind]. apply (IH (S k)); [exact Hst1 | lia].
  - exists k, st. split; [reflexivity |]. split; [exact Hst |].
    destruct (Qlt_le_dec highest (thisOffset st)) as [H | H]; [exact H |].
    apply Qle_bool_iff in H. congruence.
Qed.

Lemma aligned_start :
  aligned 0 {| thisOffset := 0; mostRecentHigh := None; mostRecentLow := None;
               previousHighs := []; previousLows := [];
               addInterval_calls := []; addNGram_calls := [] |}.
Proof.
  pose proof Hgrid as Hg. apply Forall_app in Hg as [Hgh Hgl].
  assert (Hnonneg : forall notes, Forall on_grid notes ->
                                  Forall (fun n => 0 <= offset n) notes).
  { intros notes H. eapply List.Forall_impl; [| exact H]. cbn.
    intros n [j Hj]. pose proof (half_beat_nonneg j). lra. }
  unfold aligned. cbn. repeat split; try constructor.
  - exists [], lfn. repeat split; try constructor. apply Hnonneg, Hgl.
  - exists [], hfn. repeat split; try constructor. apply Hnonneg, Hgh.
  - intros n Hn Hlt. exfalso.
    pose proof (Hnonneg _ Hgrid) as H. rewrite List.Forall_forall in H.
    specialize (H n Hn). lra.
Qed.

(** On the grid, [visTheseParts] returns and has a row at every offset of
    a note of either part. *)
Lemma visTheseParts_complete :
  exists st, visTheseParts Interval_ hfn lfn = Ret st /\
             forall n, In n (hfn ++ lfn) ->
                       exists c, In c (addInterval_calls st) /\
                                 at_offset c == offset n.
Proof.
  unfold visTheseParts.
  set (highest := py_max (highestOffset hfn) (highestOffset lfn)).
  destruct (visTheseParts_loop_returns highest (vis_fuel highest) 0 _ aligned_start)
    as (k' & st' & Hrun & Hst' & Hpast).
  { unfold vis_fuel. lia. }
  exists st'. split; [exact Hrun |].
  intros n Hn. destruct Hst' as (_ & _ & _ & _ & _ & Hrows).
  apply Hrows; [exact Hn |].
  destruct (py_max_ge (highestOffset hfn) (highestOffset lfn)) as [H1 H2].
  fold highest in H1, H2.
  apply in_app_or in Hn as [Hn | Hn].
  - pose proof (highestOffset_ge hfn n Hn). lra.
  - pose proof (highestOffset_ge lfn n Hn). lra.
Qed.
End OnTheGrid.

(** ** [analytic_engine.vis_these_parts]: what is recorded *)

(** When [vis_these_parts] returns, its loop has returned that state. *)
Lemma vis_these_parts_returns
    (Interval_ : option Music21.Note -> option Music21.Note -> outcome Music21.Interval)
    (Interval_eq : Music21.Interval -> Music21.Interval -> bool)
    (NGram : Type)
    (NGram_ : list AnalyticEngine.moment -> bool -> string -> outcome NGram)
    (the_settings : AnalyticEngine.VIS_Settings)
    (higher_part lower_part : list Music21.GeneralNote)
    (st : AnalyticEngine.engine_state NGram) :
  AnalyticEngine.vis_these_parts Interval_ Interval_eq NGram NGram_ the_settings
    higher_part lower_part = Ret st ->
  AnalyticEngine.vis_these_parts_loop Interval_ Interval_eq NGram NGram_ the_settings
    higher_part lower_part (List.length lower_part + List.length higher_part)
    {| AnalyticEngine.current_lower_index := 0;
       AnalyticEngine.current_higher_index := 0;
       AnalyticEngine.current_offset := None;
       AnalyticEngine.interval_history := [];
       AnalyticEngine.add_interval_calls := [];
       AnalyticEngine.add_ngram_calls := [] |} = Ret st.
Proof.
  unfold AnalyticEngine.vis_these_parts.
  destruct (AnalyticEngine.vis_these_parts_loop _ _ _ _ _ _ _ _ _) as [st' | e |];
    cbn [mbind outcome_bind]; try discriminate.
  destruct (_ || _); [| discriminate]. intros H. injection H as ->. reflexivity.
Qed.

Section EngineInvariants.
Import Music21 AnalyticEngine.

Variable Interval_ : option Note -> option Note -> outcome Interval.
Variable Interval_eq : Interval -> Interval -> bool.
Variable NGram : Type.
Variable NGram_ : list moment -> bool -> string -> outcome NGram.
Variable the_settings : VIS_Settings.
Variable higher_part lower_part : list GeneralNote.

(** The test of lines 471-476 that keeps an interval out of the record: it
    equals the previous one and starts from a note of the same name. *)
Definition repeats (this_interval previous : Interval) : bool :=
  Interval_eq this_interval previous &&
  match noteStart this_interval, noteStart previous with
  | Some this_start, Some previous_start =>
    String.eqb (nameWithOctave this_start) (nameWithOctave previous_start)
  | _, _ => false
  end.

(** Two neighbours of the history, the first recorded before the second. *)
Definition fresh (previous this : moment) : Prop :=
  match previous, this with
  | MInterval p, MInterval t => repeats t p = false
  | _, _ => True
  end.

Lemma same_as_previous_false (this_interval : Interval) (history : list moment)
    (previous : moment) :
  same_as_previous Interval_eq this_interval history = Ret false ->
  last_opt history = Some previous ->
  fresh previous (MInterval this_interval).
Proof.
  unfold same_as_previous, fresh, repeats. intros H Hlast. rewrite Hlast in H.
  destruct previous as [| p]; [exact I |].
  destruct (Interval_eq this_interval p); [| reflexivity].
  destruct (noteStart this_interval), (noteStart p); try discriminate.
  injection H as ->. reflexivity.
Qed.

(** What "Process this moment for intervals" does to the history. *)
Lemma process_intervals_inv (lower higher : GeneralNote) (st : engine_state NGram)
    (contin : bool) (history : list moment) (intervals : list Interval)
    (offset_now : option Q) :
  process_intervals Interval_ Interval_eq NGram lower higher st
  = Ret (contin, history, intervals, offset_now) ->
  (contin = false /\ history = interval_history st) \/
  (contin = false /\ history = interval_history st ++ [MRest]) \/
  (exists this_interval,
     contin = true /\
     history = interval_history st ++ [MInterval this_interval] /\
     same_as_previous Interval_eq this_interval (interval_history st) = Ret false).
Proof.
  unfold process_intervals. intros H.
  destruct higher as [h | ? ?], lower as [l | ? ?];
    try (injection H as <- <- _ _; right; left; split; reflexivity).
  destruct (Interval_ (Some l) (Some h)) as [iv | |]; try discriminate.
  cbn [mbind outcome_bind] in H.
  destruct (same_as_previous Interval_eq _ (interval_history st))
    as [[|] | |] eqn:Esame; try discriminate; cbn [mbind outcome_bind] in H.
  - injection H as <- <- _ _. left. split; reflexivity.
  - injection H as <- <- _ _. right. right. eexists. repeat split. exact Esame.
Qed.

(** The moments gathered for an n-gram: those at the indices, none a rest. *)
Lemma gather_inv (history : list moment) (indices : list Z) :
  forall (acc list_of_intervals : list moment),
    gather history indices acc = Ret (Some list_of_intervals) ->
    exists picked,
      list_of_intervals = acc ++ picked /\
      ~ In MRest picked /\
      Forall2 (fun i m => py_index history i = Ret m) indices picked.
Proof.
  induction indices as [| i indices IH]; intros acc l H; cbn [gather] in H.
  - injection H as <-. exists []. rewrite app_nil_r.
    repeat split; [intros [] | constructor].
  - destruct (py_index history i) as [m | |] eqn:Ei; try discriminate.
    cbn [mbind outcome_bind] in H.
    destruct m as [| iv]; [discriminate |].
    destruct (IH _ _ H) as (picked & -> & Hnorest & Hall).
    exists (MInterval iv :: picked). rewrite <- app_assoc. repeat split.
    + intros [Hm | Hm]; [discriminate | exact (Hnorest Hm)].
    + constructor; assumption.
Qed.

Lemma py_index_from_end {A : Type} (l : list A) (n : nat) (k : nat) (x : A) :
  (n <= List.length l)%nat -> (k < n)%nat ->
  py_index l (- Z.of_nat n + Z.of_nat k) = Ret x ->
  nth_error l (List.length l - n + k) = Some x.
Proof.
  intros Hn Hk. unfold py_index.
  destruct (Z.ltb_spec (- Z.of_nat n + Z.of_nat k) 0); [| lia].
  destruct (_ && _)%bool; [| discriminate].
  replace (Z.to_nat (Z.of_nat (List.length l) + (- Z.of_nat n + Z.of_nat k)))
    with (List.length l - n + k)%nat by lia.
  destruct (nth_error l (List.length l - n + k)); [| discriminate].
  intros Hx. injection Hx as ->. reflexivity.
Qed.

Lemma Forall2_at {A B : Type} (R : A -> B -> Prop) (l1 : list A) (l2 : list B) :
  Forall2 R l1 l2 ->
  forall (k : nat) (a : A) (b : B),
    nth_error l1 k = Some a -> nth_error l2 k = Some b -> R a b.
Proof.
  induction 1 as [| x y l1 l2 Hxy _ IH]; intros [| k] a b Ha Hb;
    try discriminate.
  - cbn in Ha, Hb. congruence.
  - cbn in Ha, Hb. eapply IH; eassumption.
Qed.

(** Read at the indices [-n, ..., -1], the moments are the last [n] of the
    history. *)
Lemma picked_from_end (history : list moment) (n : nat) (picked : list moment) :
  (n <= List.length history)%nat ->
  Forall2 (fun i m => py_index history i = Ret m)
          (xrange (- Z.of_nat n) 0) picked ->
  picked = skipn (List.length history - n) history.
Proof.
  intros Hn Hall.
  assert (Hlen : List.length picked = n).
  { apply Forall2_length in Hall. rewrite <- Hall. unfold xrange.
    rewrite length_map, length_seq. lia. }
  apply nth_error_ext. intros k.
  rewrite nth_error_skipn.
  destruct (Nat.lt_ge_cases k n) as [Hk | Hk].
  - destruct (nth_error picked k) as [m |] eqn:Em.
    + symmetry. apply (py_index_from_end history n k m Hn Hk).
      assert (Hi : nth_error (xrange (- Z.of_nat n) 0) k
                   = Some (- Z.of_nat n + Z.of_nat k)%Z).
      { unfold xrange. rewrite nth_error_map, nth_error_seq.
        destruct (Nat.ltb_spec k (Z.to_nat (0 - - Z.of_nat n))); [reflexivity | lia]. }
      exact (Forall2_at _ _ _ Hall k _ _ Hi Em).
    + apply nth_error_None in Em. lia.
  - rewrite (proj2 (nth_error_None picked k)) by lia.
    symmetry. apply nth_error_None. lia.
Qed.

(** An n-gram that was recorded: made of moments that follow one another
    in the history, none of them a rest. *)
Definition recorded (history : list moment) (call : list moment * NGram) : Prop :=
  ~ In MRest (fst call) /\
  exists before after, history = before ++ fst call ++ after.

Lemma recorded_later (history later : list moment) (call : list moment * NGram) :
  recorded history call -> recorded (history ++ later) call.
Proof.
  intros (Hnorest & before & after & ->). split; [exact Hnorest |].
  exists before, (after ++ later). rewrite <- !app_assoc. reflexivity.
Qed.

Lemma process_ngram_inv (history : list moment)
    (calls calls' : list (list moment * NGram)) (n : Z) :
  process_ngram NGram NGram_ the_settings history calls n = Ret calls' ->
  Forall (recorded history) calls -> Forall (recorded history) calls'.
Proof.
  unfold process_ngram. intros H Hcalls.
  destruct (Z.ltb_spec (Z.of_nat (List.length history)) n) as [Hlt | Hge].
  { injection H as <-. exact Hcalls. }
  destruct (gather history (xrange (-1 * n) 0) []) as [[l |] | |] eqn:Eg;
    try discriminate; cbn [mbind outcome_bind] in H.
  2:{ injection H as <-. exact Hcalls. }
  destruct (NGram_ l _ _) as [this_ngram | |]; try discriminate.
  cbn [mbind outcome_bind] in H. injection H as <-.
  apply Forall_app. split; [exact Hcalls |]. constructor; [| constructor].
  destruct (gather_inv _ _ _ _ Eg) as (picked & -> & Hnorest & Hall).
  cbn [app fst]. split; [exact Hnorest |].
  destruct (Z.le_gt_cases n 0) as [Hn | Hn].
  - assert (Hempty : xrange (-1 * n) 0 = []).
    { unfold xrange. replace (Z.to_nat (0 - -1 * n)) with 0%nat by lia. reflexivity. }
    rewrite Hempty in Hall. inversion Hall; subst.
    exists history, []. rewrite app_nil_r. reflexivity.
  - replace (-1 * n)%Z with (- Z.of_nat (Z.to_nat n))%Z in Hall by lia.
    apply picked_from_end in Hall; [| lia]. subst picked.
    exists (firstn (List.length history - Z.to_nat n) history), [].
    rewrite app_nil_r. symmetry. apply firstn_skipn.
Qed.

Lemma process_ngrams_inv (history : list moment) (ns : list Z) :
  forall calls calls' : list (list moment * NGram),
    foldM (process_ngram NGram NGram_ the_settings history) calls ns = Ret calls' ->
    Forall (recorded history) calls -> Forall (recorded history) calls'.
Proof.
  induction ns as [| n ns IH]; intros calls calls' H Hcalls; cbn [foldM] in H.
  - injection H as <-. exact Hcalls.
  - destruct (process_ngram NGram NGram_ the_settings history calls n)
      as [calls1 | |] eqn:E1; try discriminate.
    cbn [mbind outcome_bind] in H.
    eapply IH; [exact H |]. eapply process_ngram_inv; eassumption.
Qed.

(** One turn of the loop, read off its result. *)
Lemma vis_these_parts_body_inv (st st' : engine_state NGram) :
  vis_these_parts_body Interval_ Interval_eq NGram NGram_ the_settings
                       higher_part lower_part st = Ret st' ->
  exists (lower higher : GeneralNote) (contin contin' : bool),
    (if contin
     then process_intervals Interval_ Interval_eq NGram lower higher st
     else Ret (false, interval_history st, add_interval_calls st, current_offset st))
    = Ret (contin', interval_history st', add_interval_calls st', current_offset st') /\
    (if contin'
     then foldM (process_ngram NGram NGram_ the_settings (interval_history st'))
                (add_ngram_calls st) (lookForTheseNs the_settings)
     else Ret (add_ngram_calls st))
    = Ret (add_ngram_calls st').
Proof.
  unfold vis_these_parts_body. intros H.
  destruct (py_index lower_part _) as [lower0 | |]; try discriminate.
  cbn [mbind outcome_bind] in H.
  destruct (py_index higher_part _) as [higher0 | |]; try discriminate.
  cbn [mbind outcome_bind] in H.
  destruct (right_objects _ _ _ _ _ _) as [cl ch].
  destruct (first_potential_offset _ _ _ _) as [p0 | |]; try discriminate.
  cbn [mbind outcome_bind] in H.
  destruct (py_index higher_part ch) as [higher | |]; try discriminate.
  cbn [mbind outcome_bind] in H.
  destruct (py_index lower_part cl) as [lower | |]; try discriminate.
  cbn [mbind outcome_bind] in H.
  destruct (count_up _ _ _ _) as [[p1 contin0] | |]; try discriminate.
  cbn [mbind outcome_bind] in H.
  match type of H with
  | mbind _ ?m = _ => destruct m as [contin | |] eqn:Econtin; try discriminate
  end.
  cbn [mbind outcome_bind] in H.
  match type of H with
  | mbind _ ?m = _ =>
    destruct m as [[[[contin' history] intervals] offset_now] | |] eqn:Eint;
      try discriminate
  end.
  cbn [mbind outcome_bind] in H.
  match type of H with
  | mbind _ ?m = _ => destruct m as [ngrams | |] eqn:Engrams; try discriminate
  end.
  cbn [mbind outcome_bind] in H. injection H as <-.
  exists lower, higher, contin, contin'. split; [exact Eint | exact Engrams].
Qed.

(** A property every turn keeps holds when the loop returns. *)
Lemma vis_these_parts_loop_inv (P : engine_state NGram -> Prop) :
  (forall st st',
     P st ->
     vis_these_parts_body Interval_ Interval_eq NGram NGram_ the_settings
                          higher_part lower_part st = Ret st' ->
     P st') ->
  forall (fuel : nat) (st st' : engine_state NGram),
    P st ->
    vis_these_parts_loop Interval_ Interval_eq NGram NGram_ the_settings
                         higher_part lower_part fuel st = Ret st' ->
    P st'.
Proof.
  intros Hstep. induction fuel as [| fuel IH]; intros st st' HP Hrun;
    cbn [vis_these_parts_loop] in Hrun;
    destruct (_ || _)%bool; try discriminate;
    try (injection Hrun as <-; exact HP).
  destruct (vis_these_parts_body _ _ _ _ _ _ _ st) as [st1 | |] eqn:Ebody;
    try discriminate.
  cbn [mbind outcome_bind] in Hrun.
  eapply IH; [| exact Hrun]. eapply Hstep; eassumption.
Qed.

(** No neighbours of the history repeat, and every n-gram recorded is made
    of neighbours of the history, none a rest. *)
Definition history_ok (st : engine_state NGram) : Prop :=
  neighbours fresh (interval_history st) /\
  Forall (recorded (interval_history st)) (add_ngram_calls st).

Lemma history_ok_step (st st' : engine_state NGram) :
  history_ok st ->
  vis_these_parts_body Interval_ Interval_eq NGram NGram_ the_settings
                       higher_part lower_part st = Ret st' ->
  history_ok st'.
Proof.
  intros [Hfresh Hcalls] Hbody.
  destruct (vis_these_parts_body_inv st st' Hbody)
    as (lower & higher & contin & contin' & Hint & Hngrams).
  assert (Hhist : exists later,
             interval_history st' = interval_history st ++ later /\
             neighbours fresh (interval_history st') /\
             (contin' = true -> later <> [])).
  { destruct contin.
    - apply process_intervals_inv in Hint
        as [[-> ->] | [[-> ->] | (this & -> & -> & Hsame)]].
      + exists []. rewrite app_nil_r. repeat split; [exact Hfresh | discriminate].
      + exists [MRest]. repeat split; [| discriminate].
        apply neighbours_snoc; [exact Hfresh |].
        intros a _. destruct a; exact I.
      + exists [MInterval this]. repeat split; [| discriminate].
        apply neighbours_snoc; [exact Hfresh |].
        intros a Ha. eapply same_as_previous_false; eassumption.
    - injection Hint as <- <- _ _. exists []. rewrite app_nil_r.
      repeat split; [exact Hfresh | discriminate]. }
  destruct Hhist as (later & Hlater & Hfresh' & _).
  split; [exact Hfresh' |].
  assert (Hold : Forall (recorded (interval_history st')) (add_ngram_calls st)).
  { rewrite Hlater. eapply List.Forall_impl; [| exact Hcalls].
    intros call. apply recorded_later. }
  destruct contin'.
  - eapply process_ngrams_inv; eassumption.
  - injection Hngrams as <-. exact Hold.
Qed.

Lemma vis_these_parts_history_ok (st : engine_state NGram) :
  vis_these_parts Interval_ Interval_eq NGram NGram_ the_settings
                  higher_part lower_part = Ret st ->
  history_ok st.
Proof.
  intros Hrun. apply vis_these_parts_returns in Hrun. revert Hrun.
  apply vis_these_parts_loop_inv.
  - apply history_ok_step.
  - split; [apply neighbours_nil | constructor].
Qed.
End EngineInvariants.

Arguments recorded {NGram} history call.
Arguments history_ok Interval_eq {NGram} st.

(** ** The loops of the two aligners end *)

(** A piece of Python that returns or raises. *)
Definition ends {A : Type} (m : outcome A) : Prop := m <> Diverge.

Lemma ends_Ret {A : Type} (a : A) : ends (Ret a).
Proof. discriminate. Qed.

Lemma ends_Raise {A : Type} (e : exn) : ends (@Raise A e).
Proof. discriminate. Qed.

Lemma ends_bind {A B : Type} (m : outcome A) (k : A -> outcome B) :
  ends m -> (forall a, m = Ret a -> ends (k a)) -> ends (m ≫= k).
Proof.
  intros Hm Hk. destruct m as [a | e |]; cbn [mbind outcome_bind].
  - apply Hk. reflexivity.
  - discriminate.
  - contradiction.
Qed.

Lemma py_index_ends {A : Type} (l : list A) (i : Z) : ends (py_index l i).
Proof.
  unfold py_index. destruct (_ && _)%bool; [| discriminate].
  destruct (nth_error l _); discriminate.
Qed.



Lemma mapM_ends {A B : Type} (f : A -> outcome B) (l : list A) :
  (forall a, ends (f a)) -> ends (mapM f l).
Proof.
  intros Hf. induction l as [| a l IH]; cbn [mapM].
  - apply ends_Ret.
  - apply ends_bind; [apply Hf |]. intros b _.
    apply ends_bind; [exact IH |]. intros bs _. apply ends_Ret.
Qed.

Section EngineEnds.
Import Music21 AnalyticEngine.

Variable Interval_ : option Note -> option Note -> outcome Interval.
Variable Interval_eq : Interval -> Interval -> bool.
Variable NGram : Type.
Variable NGram_ : list moment -> bool -> string -> outcome NGram.
Variable the_settings : VIS_Settings.
Variable higher_part lower_part : list GeneralNote.

Hypothesis Hpositive : 0 < offsetBetweenInterval the_settings.
Hypothesis HInterval : forall a b, ends (Interval_ a b).
Hypothesis HNGram : forall l h s, ends (NGram_ l h s).











End EngineEnds.

Section IntsecEnds.
Import Music21 Intsec.

Variable Interval_ : option Note -> option Note -> outcome Interval.
Variable hfn lfn : list Note.

Hypothesis HInterval : forall a b, ends (Interval_ a b).

Lemma visTheseParts_body_ends (st : vis_state) :
  ends (visTheseParts_body Interval_ hfn lfn st).
Proof.
  unfold visTheseParts_body.
  destruct (match getElementsByOffset lfn (thisOffset st) with
            | [] => _ | _ :: _ => _ end) as [[ml pl] lu].
  destruct (match getElementsByOffset hfn (thisOffset st) with
            | [] => _ | _ :: _ => _ end) as [[mh ph] hu].
  apply ends_bind; [| intros [intervals ngrams] _; apply ends_Ret].
  destruct (lu || hu); [| apply ends_Ret].
  apply ends_bind; [apply HInterval |]. intros iv _.
  destruct (_ && _)%bool; [| apply ends_Ret].
  apply ends_bind; [apply HInterval |]. intros previous _.
  apply ends_bind; [| intros; apply ends_Ret].
  unfold __init__. apply ends_bind; [| intros; apply ends_Ret].
  unfold _calculateMovements. destruct (forallb _ _); [| apply ends_Raise].
  apply mapM_ends. intros i.
  apply ends_bind; [apply py_index_ends |]. intros this _.
  apply ends_bind; [apply py_index_ends |]. intros next _. apply HInterval.
Qed.

Lemma visTheseParts_loop_ends (highest : Q) :
  forall (fuel k : nat) (st : vis_state),
    thisOffset st == half_beat k ->
    (Z.to_nat (Qfloor (2 * highest)) < k + fuel)%nat ->
    ends (visTheseParts_loop Interval_ hfn lfn fuel highest st).
Proof.
  induction fuel as [| fuel IH]; intros k st Ho Hfuel;
    cbn [visTheseParts_loop];
    destruct (Qle_bool (thisOffset st) highest) eqn:E; try apply ends_Ret.
  - apply Qle_bool_iff in E.
    pose proof (half_beat_count k highest ltac:(lra)). lia.
  - apply ends_bind; [apply visTheseParts_body_ends |].
    intros st' Hbody. apply (IH (S k)); [| lia].
    destruct (voice_step lfn (thisOffset st) (mostRecentLow st) (previousLows st))
      as [[ml pl] lu] eqn:El.
    destruct (voice_step hfn (thisOffset st) (mostRecentHigh st) (previousHighs st))
      as [[mh ph] hu] eqn:Eh.
    destruct (visTheseParts_body_inv Interval_ hfn lfn st st' Hbody _ _ _ _ _ _ El Eh)
      as (Hoff & _).
    rewrite Hoff, half_beat_succ. lra.
Qed.

(** With a music21 that returns or raises, [visTheseParts] returns or
    raises: the fuel of the embedding is never used up. *)
Lemma visTheseParts_ends : ends (visTheseParts Interval_ hfn lfn).
Proof.
  unfold visTheseParts. apply (visTheseParts_loop_ends _ _ 0).
  - reflexivity.
  - unfold vis_fuel. lia.
Qed.
End IntsecEnds.

(** ** The two aligners on small pieces *)

Lemma neighbours_one {A : Type} (R : A -> A -> Prop) (a : A) : neighbours R [a].
Proof. intros [| x [| y l1]] b c l2 H; discriminate. Qed.

Lemma neighbours_cons {A : Type} (R : A -> A -> Prop) (a b : A) (l : list A) :
  R a b -> neighbours R (b :: l) -> neighbours R (a :: b :: l).
Proof.
  intros Hab Hl [| x l1] c d l2 H.
  - injection H as <- <- _. exact Hab.
  - injection H as _ H. eapply Hl. exact H.
Qed.

(** The stand-in makes an interval of every two notes it can read. *)
Lemma toy_interval_of_notes (a b : Music21.Note) :
  is_Some (ToyMusic21.numbers (Music21.nameWithOctave a)) ->
  is_Some (ToyMusic21.numbers (Music21.nameWithOctave b)) ->
  exists iv, ToyMusic21.Interval_ (Some a) (Some b) = Ret iv /\
             Music21.noteStart iv = Some a /\ Music21.noteEnd iv = Some b.
Proof.
  intros [[d1 m1] Ha] [[d2 m2] Hb]. unfold ToyMusic21.Interval_.
  rewrite Ha, Hb. eexists. split; [reflexivity |]. split; reflexivity.
Qed.

(** Parallel thirds: C4-E4, then D4-F#4. *)
Definition thirds_high : list Music21.Note :=
  [ToyMusic21.quarter 0 "E4"; ToyMusic21.quarter 1 "F#4"].
Definition thirds_low : list Music21.Note :=
  [ToyMusic21.quarter 0 "C4"; ToyMusic21.quarter 1 "D4"].

(** A lower voice that moves a sixteenth note after the beat. *)
Definition late_high : list Music21.Note :=
  [ToyMusic21.quarter 0 "E4"; ToyMusic21.quarter 1 "G4"].
Definition late_low : list Music21.Note :=
  [ToyMusic21.quarter 0 "C4"; ToyMusic21.quarter (1 # 4) "D4";
   ToyMusic21.quarter 1 "E4"].

Definition half_beat_settings : AnalyticEngine.VIS_Settings :=
  {| AnalyticEngine.offsetBetweenInterval := 1 # 2;
     AnalyticEngine.lookForTheseNs := [2%Z];
     AnalyticEngine.heedQuality := false;
     AnalyticEngine.simpleOrCompound := "compound" |}.

(** An [NGram] that is the list it is made of. *)
Definition listed_NGram (list_of_intervals : list AnalyticEngine.moment)
    (heedQuality : bool) (simpleOrCompound : string)
  : outcome (list AnalyticEngine.moment) :=
  Ret list_of_intervals.

Definition moment_name (m : AnalyticEngine.moment) : string :=
  match m with
  | AnalyticEngine.MRest => "rest"
  | AnalyticEngine.MInterval iv => Music21.name iv
  end.

(** A third, a rest in the upper voice, the same third again, a fourth. *)
Definition rest_high : list Music21.GeneralNote :=
  [Music21.ANote (ToyMusic21.quarter 0 "E4"); Music21.ARest 1 1;
   Music21.ANote (ToyMusic21.quarter 2 "E4");
   Music21.ANote (ToyMusic21.quarter 3 "G4")].
Definition rest_low : list Music21.GeneralNote :=
  [Music21.ANote (ToyMusic21.quarter 0 "C4");
   Music21.ANote (ToyMusic21.quarter 1 "D4");
   Music21.ANote (ToyMusic21.quarter 2 "C4");
   Music21.ANote (ToyMusic21.quarter 3 "D4")].

Example engine_skips_rest :
  exists st,
    AnalyticEngine.vis_these_parts ToyMusic21.Interval_ ToyMusic21.Interval_eqb _
      listed_NGram half_beat_settings rest_high rest_low = Ret st /\
    map moment_name (AnalyticEngine.interval_history st) = ["M3"; "rest"; "M3"; "P4"] /\
    map (fun call => map moment_name (fst call)) (AnalyticEngine.add_ngram_calls st)
    = [["M3"; "P4"]].
Proof. eexists. split; [vm_compute; reflexivity |]. split; reflexivity. Qed.

(** ** C1: rows and offsets *)

(** C1, as stated, does not hold of [intsec.visTheseParts]: the lower voice
    has an event at offset 0.25, and no row is counted there. *)
Lemma aligner_misses_offset_off_the_grid :
  exists st,
    Intsec.visTheseParts ToyMusic21.Interval_ late_high late_low = Ret st /\
    exists n, In n (late_high ++ late_low) /\
              forall c, In c (Intsec.addInterval_calls st) ->
                        ~ Intsec.at_offset c == Music21.offset n.
Proof.
  eexists. split; [vm_compute; reflexivity |].
  exists (ToyMusic21.quarter (1 # 4) "D4"). split.
  - cbn. tauto.
  - intros c Hc. cbn in Hc.
    destruct Hc as [<- | [<- | []]]; cbn; intros H; discriminate H.
Qed.

(** C1 (amended).  Every interval [intsec.visTheseParts] counts lies at the
    offset of a note of one of the two parts, and the offsets of the rows
    increase.  When both parts are time series (offsets increase, no pitch
    is repeated at once) on the grid of half beats, begin together, and
    music21 makes an interval of every two of their notes, the function
    returns and has counted a row at every offset of a note. *)
Theorem aligner_rows_at_union_of_offsets
    (Interval_ : option Music21.Note -> option Music21.Note -> outcome Music21.Interval)
    (hfn lfn : list Music21.Note) :
  (forall st,
     Intsec.visTheseParts Interval_ hfn lfn = Ret st ->
     (forall c, In c (Intsec.addInterval_calls st) ->
                exists n, In n (hfn ++ lfn) /\
                          Music21.offset n == Intsec.at_offset c) /\
     neighbours (fun a b => Intsec.at_offset a < Intsec.at_offset b)
                (Intsec.addInterval_calls st)) /\
  (time_series hfn -> time_series lfn -> Forall on_grid (hfn ++ lfn) ->
   (exists a b, head hfn = Some a /\ head lfn = Some b /\
                Music21.offset a == Music21.offset b) ->
   (forall a b, In a (hfn ++ lfn) -> In b (hfn ++ lfn) ->
                exists iv, Interval_ (Some a) (Some b) = Ret iv /\
                           Music21.noteStart iv = Some a /\
                           Music21.noteEnd iv = Some b) ->
   exists st,
     Intsec.visTheseParts Interval_ hfn lfn = Ret st /\
     forall n, In n (hfn ++ lfn) ->
               exists c, In c (Intsec.addInterval_calls st) /\
                         Intsec.at_offset c == Music21.offset n).
Proof.
  split.
  - intros st Hst.
    destruct (visTheseParts_rows_ok Interval_ hfn lfn st Hst)
      as (Hin & Hinc & _ & _).
    split; [| exact Hinc]. intros c Hc. apply Hin, Hc.
  - apply visTheseParts_complete.
Qed.

Lemma aligner_rows_at_union_of_offsets_witness :
  exists st,
    Intsec.visTheseParts ToyMusic21.Interval_ thirds_high thirds_low = Ret st /\
    forall n, In n (thirds_high ++ thirds_low) ->
              exists c, In c (Intsec.addInterval_calls st) /\
                        Intsec.at_offset c == Music21.offset n.
Proof.
  apply (proj2 (aligner_rows_at_union_of_offsets
                  ToyMusic21.Interval_ thirds_high thirds_low)).
  - split.
    + repeat constructor.
    + apply neighbours_cons; [discriminate | apply neighbours_one].
  - split.
    + repeat constructor.
    + apply neighbours_cons; [discriminate | apply neighbours_one].
  - repeat constructor;
      [exists 0%nat | exists 2%nat | exists 0%nat | exists 2%nat]; reflexivity.
  - eexists _, _. split; [reflexivity |]. split; reflexivity.
  - intros a b Ha Hb. apply toy_interval_of_notes.
    + simpl in Ha. destruct Ha as [<- | [<- | [<- | [<- | []]]]];
        eexists; reflexivity.
    + simpl in Hb. destruct Hb as [<- | [<- | [<- | [<- | []]]]];
        eexists; reflexivity.
Defined.

(** ** C3: neighbouring combinations *)

(** C3, as stated, does not hold: in parallel thirds both aligners record
    the vertical token M3 twice in a row. *)
Lemma aligners_repeat_a_vertical_token :
  (exists st,
     Intsec.visTheseParts ToyMusic21.Interval_ thirds_high thirds_low = Ret st /\
     map (fun c => Music21.name (Intsec.interval c)) (Intsec.addInterval_calls st)
     = ["M3"; "M3"]) /\
  (exists st,
     AnalyticEngine.vis_these_parts ToyMusic21.Interval_ ToyMusic21.Interval_eqb _
       listed_NGram half_beat_settings
       (map Music21.ANote thirds_high) (map Music21.ANote thirds_low) = Ret st /\
     map Music21.name (AnalyticEngine.add_interval_calls st) = ["M3"; "M3"] /\
     map moment_name (AnalyticEngine.interval_history st) = ["M3"; "M3"]).
Proof.
  split.
  - eexists. split; [vm_compute; reflexivity | reflexivity].
  - eexists. split; [vm_compute; reflexivity |]. split; reflexivity.
Qed.

(** C3 (amended).  No two neighbouring recorded combinations agree in
    both interval and notes.  In the history of
    [analytic_engine.vis_these_parts] no interval equals the moment before
    it while starting from a lower note of the same name; of two
    neighbouring rows of [intsec.visTheseParts] the lower or the upper
    pitch differs. *)
Theorem neighbours_differ_in_interval_or_notes
    (Interval_ : option Music21.Note -> option Music21.Note -> outcome Music21.Interval)
    (Interval_eq : Music21.Interval -> Music21.Interval -> bool)
    (NGram : Type)
    (NGram_ : list AnalyticEngine.moment -> bool -> string -> outcome NGram)
    (the_settings : AnalyticEngine.VIS_Settings)
    (higher_part lower_part : list Music21.GeneralNote)
    (hfn lfn : list Music21.Note) :
  (forall st,
     AnalyticEngine.vis_these_parts Interval_ Interval_eq NGram NGram_ the_settings
                                    higher_part lower_part = Ret st ->
     neighbours (fresh Interval_eq) (AnalyticEngine.interval_history st)) /\
  (forall st,
     Intsec.visTheseParts Interval_ hfn lfn = Ret st ->
     neighbours (fun a b =>
                   pitch_of (Intsec.low a) <> pitch_of (Intsec.low b) \/
                   pitch_of (Intsec.high a) <> pitch_of (Intsec.high b))
                (Intsec.addInterval_calls st)).
Proof.
  split.
  - intros st Hst.
    apply (vis_these_parts_history_ok _ _ _ _ _ _ _ st Hst).
  - intros st Hst.
    apply (visTheseParts_rows_ok Interval_ hfn lfn st Hst).
Qed.

Lemma neighbours_differ_in_interval_or_notes_witness :
  (exists st,
     AnalyticEngine.vis_these_parts ToyMusic21.Interval_ ToyMusic21.Interval_eqb _
       listed_NGram half_beat_settings rest_high rest_low = Ret st /\
     neighbours (fresh ToyMusic21.Interval_eqb) (AnalyticEngine.interval_history st)) /\
  (exists st,
     Intsec.visTheseParts ToyMusic21.Interval_ thirds_high thirds_low = Ret st /\
     neighbours (fun a b =>
                   pitch_of (Intsec.low a) <> pitch_of (Intsec.low b) \/
                   pitch_of (Intsec.high a) <> pitch_of (Intsec.high b))
                (Intsec.addInterval_calls st)).
Proof.
  split.
  - eexists. split; [vm_compute; reflexivity |].
    apply (proj1 (neighbours_differ_in_interval_or_notes
                    ToyMusic21.Interval_ ToyMusic21.Interval_eqb _ listed_NGram
                    half_beat_settings rest_high rest_low thirds_high thirds_low)).
    vm_compute. reflexivity.
  - eexists. split; [vm_compute; reflexivity |].
    apply (proj2 (neighbours_differ_in_interval_or_notes
                    ToyMusic21.Interval_ ToyMusic21.Interval_eqb _ listed_NGram
                    half_beat_settings rest_high rest_low thirds_high thirds_low)).
    vm_compute. reflexivity.
Defined.

(** ** C2: terminators *)

Lemma has_terminator_false (cfg : NewNGram.config) (w : list NewNGram.slot) :
  NewNGram.has_terminator cfg w = false <->
  forall s t, In s w -> In t (NewNGram.slot_tokens s) ->
              ~ t ∈ NewNGram.cfg_terminator cfg.
Proof.
  unfold NewNGram.has_terminator. split.
  - intros H s t Hs Ht Hterm.
    assert (Hex : existsb (fun s => existsb (fun t => bool_decide (t ∈ NewNGram.cfg_terminator cfg))
                                            (NewNGram.slot_tokens s)) w = true).
    { apply existsb_exists. exists s. split; [exact Hs |].
      apply existsb_exists. exists t. split; [exact Ht |].
      apply bool_decide_eq_true_2, Hterm. }
    congruence.
  - intros H. apply not_true_is_false. intros Hex.
    apply existsb_exists in Hex as (s & Hs & Hex).
    apply existsb_exists in Hex as (t & Ht & Hterm).
    apply bool_decide_eq_true in Hterm. exact (H s t Hs Ht Hterm).
Qed.

(** The piece and the settings of [test_ngram_9]. *)
Definition test_ngram_9_config : NewNGram.config :=
  {| NewNGram.cfg_n := 2;
     NewNGram.cfg_vertical := ["0,1"; "0,2"];
     NewNGram.cfg_horizontal := ["1"; "2"];
     NewNGram.cfg_brackets := true;
     NewNGram.cfg_mark_singles := true;
     NewNGram.cfg_terminator := ["C"];
     NewNGram.cfg_continuer := "_" |}.

Definition test_ngram_9_score : NewNGram.score :=
  {| NewNGram.voices := ["0,1"; "0,2"; "1"; "2"];
     NewNGram.events :=
       [(0, {[ "0,1" := "A"; "0,2" := "Z"; "1" := "a"; "2" := "z" ]});
        (1, {[ "0,1" := "B"; "0,2" := "X"; "1" := "b"; "2" := "x" ]});
        (2, {[ "0,1" := "C"; "0,2" := "Y"; "1" := "c"; "2" := "y" ]});
        (3, {[ "0,1" := "D"; "0,2" := "W"; "1" := "d"; "2" := "w" ]});
        (4, {[ "0,1" := "E"; "0,2" := "V" ]})] |}.

Example test_ngram_9 :
  NewNGram.run test_ngram_9_config test_ngram_9_score
  = [(0, "[A Z] (a z) [B X]"); (3, "[D W] (d w) [E V]")].
Proof. vm_compute. reflexivity. Qed.

(** C2.  The windows the builder emits are those of the start rows that
    have a window none of whose slots holds a terminator token: a window
    with a terminator is dropped as a whole, and the start rows after it are
    scanned as the others are.  In [analytic_engine.vis_these_parts] every
    n-gram handed to [add_ngram] is made of moments that follow one another
    in the history, none of them the moment ['rest']. *)
Theorem no_window_holds_a_terminator
    (cfg : NewNGram.config) (rows : list NewNGram.aligned_row)
    (Interval_ : option Music21.Note -> option Music21.Note -> outcome Music21.Interval)
    (Interval_eq : Music21.Interval -> Music21.Interval -> bool)
    (NGram : Type)
    (NGram_ : list AnalyticEngine.moment -> bool -> string -> outcome NGram)
    (the_settings : AnalyticEngine.VIS_Settings)
    (higher_part lower_part : list Music21.GeneralNote) :
  (forall o w,
     In (o, w) (NewNGram.windows cfg rows) <->
     exists i r,
       rows !! i = Some r /\ o = NewNGram.row_offset r /\
       NewNGram.window cfg rows i = Some w /\
       forall s t, In s w -> In t (NewNGram.slot_tokens s) ->
                   ~ t ∈ NewNGram.cfg_terminator cfg) /\
  (forall st,
     AnalyticEngine.vis_these_parts Interval_ Interval_eq NGram NGram_ the_settings
                                    higher_part lower_part = Ret st ->
     Forall (recorded (AnalyticEngine.interval_history st))
            (AnalyticEngine.add_ngram_calls st)).
Proof.
  split.
  - intros o w. rewrite in_windows. split.
    + intros (i & r & Hr & Ho & Hw & Ht).
      exists i, r. repeat split; try assumption. apply has_terminator_false, Ht.
    + intros (i & r & Hr & Ho & Hw & Ht).
      exists i, r. repeat split; try assumption. apply has_terminator_false, Ht.
  - intros st Hst.
    apply (vis_these_parts_history_ok _ _ _ _ _ _ _ st Hst).
Qed.

Lemma no_window_holds_a_terminator_witness :
  (forall s t,
     In s [NewNGram.Vertical ["D"; "W"]; NewNGram.Horizontal ["d"; "w"];
           NewNGram.Vertical ["E"; "V"]] ->
     In t (NewNGram.slot_tokens s) ->
     ~ t ∈ NewNGram.cfg_terminator test_ngram_9_config) /\
  (exists st,
     AnalyticEngine.vis_these_parts ToyMusic21.Interval_ ToyMusic21.Interval_eqb _
       listed_NGram half_beat_settings rest_high rest_low = Ret st /\
     Forall (recorded (AnalyticEngine.interval_history st))
            (AnalyticEngine.add_ngram_calls st)).
Proof.
  split.
  - destruct (proj1 (proj1 (no_window_holds_a_terminator
                              test_ngram_9_config
                              (NewNGram.align test_ngram_9_config ∅
                                 (NewNGram.events test_ngram_9_score))
                              ToyMusic21.Interval_ ToyMusic21.Interval_eqb _
                              listed_NGram half_beat_settings rest_high rest_low)
                           3
                           [NewNGram.Vertical ["D"; "W"]; NewNGram.Horizontal ["d"; "w"];
                            NewNGram.Vertical ["E"; "V"]]))
      as (i & r & _ & _ & _ & Hterm).
    + vm_compute. right. left. reflexivity.
    + exact Hterm.
  - eexists. split; [vm_compute; reflexivity |].
    apply (proj2 (no_window_holds_a_terminator
                    test_ngram_9_config [] ToyMusic21.Interval_
                    ToyMusic21.Interval_eqb _ listed_NGram half_beat_settings
                    rest_high rest_low)).
    vm_compute. reflexivity.
Defined.

(** * Further properties *)

(** ** [round_to] and [fill_space_between_offsets] *)

Lemma py_int_opp (x : Q) : py_int (- x) = (- py_int x)%Z.
Proof.
  destruct x as [n d]. unfold py_int, Qopp. cbn [Qnum Qden].
  apply Z.quot_opp_l. discriminate.
Qed.

Lemma Qopp_opp (x : Q) : - - x = x.
Proof. destruct x as [n d]. unfold Qopp. cbn. f_equal. lia. Qed.

Lemma py_int_nonpos (x : Q) : x <= 0 -> py_int x = (- Qfloor (- x))%Z.
Proof.
  intros Hx. rewrite <- (Qopp_opp x) at 1.
  rewrite py_int_opp, py_int_nonneg by lra. reflexivity.
Qed.

(** The multiple [round_to] picks: halves go away from zero. *)
Definition nearest_multiple (n p : Q) : Z :=
  if Qle_bool 0 n then Qfloor (n / p + (1 # 2))
  else (- Qfloor ((- n) / p + (1 # 2)))%Z.

Lemma round_to_value (n p : Q) :
  0 < p ->
  AnalyticEngine.round_to n p = Ret (inject_Z (nearest_multiple n p) * p).
Proof.
  intros Hp. unfold AnalyticEngine.round_to, nearest_multiple.
  destruct (Qeq_bool p 0) eqn:E0.
  { apply Qeq_bool_iff in E0. lra. }
  destruct (Qle_bool 0 n) eqn:En.
  - apply Qle_bool_iff in En.
    assert (Hq : 0 <= n / p) by (apply Qle_shift_div_l; lra).
    rewrite py_int_nonneg by lra. reflexivity.
  - assert (Hn : n < 0).
    { destruct (Qlt_le_dec n 0) as [H | H]; [exact H |].
      apply Qle_bool_iff in H. congruence. }
    assert (Hq : 0 <= (- n) / p) by (apply Qle_shift_div_l; lra).
    assert (Hx : - (n / p + - (1 # 2)) == (- n) / p + (1 # 2)) by (field; lra).
    rewrite py_int_nonpos by lra.
    rewrite (Qfloor_comp _ _ Hx). reflexivity.
Qed.

Lemma nearest_multiple_opp (n p : Q) :
  nearest_multiple (- n) p = (- nearest_multiple n p)%Z.
Proof.
  unfold nearest_multiple.
  destruct (Qle_bool 0 n) eqn:En, (Qle_bool 0 (- n)) eqn:Em.
  - apply Qle_bool_iff in En, Em.
    assert (Hn : n == 0) by lra.
    assert (H1 : n / p + (1 # 2) == 1 # 2) by (rewrite Hn; unfold Qdiv; lra).
    assert (H2 : - n / p + (1 # 2) == 1 # 2) by (rewrite Hn; unfold Qdiv; lra).
    rewrite (Qfloor_comp _ _ H1), (Qfloor_comp _ _ H2). reflexivity.
  - rewrite Qopp_opp. reflexivity.
  - lia.
  - exfalso.
    assert (H1 : ~ 0 <= n) by (intros H; apply Qle_bool_iff in H; congruence).
    assert (H2 : ~ 0 <= - n) by (intros H; apply Qle_bool_iff in H; congruence).
    destruct (Qlt_le_dec 0 n) as [H | H]; [apply H1; lra | apply H2; lra].
Qed.

(** X2. When the end offset lies before the start offset, both copies of
    [fill_space_between_offsets] raise, each its own exception:
    [NonsensicalInputError] in [analytic_engine], [RuntimeError] in
    [LilyPondExperiment]. *)
Theorem fill_space_backwards (start_o end_o : Q) :
  end_o < start_o ->
  (exists msg, AnalyticEngine.fill_space_between_offsets start_o end_o
               = Raise (NonsensicalInputError msg)) /\
  (exists msg, LilyPondExperiment.fill_space_between_offsets start_o end_o
               = Raise (RuntimeError msg)).
Proof.
  intros Hlt.
  unfold AnalyticEngine.fill_space_between_offsets,
         LilyPondExperiment.fill_space_between_offsets, solver_fuel.
  cbn [AnalyticEngine.the_solver LilyPondExperiment.the_solver].
  set (q := end_o - start_o).
  assert (Hq : q < 0) by (unfold q; lra).
  assert (E4 : Qeq_bool 4 q = false).
  { destruct (Qeq_bool 4 q) eqn:E; [| reflexivity].
    apply Qeq_bool_iff in E. lra. }
  assert (E0 : Qle_bool 0 q = false).
  { destruct (Qle_bool 0 q) eqn:E; [| reflexivity].
    apply Qle_bool_iff in E. lra. }
  assert (Egt : Qltb 4 q = false) by (apply Qltb_ge; lra).
  rewrite E4, E0, Egt, andb_false_r.
  split; eexists; reflexivity.
Qed.

Lemma fill_space_backwards_witness :
  (exists msg, AnalyticEngine.fill_space_between_offsets 2 1
               = Raise (NonsensicalInputError msg)) /\
  (exists msg, LilyPondExperiment.fill_space_between_offsets 2 1
               = Raise (RuntimeError msg)).
Proof.
  apply (fill_space_backwards 2 1). reflexivity.
Defined.

(** A duration LilyPond writes with one character: a whole note and its
    halves down to the 256th note; or what is left below a 256th note. *)
Definition note_value (d : Q) : Prop :=
  existsb (Qeq_bool d) [4; 2; 1; 1 # 2; 1 # 4; 1 # 8; 1 # 16; 1 # 32; 1 # 64] = true \/
  (0 <= d /\ d < 1 # 64).

(** From one duration to the next the value does not grow, and below a
    whole note it shrinks. *)
Definition descending (l : list Q) : Prop :=
  neighbours (fun a b => b <= a /\ (a < 4 -> b < a)) l.

Lemma Qle_neq_lt (a b : Q) : a <= b -> Qeq_bool a b = false -> a < b.
Proof.
  intros Hle Hne. destruct (Qlt_le_dec a b) as [H | H]; [exact H |].
  assert (Heq : a == b) by lra. apply Qeq_bool_iff in Heq. congruence.
Qed.

Lemma highest_valid_qL_halves (q : Q) :
  (1 # 64) <= q -> q < 4 ->
  exists pf, AnalyticEngine.highest_valid_qL q = Some pf /\
             note_value pf /\
             (pf == q \/ (pf < q /\ q < 2 * pf /\ (1 # 64) <= pf)).
Proof.
  intros Hq H4. unfold AnalyticEngine.highest_valid_qL.
  destruct (existsb (Qeq_bool q) AnalyticEngine.list_of_durations) eqn:Ein.
  - exists q. split; [reflexivity |]. split; [| left; reflexivity].
    left. unfold AnalyticEngine.list_of_durations in Ein.
    cbn [existsb] in *. rewrite !orb_true_iff in *.
    destruct Ein as [H | [H | [H | [H | [H | [H | [H | [H | [H | H]]]]]]]]];
      try (rewrite H; tauto).
    apply Qeq_bool_iff in H. lra.
  - unfold AnalyticEngine.list_of_durations in *. cbn [existsb] in Ein.
    repeat (apply orb_false_elim in Ein; destruct Ein as [? Ein]).
    cbn [find].
    repeat match goal with
           | |- context [Qltb ?a q] =>
             let E := fresh "E" in
             destruct (Qltb a q) eqn:E;
             [ apply Qltb_lt in E; eexists; split; [reflexivity |];
               split; [left; reflexivity
                      | right; split; [exact E | split; lra]]
             | apply Qltb_ge in E;
               match goal with
               | Hne : Qeq_bool q a = false |- _ =>
                 pose proof (Qle_neq_lt q a E Hne); clear E Hne
               end ]
           end.
    lra.
Qed.

Lemma note_value_bounds (d : Q) : note_value d -> 0 <= d /\ d <= 4.
Proof.
  intros [H | [H0 H1]]; [| split; lra].
  cbn [existsb] in H. rewrite !orb_true_iff in H.
  destruct H as [H | [H | [H | [H | [H | [H | [H | [H | [H | H]]]]]]]]];
    try discriminate; apply Qeq_bool_iff in H; split; lra.
Qed.

Lemma the_solver_values (fuel : nat) :
  forall q : Q,
    0 <= q -> (Z.to_nat (Qfloor (64 * q)) < fuel)%nat ->
    exists l,
      AnalyticEngine.the_solver fuel q = Ret l /\
      Forall note_value l /\ descending l /\ Forall (fun d => d <= q) l.
Proof.
  assert (Hone : forall q d : Q,
             note_value d -> d <= q ->
             Forall note_value [d] /\ descending [d] /\
             Forall (fun d => d <= q) [d]).
  { intros q d Hd Hle. split; [constructor; [exact Hd | constructor] |].
    split; [apply neighbours_one | constructor; [exact Hle | constructor]]. }
  induction fuel as [| fuel IH]; intros q Hq Hfuel; [lia |].
  cbn [AnalyticEngine.the_solver].
  destruct (Qeq_bool 4 q) eqn:E4.
  { apply Qeq_bool_iff in E4. exists [4]. split; [reflexivity |].
    apply Hone; [left; reflexivity | lra]. }
  apply Qeq_bool_false_neq in E4.
  destruct (Qltb q 4) eqn:Elt; cbn [andb].
  - apply Qltb_lt in Elt.
    assert (E0 : Qle_bool 0 q = true) by (apply Qle_bool_iff; exact Hq).
    rewrite E0.
    destruct (Qltb q (1 # 64)) eqn:Esmall.
    { apply Qltb_lt in Esmall. exists [q]. split; [reflexivity |].
      apply Hone; [right; split; lra | lra]. }
    apply Qltb_ge in Esmall.
    destruct (highest_valid_qL_halves q Esmall Elt)
      as (pf & -> & Hpf & [Heq | (Hlt & Hdouble & Hpf64)]).
    + assert (E : Qeq_bool pf q = true) by (apply Qeq_bool_iff; exact Heq).
      rewrite E. exists [q]. split; [reflexivity |].
      apply Hone; [| lra].
      destruct Hpf as [H | [H0 H1]]; [left | right; split; lra].
      rewrite <- H. apply eq_true_iff_eq. rewrite !existsb_exists.
      split; intros (x & Hx & Hxe); exists x; (split; [exact Hx |]);
        apply Qeq_bool_iff; apply Qeq_bool_iff in Hxe; lra.
    + assert (E : Qeq_bool pf q = false).
      { destruct (Qeq_bool pf q) eqn:E; [| reflexivity].
        apply Qeq_bool_iff in E. lra. }
      rewrite E.
      pose proof (note_value_bounds pf Hpf) as [Hpf0 Hpf4].
      destruct (IH (q - pf)) as (l & Hrun & Hall & Hdesc & Hle).
      * lra.
      * apply solver_measure_decreases; [lra | exact Hpf64 | exact Hfuel].
      * rewrite Hrun. exists (pf :: l). split; [reflexivity |].
        split; [constructor; assumption |]. split.
        -- destruct l as [| d l]; [apply neighbours_one |].
           apply neighbours_cons; [| exact Hdesc].
           apply Forall_cons in Hle as [Hd _]. split; [lra | intros _; lra].
        -- constructor; [lra |].
           eapply List.Forall_impl; [| exact Hle]. cbn. intros d Hd. lra.
  - apply Qltb_ge in Elt.
    assert (Hgt : 4 < q).
    { destruct (Qlt_le_dec 4 q) as [H | H]; [exact H |].
      exfalso. apply E4. lra. }
    assert (Egt : Qltb 4 q = true) by (apply Qltb_lt; exact Hgt).
    rewrite Egt.
    destruct (IH (q - 4)) as (l & Hrun & Hall & Hdesc & Hle).
    + lra.
    + apply solver_measure_decreases; [lra | lra | exact Hfuel].
    + rewrite Hrun. exists (4 :: l). split; [reflexivity |].
      split; [constructor; [left; reflexivity | exact Hall] |]. split.
      * destruct l as [| d l]; [apply neighbours_one |].
        apply neighbours_cons; [| exact Hdesc].
        apply Forall_cons in Hall as [Hd _].
        apply note_value_bounds in Hd. split; [lra | intros H; lra].
      * constructor; [lra |].
        eapply List.Forall_impl; [| exact Hle]. cbn. intros d Hd. lra.
Qed.

(** X3. For offsets [start_o <= end_o], every duration both copies of
    [fill_space_between_offsets] return is a whole note (4.0), one of its
    halves down to the 256th note, or a remainder below a 256th note; the
    durations come largest first, and no value below the whole note is used
    twice. *)
Theorem fill_space_note_values (start_o end_o : Q) :
  start_o <= end_o ->
  exists first others,
    AnalyticEngine.fill_space_between_offsets start_o end_o = Ret (first, others) /\
    LilyPondExperiment.fill_space_between_offsets start_o end_o = Ret (first, others) /\
    Forall note_value (first :: others) /\
    descending (first :: others).
Proof.
  intros Hle.
  assert (Hq : 0 <= end_o - start_o) by lra.
  destruct (the_solver_values (solver_fuel (end_o - start_o)) (end_o - start_o) Hq)
    as (l & Hrun & Hall & Hdesc & _).
  { unfold solver_fuel. lia. }
  destruct (the_solver_spec (solver_fuel (end_o - start_o)) (end_o - start_o) Hq)
    as (first & others & Hrun' & _).
  { unfold solver_fuel. lia. }
  assert (Hl : l = first :: others) by congruence. subst l.
  exists first, others.
  unfold AnalyticEngine.fill_space_between_offsets,
         LilyPondExperiment.fill_space_between_offsets.
  rewrite the_solver_copies_agree by exact Hq.
  rewrite Hrun. split; [reflexivity |]. split; [reflexivity |].
  split; assumption.
Qed.

Lemma fill_space_note_values_witness :
  exists first others,
    AnalyticEngine.fill_space_between_offsets (1 # 2) 7 = Ret (first, others) /\
    LilyPondExperiment.fill_space_between_offsets (1 # 2) 7 = Ret (first, others) /\
    Forall note_value (first :: others) /\
    descending (first :: others).
Proof.
  apply (fill_space_note_values (1 # 2) 7).
  unfold Qle; simpl; lia.
Defined.

(** ** [analytic_engine.vis_these_parts]: ends, edges and bookkeeping *)

Lemma toy_Interval_ends (a b : option Music21.Note) : ends (ToyMusic21.Interval_ a b).
Proof.
  unfold ToyMusic21.Interval_. destruct a as [a |], b as [b |]; try discriminate.
  destruct (ToyMusic21.numbers _) as [[d1 m1] |]; [| discriminate].
  destruct (ToyMusic21.numbers _) as [[d2 m2] |]; discriminate.
Qed.



(** X5. [vis_these_parts] needs both parts to hold something.  Of two
    empty parts the loop takes no turn, and the [return] raises
    [UnboundLocalError]: it reads [list_of_lilypond_parts], which only a
    turn of the loop binds.  When exactly one part is empty the first turn
    raises [IndexError], whatever the settings. *)
Theorem engine_empty_parts
    (Interval_ : option Music21.Note -> option Music21.Note -> outcome Music21.Interval)
    (Interval_eq : Music21.Interval -> Music21.Interval -> bool)
    (NGram : Type)
    (NGram_ : list AnalyticEngine.moment -> bool -> string -> outcome NGram)
    (the_settings : AnalyticEngine.VIS_Settings)
    (x : Music21.GeneralNote) (xs : list Music21.GeneralNote) :
  AnalyticEngine.vis_these_parts Interval_ Interval_eq NGram NGram_ the_settings
                                 [] [] = Raise UnboundLocalError /\
  AnalyticEngine.vis_these_parts Interval_ Interval_eq NGram NGram_ the_settings
                                 (x :: xs) [] = Raise IndexError /\
  AnalyticEngine.vis_these_parts Interval_ Interval_eq NGram NGram_ the_settings
                                 [] (x :: xs) = Raise IndexError.
Proof.
  split; [reflexivity |]. split; reflexivity.
Qed.

Section EngineBooks.
Import Music21 AnalyticEngine.

Variable Interval_ : option Note -> option Note -> outcome Interval.
Variable Interval_eq : Interval -> Interval -> bool.
Variable NGram : Type.
Variable NGram_ : list moment -> bool -> string -> outcome NGram.
Variable the_settings : VIS_Settings.
Variable higher_part lower_part : list GeneralNote.

(** The intervals of a history, in order. *)
Definition intervals_of (history : list moment) : list Interval :=
  flat_map (fun m => match m with MInterval iv => [iv] | MRest => [] end) history.

Lemma intervals_of_app (h1 h2 : list moment) :
  intervals_of (h1 ++ h2) = intervals_of h1 ++ intervals_of h2.
Proof. unfold intervals_of. apply flat_map_app. Qed.

Lemma py_max_comm (a b : Q) : py_max a b == py_max b a.
Proof.
  unfold py_max. destruct (Qltb a b) eqn:E1, (Qltb b a) eqn:E2;
    try apply Qltb_lt in E1; try apply Qltb_lt in E2;
    try apply Qltb_ge in E1; try apply Qltb_ge in E2; lra.
Qed.

(** What "Process this moment for intervals" hands on, in full. *)
Lemma process_intervals_books (lower higher : GeneralNote) (st : engine_state NGram)
    (contin : bool) (history : list moment) (intervals : list Interval)
    (offset_now : option Q) :
  process_intervals Interval_ Interval_eq NGram lower higher st
  = Ret (contin, history, intervals, offset_now) ->
  (intervals_of history = intervals_of (interval_history st) /\
   intervals = add_interval_calls st /\ offset_now = current_offset st) \/
  (exists this_interval o,
     history = interval_history st ++ [MInterval this_interval] /\
     intervals = add_interval_calls st ++ [this_interval] /\
     offset_now = Some o /\ o == interval_offset this_interval).
Proof.
  unfold process_intervals. intros H.
  destruct higher as [h | ? ?], lower as [l | ? ?];
    try (injection H as _ <- <- <-; left; rewrite intervals_of_app, app_nil_r;
         repeat split; reflexivity).
  destruct (Interval_ (Some l) (Some h)) as [iv | |]; try discriminate.
  cbn [mbind outcome_bind] in H.
  destruct (same_as_previous Interval_eq _ (interval_history st))
    as [[|] | |]; try discriminate; cbn [mbind outcome_bind] in H.
  - injection H as _ <- <- <-. left. repeat split; reflexivity.
  - injection H as _ <- <- <-. right. eexists _, _.
    split; [reflexivity |]. split; [reflexivity |]. split; [reflexivity |].
    cbn [set_offset interval_offset]. apply py_max_comm.
Qed.

(** The intervals counted are those of the history; the current offset is
    that of the interval counted last. *)
Definition books_ok (st : engine_state NGram) : Prop :=
  add_interval_calls st = intervals_of (interval_history st) /\
  match current_offset st with
  | None => add_interval_calls st = []
  | Some o => exists iv, last_opt (add_interval_calls st) = Some iv /\
                         o == interval_offset iv
  end.

Lemma books_ok_step (st st' : engine_state NGram) :
  books_ok st ->
  vis_these_parts_body Interval_ Interval_eq NGram NGram_ the_settings
                       higher_part lower_part st = Ret st' ->
  books_ok st'.
Proof.
  intros [Hcalls Hoffset] Hbody.
  destruct (vis_these_parts_body_inv Interval_ Interval_eq NGram NGram_ the_settings
              higher_part lower_part st st' Hbody)
    as (lower & higher & contin & contin' & Hint & _).
  assert (Hcases :
            (intervals_of (interval_history st') = intervals_of (interval_history st) /\
             add_interval_calls st' = add_interval_calls st /\
             current_offset st' = current_offset st) \/
            (exists this_interval o,
               interval_history st' = interval_history st ++ [MInterval this_interval] /\
               add_interval_calls st' = add_interval_calls st ++ [this_interval] /\
               current_offset st' = Some o /\ o == interval_offset this_interval)).
  { destruct contin.
    - exact (process_intervals_books _ _ _ _ _ _ _ Hint).
    - injection Hint as _ <- <- <-. left. repeat split; reflexivity. }
  unfold books_ok.
  destruct Hcases as [(Hh & Hc & Ho) | (this & o & Hh & Hc & Ho & Hoff)].
  - rewrite Hh, Hc, Ho. split; assumption.
  - rewrite Hh, Hc, Ho, intervals_of_app, Hcalls. split; [reflexivity |].
    exists this. split; [apply last_opt_snoc | exact Hoff].
Qed.

Lemma vis_these_parts_books_ok (st : engine_state NGram) :
  vis_these_parts Interval_ Interval_eq NGram NGram_ the_settings
                  higher_part lower_part = Ret st ->
  books_ok st.
Proof.
  intros Hrun. apply vis_these_parts_returns in Hrun. revert Hrun.
  apply (vis_these_parts_loop_inv Interval_ Interval_eq NGram NGram_ the_settings
           higher_part lower_part books_ok).
  - apply books_ok_step.
  - split; reflexivity.
Qed.
End EngineBooks.

Arguments books_ok {NGram} st.

(** X6. When [vis_these_parts] returns, the intervals handed to
    [add_interval] are the intervals of [interval_history], in the same
    order, and [current_offset] is the offset of the interval counted last
    ([None] when none was counted). *)
Theorem engine_counts_the_history
    (Interval_ : option Music21.Note -> option Music21.Note -> outcome Music21.Interval)
    (Interval_eq : Music21.Interval -> Music21.Interval -> bool)
    (NGram : Type)
    (NGram_ : list AnalyticEngine.moment -> bool -> string -> outcome NGram)
    (the_settings : AnalyticEngine.VIS_Settings)
    (higher_part lower_part : list Music21.GeneralNote)
    (st : AnalyticEngine.engine_state NGram) :
  AnalyticEngine.vis_these_parts Interval_ Interval_eq NGram NGram_ the_settings
                                 higher_part lower_part = Ret st ->
  AnalyticEngine.add_interval_calls st
  = intervals_of (AnalyticEngine.interval_history st) /\
  match AnalyticEngine.current_offset st with
  | None => AnalyticEngine.add_interval_calls st = []
  | Some o =>
    exists iv, last_opt (AnalyticEngine.add_interval_calls st) = Some iv /\
               o == Music21.interval_offset iv
  end.
Proof.
  intros Hst.
  exact (vis_these_parts_books_ok _ _ _ _ _ _ _ st Hst).
Qed.

Lemma engine_counts_the_history_witness :
  exists st,
    AnalyticEngine.vis_these_parts ToyMusic21.Interval_ ToyMusic21.Interval_eqb _
      listed_NGram half_beat_settings rest_high rest_low = Ret st /\
    AnalyticEngine.add_interval_calls st
    = intervals_of (AnalyticEngine.interval_history st) /\
    match AnalyticEngine.current_offset st with
    | None => AnalyticEngine.add_interval_calls st = []
    | Some o =>
      exists iv, last_opt (AnalyticEngine.add_interval_calls st) = Some iv /\
                 o == Music21.interval_offset iv
    end.
Proof.
  eexists. split; [vm_compute; reflexivity |].
  apply (engine_counts_the_history ToyMusic21.Interval_ ToyMusic21.Interval_eqb _
           listed_NGram half_beat_settings rest_high rest_low).
  vm_compute. reflexivity.
Defined.

(** ** [intsec.NGram]: construction *)

Lemma mapM_Ret_inv {A B : Type} (f : A -> outcome B) (l : list A) :
  forall ys : list B,
    mapM f l = Ret ys ->
    List.length ys = List.length l /\
    forall (i : nat) (x : A),
      nth_error l i = Some x ->
      exists y, nth_error ys i = Some y /\ f x = Ret y.
Proof.
  induction l as [| a l IH]; intros ys H; cbn [mapM] in H.
  - injection H as <-. split; [reflexivity |]. intros [| i] x Hx; discriminate.
  - destruct (f a) as [b | |] eqn:Ea; try discriminate.
    cbn [mbind outcome_bind] in H.
    destruct (mapM f l) as [bs | |] eqn:El; try discriminate.
    cbn [mbind outcome_bind] in H. injection H as <-.
    destruct (IH bs eq_refl) as [Hlen Hnth].
    split; [cbn; lia |].
    intros [| i] x Hx.
    + injection Hx as <-. exists b. split; [reflexivity | exact Ea].
    + apply Hnth, Hx.
Qed.

Section NGramInit.
Import Music21 Intsec.

Variable Interval_ : option Note -> option Note -> outcome Interval.

Lemma _calculateMovements_refuses (intervals : list Interval) (eachInterval : Interval) :
  In eachInterval intervals ->
  noteStart eachInterval = None \/ noteEnd eachInterval = None ->
  exists msg, _calculateMovements Interval_ intervals = Raise (NonsensicalInputError msg).
Proof.
  intros Hin Hnone. unfold _calculateMovements.
  destruct (forallb _ intervals) eqn:E; [| eexists; reflexivity].
  rewrite forallb_forall in E. specialize (E eachInterval Hin).
  apply andb_prop in E as [Hs He].
  apply bool_decide_eq_true in Hs, He.
  destruct Hnone as [H | H]; rewrite H in *;
    [destruct Hs as [? Hs]; discriminate | destruct He as [? He]; discriminate].
Qed.

Lemma _calculateMovements_inv (intervals movements : list Interval) :
  _calculateMovements Interval_ intervals = Ret movements ->
  Forall (fun iv => is_Some (noteStart iv) /\ is_Some (noteEnd iv)) intervals /\
  List.length movements = (List.length intervals - 1)%nat /\
  forall (i : nat) (this next : Interval),
    nth_error intervals i = Some this ->
    nth_error intervals (S i) = Some next ->
    exists move, nth_error movements i = Some move /\
                 Interval_ (lower_note this) (lower_note next) = Ret move.
Proof.
  unfold _calculateMovements. intros H.
  destruct (forallb _ intervals) eqn:E; [| discriminate].
  split.
  { apply List.Forall_forall. intros iv Hiv.
    rewrite forallb_forall in E. specialize (E iv Hiv).
    apply andb_prop in E as [Hs He].
    apply bool_decide_eq_true in Hs, He. split; assumption. }
  destruct (mapM_Ret_inv _ _ _ H) as [Hlen Hnth].
  rewrite length_seq in Hlen. split; [exact Hlen |].
  intros i this next Hthis Hnext.
  assert (Hi : (S i < List.length intervals)%nat)
    by (apply nth_error_Some; congruence).
  destruct (Hnth i i) as (move & Hmove & Hrun).
  { rewrite nth_error_seq.
    destruct (Nat.ltb_spec i (List.length intervals - 1)); [reflexivity | lia]. }
  exists move. split; [exact Hmove |].
  rewrite (py_index_nat _ _ _ Hthis) in Hrun. cbn [mbind outcome_bind] in Hrun.
  replace (Z.of_nat i + 1)%Z with (Z.of_nat (S i)) in Hrun by lia.
  rewrite (py_index_nat _ _ _ Hnext) in Hrun. exact Hrun.
Qed.
End NGramInit.

(** X7. [NGram( someIntervals, heedQuality )] raises
    [NonsensicalInputError] as soon as one interval lacks a note at either
    end, whatever music21 does.  An NGram it returns holds the intervals it
    was given, [n] of them, and [n - 1] movements, the i-th being music21's
    interval from the lower note of interval i to the lower note of interval
    i + 1. *)
Theorem ngram_init_movements
    (Interval_ : option Music21.Note -> option Music21.Note -> outcome Music21.Interval)
    (someIntervals : list Music21.Interval) (heedQuality : bool) :
  (forall eachInterval,
     In eachInterval someIntervals ->
     Music21.noteStart eachInterval = None \/ Music21.noteEnd eachInterval = None ->
     exists msg, Intsec.__init__ Interval_ someIntervals heedQuality
                 = Raise (NonsensicalInputError msg)) /\
  (forall ng,
     Intsec.__init__ Interval_ someIntervals heedQuality = Ret ng ->
     Intsec._heedQuality ng = heedQuality /\
     Intsec._n ng = List.length someIntervals /\
     Intsec._listOfIntervals ng = someIntervals /\
     List.length (Intsec._listOfMovements ng) = (List.length someIntervals - 1)%nat /\
     forall (i : nat) (this next : Music21.Interval),
       nth_error someIntervals i = Some this ->
       nth_error someIntervals (S i) = Some next ->
       exists move,
         nth_error (Intsec._listOfMovements ng) i = Some move /\
         Interval_ (Intsec.lower_note this) (Intsec.lower_note next) = Ret move).
Proof.
  split.
  - intros iv Hin Hnone. unfold Intsec.__init__.
    destruct (_calculateMovements_refuses Interval_ someIntervals iv Hin Hnone)
      as [msg ->].
    exists msg. reflexivity.
  - intros ng H. unfold Intsec.__init__ in H.
    destruct (Intsec._calculateMovements Interval_ someIntervals)
      as [movements | |] eqn:E; try discriminate.
    cbn [mbind outcome_bind] in H. injection H as <-.
    destruct (_calculateMovements_inv Interval_ _ _ E) as (_ & Hlen & Hnth).
    cbn. repeat split; assumption.
Qed.

Lemma ngram_init_movements_witness :
  exists ng,
    Intsec.__init__ ToyMusic21.Interval_
      (Intsec._listOfIntervals third_to_third) false = Ret ng /\
    Intsec._n ng = 2%nat /\
    List.length (Intsec._listOfMovements ng) = 1%nat.
Proof.
  eexists. split; [vm_compute; reflexivity |].
  destruct (proj2 (ngram_init_movements ToyMusic21.Interval_
                     (Intsec._listOfIntervals third_to_third) false) _
                  ltac:(vm_compute; reflexivity))
    as (_ & Hn & _ & Hlen & _).
  split; [exact Hn | exact Hlen].
Defined.

(** ** [NGram.stringVersion]: the label, token by token *)

Section LabelTokens.
Import Music21 Intsec.

Variable self : NGram.
Variable simpleOrCompound : string.
Variable heedQuality : bool.

(** An interval as the label shows it. *)
Definition shown (iv : Interval) : string :=
  let nm := if String.eqb "simple" simpleOrCompound then semiSimpleName iv else name iv in
  if heedQuality then nm else py_tail nm.

(** A movement of the lower voice as the label shows it. *)
Definition signed (move : Interval) : string :=
  (if (1 =? direction move)%Z then "+"
   else if (-1 =? direction move)%Z then "-" else "") +:+ shown move.

(** The tokens of a label: every interval, followed by the movement of the
    same index when there is one. *)
Fixpoint label_tokens (intervals movements : list Interval) : list string :=
  match intervals with
  | [] => []
  | iv :: intervals' =>
    match movements with
    | move :: movements' => shown iv :: signed move :: label_tokens intervals' movements'
    | [] => shown iv :: label_tokens intervals' []
    end
  end.

(** [post] with the tokens that follow it. *)
Definition continued (post : string) (tokens : list string) : string :=
  match tokens with
  | [] => post
  | _ :: _ =>
    if (0 <? String.length post)%nat
    then post +:+ " " +:+ String.concat " " tokens
    else String.concat " " tokens
  end.

Hypothesis Hkind :
  simpleOrCompound = "simple" \/ simpleOrCompound = "compound".

Lemma name_for_shown (iv : Interval) :
  exists nm, name_for simpleOrCompound iv = Ret nm /\
             (if heedQuality then nm else py_tail nm) = shown iv.
Proof using Hkind.
  unfold name_for, shown. destruct Hkind as [-> | ->]; cbn [String.eqb];
    eexists; split; reflexivity.
Qed.

Lemma length_append_pos (s t : string) :
  (0 <? String.length s)%nat = true -> (0 <? String.length (s +:+ t))%nat = true.
Proof. destruct s; [discriminate | reflexivity]. Qed.

Lemma length_pos_nonempty (s : string) :
  s <> EmptyString -> (0 <? String.length s)%nat = true.
Proof. destruct s; [congruence | reflexivity]. Qed.

Lemma concat_cons2 (a b : string) (l : list string) :
  String.concat " " (a :: b :: l) = a +:+ " " +:+ String.concat " " (b :: l).
Proof. reflexivity. Qed.

Lemma skipn_nth_error {A : Type} (l : list A) (i : nat) :
  skipn i l = match nth_error l i with
              | Some x => x :: skipn (S i) l
              | None => []
              end.
Proof.
  revert i. induction l as [| a l IH]; intros [| i]; try reflexivity.
  cbn [skipn nth_error]. rewrite IH. destruct (nth_error l i); reflexivity.
Qed.

(** One turn of the loop: the interval, then its movement. *)
Lemma stringVersion_body_tokens (i : nat) (post : string) (iv : Interval) :
  nth_error (_listOfIntervals self) i = Some iv ->
  stringVersion_body self simpleOrCompound heedQuality post i
  = Ret (let post1 := (if (0 <? String.length post)%nat then post +:+ " " else post)
                      +:+ shown iv in
         match nth_error (_listOfMovements self) i with
         | Some move => post1 +:+ " " +:+ signed move
         | None => post1
         end).
Proof using Hkind.
  intros Hiv. unfold stringVersion_body.
  cbn zeta.
  rewrite (py_index_nat _ _ _ Hiv). cbn [mbind outcome_bind].
  destruct (name_for_shown iv) as (nm & -> & Hnm). cbn [mbind outcome_bind].
  rewrite Hnm.
  destruct (nth_error (_listOfMovements self) i) as [move |]; [| reflexivity].
  destruct (name_for_shown move) as (zzz & -> & Hshown).
  cbn [mbind outcome_bind]. rewrite Hshown. unfold signed.
  destruct (1 =? direction move)%Z; [| destruct (-1 =? direction move)%Z];
    rewrite !append_assoc; reflexivity.
Qed.

Lemma stringVersion_loop_tokens (rest : list Interval) :
  forall (i : nat) (post : string),
    skipn i (_listOfIntervals self) = rest ->
    (post = EmptyString ->
     match rest with iv :: _ => shown iv <> EmptyString | [] => True end) ->
    foldM (stringVersion_body self simpleOrCompound heedQuality) post
          (seq i (List.length rest))
    = Ret (continued post (label_tokens rest (skipn i (_listOfMovements self)))).
Proof using Hkind.
  induction rest as [| iv rest IH]; intros i post Hskip Hfirst; [reflexivity |].
  cbn [List.length seq foldM].
  assert (Hiv : nth_error (_listOfIntervals self) i = Some iv).
  { rewrite skipn_nth_error in Hskip.
    destruct (nth_error (_listOfIntervals self) i); [congruence | discriminate]. }
  assert (Hrest : skipn (S i) (_listOfIntervals self) = rest).
  { rewrite skipn_nth_error, Hiv in Hskip. congruence. }
  rewrite (stringVersion_body_tokens i post iv Hiv). cbn [mbind outcome_bind].
  cbn zeta.
  assert (Hpost1 : (0 <? String.length
                           ((if (0 <? String.length post)%nat
                             then post +:+ " " else post) +:+ shown iv))%nat = true).
  { destruct (0 <? String.length post)%nat eqn:E.
    - apply length_append_pos, length_append_pos, E.
    - apply length_pos_nonempty.
      assert (Hp : post = EmptyString) by (destruct post; [reflexivity | discriminate]).
      rewrite Hp. cbn. apply Hfirst, Hp. }
  rewrite (skipn_nth_error (_listOfMovements self) i).
  destruct (nth_error (_listOfMovements self) i) as [move |] eqn:Emove.
  - rewrite (IH (S i) _ Hrest).
    2:{ intros Hp. pose proof (length_append_pos _ (" " +:+ signed move) Hpost1) as Hl.
        rewrite Hp in Hl. discriminate. }
    f_equal. cbn [label_tokens].
    unfold continued at 2. unfold continued at 1.
    rewrite (length_append_pos _ (" " +:+ signed move) Hpost1).
    destruct post as [| c post];
      destruct (label_tokens rest (skipn (S i) (_listOfMovements self)));
      cbn [String.length Nat.ltb Nat.leb];
      rewrite ?concat_cons2; cbn [String.concat];
      rewrite ?append_assoc; reflexivity.
  - rewrite (IH (S i) _ Hrest).
    2:{ intros Hp. rewrite Hp in Hpost1. discriminate. }
    f_equal.
    assert (Hnone : skipn (S i) (_listOfMovements self) = []).
    { apply skipn_all2. apply nth_error_None in Emove. lia. }
    rewrite Hnone. cbn [label_tokens].
    unfold continued at 2. unfold continued at 1.
    rewrite Hpost1.
    destruct post as [| c post];
      destruct (label_tokens rest []);
      cbn [String.length Nat.ltb Nat.leb];
      rewrite ?concat_cons2; cbn [String.concat];
      rewrite ?append_assoc; reflexivity.
Qed.
End LabelTokens.

(** X8. With [simpleOrCompound] one of ['simple'] and ['compound'], and a
    first interval whose printed name is not empty, [stringVersion] returns
    the printed names of the intervals, each followed by the movement of the
    same index (when there is one) with ['+'] before an ascending and ['-']
    before a descending one, all joined by single spaces. *)
Theorem ngram_label_tokens (self : Intsec.NGram) (simpleOrCompound : string)
    (heedQuality : bool) :
  simpleOrCompound = "simple" \/ simpleOrCompound = "compound" ->
  match Intsec._listOfIntervals self with
  | iv :: _ => shown simpleOrCompound heedQuality iv <> EmptyString
  | [] => True
  end ->
  Intsec.stringVersion self simpleOrCompound (Some heedQuality)
  = Ret (String.concat " "
           (label_tokens simpleOrCompound heedQuality
                         (Intsec._listOfIntervals self)
                         (Intsec._listOfMovements self))).
Proof.
  intros Hkind Hfirst.
  cbv beta iota zeta delta [Intsec.stringVersion default from_option id].
  rewrite (stringVersion_loop_tokens self simpleOrCompound heedQuality Hkind
             (Intsec._listOfIntervals self) 0 EmptyString eq_refl (fun _ => Hfirst)).
  cbn [skipn]. unfold continued.
  destruct (label_tokens _ _ _ _); reflexivity.
Qed.

Lemma ngram_label_tokens_witness :
  Intsec.stringVersion third_to_third "compound" (Some true)
  = Ret (String.concat " "
           (label_tokens "compound" true
                         (Intsec._listOfIntervals third_to_third)
                         (Intsec._listOfMovements third_to_third))).
Proof.
  apply (ngram_label_tokens third_to_third "compound" true).
  - right. reflexivity.
  - simpl. discriminate.
Defined.

Example third_to_third_quality_label :
  Intsec.stringVersion third_to_third "compound" (Some true) = Ret "M3 +M2 m3".
Proof. reflexivity. Qed.

(** X9. An argument [simpleOrCompound] that is neither ['simple'] nor
    ['compound'] makes [stringVersion] raise [NonsensicalInputError] when
    the NGram holds at least one interval; of an NGram without intervals the
    label is the empty string, whatever the argument. *)
Theorem ngram_label_bad_kind (self : Intsec.NGram) (simpleOrCompound : string)
    (heedQuality : option bool) :
  simpleOrCompound <> "simple" -> simpleOrCompound <> "compound" ->
  match Intsec._listOfIntervals self with
  | [] => Intsec.stringVersion self simpleOrCompound heedQuality = Ret EmptyString
  | _ :: _ =>
    exists msg, Intsec.stringVersion self simpleOrCompound heedQuality
                = Raise (NonsensicalInputError msg)
  end.
Proof.
  intros Hs Hc. unfold Intsec.stringVersion.
  destruct (Intsec._listOfIntervals self) as [| iv ivs] eqn:E; [reflexivity |].
  cbn [List.length seq foldM].
  assert (Hbody : forall (hq : bool) (post : string),
             exists msg, Intsec.stringVersion_body self simpleOrCompound hq post 0
                         = Raise (NonsensicalInputError msg)).
  { intros hq post. unfold Intsec.stringVersion_body. cbn zeta.
    rewrite (py_index_nat (Intsec._listOfIntervals self) 0 iv)
      by (rewrite E; reflexivity).
    cbn [mbind outcome_bind]. unfold Intsec.name_for.
    destruct (String.eqb_spec "simple" simpleOrCompound) as [<- | _]; [congruence |].
    destruct (String.eqb_spec "compound" simpleOrCompound) as [<- | _]; [congruence |].
    eexists. reflexivity. }
  destruct (Hbody (default (Intsec._heedQuality self) heedQuality) EmptyString)
    as [msg ->].
  exists msg. reflexivity.
Qed.

Lemma ngram_label_bad_kind_witness :
  exists msg, Intsec.stringVersion third_to_third "both" None
              = Raise (NonsensicalInputError msg).
Proof.
  apply (ngram_label_bad_kind third_to_third "both" None); discriminate.
Defined.

(** ** [intsec.visTheseParts]: ends, and which n-grams it counts *)

(** X10. With a music21 whose [Interval] returns or raises,
    [visTheseParts] returns or raises: the loop samples the offsets 0, 0.5,
    ... up to the highest offset of the two parts and stops. *)
Theorem aligner_returns_or_raises
    (Interval_ : option Music21.Note -> option Music21.Note -> outcome Music21.Interval)
    (hfn lfn : list Music21.Note) :
  (forall a b, Interval_ a b <> Diverge) ->
  Intsec.visTheseParts Interval_ hfn lfn <> Diverge.
Proof.
  intros HInterval. exact (visTheseParts_ends Interval_ hfn lfn HInterval).
Qed.

Lemma aligner_returns_or_raises_witness :
  Intsec.visTheseParts ToyMusic21.Interval_ late_high late_low <> Diverge.
Proof.
  apply (aligner_returns_or_raises ToyMusic21.Interval_ late_high late_low).
  apply toy_Interval_ends.
Defined.

(** The neighbours of a list, in pairs: [zip(l, l[1:])]. *)
Definition pairs_of {A : Type} (l : list A) : list (A * A) := combine l (tl l).

Lemma pairs_of_snoc {A : Type} (l : list A) (r c : A) :
  pairs_of ((l ++ [r]) ++ [c]) = pairs_of (l ++ [r]) ++ [(r, c)].
Proof.
  unfold pairs_of. induction l as [| a l IH]; [reflexivity |].
  destruct l as [| b l]; [reflexivity |].
  cbn [app tl combine] in *. rewrite IH. reflexivity.
Qed.

Lemma last_opt_inv {A : Type} (l : list A) (x : A) :
  last_opt l = Some x -> exists l', l = l' ++ [x].
Proof.
  unfold last_opt. intros H. destruct (rev l) as [| y r] eqn:E; [discriminate |].
  injection H as ->. exists (rev r).
  apply (f_equal (@rev A)) in E. rewrite rev_involutive in E. exact E.
Qed.

Section NGramsOfRows.
Import Music21 Intsec.

Variable Interval_ : option Note -> option Note -> outcome Interval.
Variable hfn lfn : list Note.

(** music21 makes an interval of two notes only. *)
Hypothesis Hrefuses :
  forall a b iv, Interval_ a b = Ret iv -> is_Some a /\ is_Some b.

Lemma voice_step_previous (notes : list Note) (o : Q) (m : option Note)
    (p : list Note) (m' : option Note) (p' : list Note) (u : bool) :
  voice_step notes o m p = (m', p', u) ->
  p' = (if u then append_if_note p m else p) /\ (u = false -> m' = m).
Proof.
  unfold voice_step. intros H.
  destruct (getElementsByOffset notes o) as [| gebo rest];
    [injection H as <- <- <-; split; reflexivity |].
  destruct (is_new_pitch m gebo); injection H as <- <- <-; split;
    try reflexivity; discriminate.
Qed.

(** One turn of the loop, with the n-gram it counts. *)
Lemma visTheseParts_body_ngram (st st' : vis_state) :
  visTheseParts_body Interval_ hfn lfn st = Ret st' ->
  forall ml pl lu mh ph hu,
    voice_step lfn (thisOffset st) (mostRecentLow st) (previousLows st) = (ml, pl, lu) ->
    voice_step hfn (thisOffset st) (mostRecentHigh st) (previousHighs st) = (mh, ph, hu) ->
    if lu || hu
    then exists iv,
        Interval_ ml mh = Ret iv /\
        if bool_decide (1 <= List.length (previousLows st'))%nat &&
           bool_decide (1 <= List.length (previousHighs st'))%nat
        then exists previous ngram,
            Interval_ (last_opt (previousLows st')) (last_opt (previousHighs st'))
            = Ret previous /\
            __init__ Interval_ [previous; iv] false = Ret ngram /\
            addNGram_calls st' = addNGram_calls st ++ [ngram]
        else addNGram_calls st' = addNGram_calls st
    else addNGram_calls st' = addNGram_calls st.
Proof.
  intros Hbody ml pl lu mh ph hu Hl Hh.
  unfold visTheseParts_body in Hbody.
  change (match getElementsByOffset lfn (thisOffset st) with
          | [] => (mostRecentLow st, previousLows st, false)
          | lfnGEBO :: _ =>
            if is_new_pitch (mostRecentLow st) lfnGEBO
            then (Some lfnGEBO, append_if_note (previousLows st) (mostRecentLow st), true)
            else (mostRecentLow st, previousLows st, false)
          end)
    with (voice_step lfn (thisOffset st) (mostRecentLow st) (previousLows st)) in Hbody.
  rewrite Hl in Hbody.
  change (match getElementsByOffset hfn (thisOffset st) with
          | [] => (mostRecentHigh st, previousHighs st, false)
          | hfnGEBO :: _ =>
            if is_new_pitch (mostRecentHigh st) hfnGEBO
            then (Some hfnGEBO, append_if_note (previousHighs st) (mostRecentHigh st), true)
            else (mostRecentHigh st, previousHighs st, false)
          end)
    with (voice_step hfn (thisOffset st) (mostRecentHigh st) (previousHighs st)) in Hbody.
  rewrite Hh in Hbody.
  destruct (lu || hu) eqn:Eany.
  - destruct (Interval_ ml mh) as [iv | |] eqn:Eiv; try discriminate.
    cbn [mbind outcome_bind] in Hbody. exists iv. split; [reflexivity |].
    change (2 - 1)%nat with 1%nat in Hbody.
    destruct (bool_decide _ && bool_decide _) eqn:Elen in Hbody.
    + destruct (Interval_ (last_opt _) (last_opt _)) as [previous | |] eqn:Eprev
        in Hbody; try discriminate.
      cbn [mbind outcome_bind] in Hbody.
      destruct (__init__ Interval_ _ false) as [ngram | |] eqn:Eng in Hbody;
        try discriminate.
      cbn [mbind outcome_bind] in Hbody. injection Hbody as <-.
      cbn [previousLows previousHighs addNGram_calls].
      rewrite Elen. exists previous, ngram. repeat split; assumption.
    + cbn [mbind outcome_bind] in Hbody. injection Hbody as <-.
      cbn [previousLows previousHighs addNGram_calls].
      rewrite Elen. reflexivity.
  - cbn [mbind outcome_bind] in Hbody. injection Hbody as <-. reflexivity.
Qed.

(** The record so far: every row was made of two notes; the previous notes
    are those of all rows but the last; the n-grams counted join each row
    to the next. *)
Definition ngrams_ok (st : vis_state) : Prop :=
  Forall (fun c => is_Some (low c) /\ is_Some (high c) /\
                   Interval_ (low c) (high c) = Ret (interval c))
         (addInterval_calls st) /\
  match last_opt (addInterval_calls st) with
  | Some c => low c = mostRecentLow st /\ high c = mostRecentHigh st
  | None => mostRecentLow st = None /\ mostRecentHigh st = None
  end /\
  Some <$> previousLows st = low <$> removelast (addInterval_calls st) /\
  Some <$> previousHighs st = high <$> removelast (addInterval_calls st) /\
  Forall2 (fun ngram rows =>
             _listOfIntervals ngram = [interval (fst rows); interval (snd rows)] /\
             _heedQuality ngram = false /\
             exists move,
               _listOfMovements ngram = [move] /\
               Interval_ (lower_note (interval (fst rows)))
                         (lower_note (interval (snd rows))) = Ret move)
          (addNGram_calls st) (pairs_of (addInterval_calls st)).

Lemma ngram_of_two (previous iv : Interval) (ngram : NGram) :
  __init__ Interval_ [previous; iv] false = Ret ngram ->
  _listOfIntervals ngram = [previous; iv] /\
  _heedQuality ngram = false /\
  exists move, _listOfMovements ngram = [move] /\
               Interval_ (lower_note previous) (lower_note iv) = Ret move.
Proof.
  intros H. unfold __init__ in H.
  destruct (_calculateMovements Interval_ [previous; iv]) as [movements | |] eqn:E;
    try discriminate.
  cbn [mbind outcome_bind] in H. injection H as <-.
  destruct (_calculateMovements_inv Interval_ _ _ E) as (_ & Hlen & Hnth).
  destruct (Hnth 0%nat previous iv eq_refl eq_refl) as (move & Hmove & Hrun).
  cbn [_listOfIntervals _heedQuality _listOfMovements].
  split; [reflexivity |]. split; [reflexivity |].
  exists move. split; [| exact Hrun].
  destruct movements as [| m [| m' ms]]; try discriminate.
  cbn in Hmove. congruence.
Qed.

Lemma ngrams_ok_step (st st' : vis_state) :
  ngrams_ok st -> visTheseParts_body Interval_ hfn lfn st = Ret st' -> ngrams_ok st'.
Proof.
  intros (Hrows & Hlast & Hpl & Hph & Hng) Hbody.
  destruct (voice_step lfn (thisOffset st) (mostRecentLow st) (previousLows st))
    as [[ml pl] lu] eqn:El.
  destruct (voice_step hfn (thisOffset st) (mostRecentHigh st) (previousHighs st))
    as [[mh ph] hu] eqn:Eh.
  destruct (visTheseParts_body_inv Interval_ hfn lfn st st' Hbody _ _ _ _ _ _ El Eh)
    as (_ & Hml & Hmh & Hpl' & Hph' & Hcalls).
  pose proof (visTheseParts_body_ngram st st' Hbody _ _ _ _ _ _ El Eh) as Hngram.
  destruct (voice_step_previous _ _ _ _ _ _ _ El) as [Hpl0 Hml0].
  destruct (voice_step_previous _ _ _ _ _ _ _ Eh) as [Hph0 Hmh0].
  unfold ngrams_ok.
  destruct (lu || hu) eqn:Eany.
  - destruct Hcalls as (iv & Hiv & Hcalls).
    destruct Hngram as (iv' & Hiv' & Hngram).
    assert (iv' = iv) by congruence. subst iv'.
    destruct (Hrefuses _ _ _ Hiv) as [[a Ha] [b Hb]].
    set (c := {| at_offset := thisOffset st; low := ml; high := mh; interval := iv |})
      in *.
    rewrite Hcalls, Hml, Hmh, last_opt_snoc, removelast_last.
    split.
    { apply Forall_app. split; [exact Hrows |]. constructor; [| constructor].
      cbn. rewrite Ha, Hb. repeat split; try (eexists; reflexivity).
      rewrite <- Ha, <- Hb. exact Hiv. }
    split; [split; reflexivity |].
    destruct (last_opt (addInterval_calls st)) as [r |] eqn:Er.
    + (* a row was counted before *)
      destruct Hlast as [Hlow Hhigh].
      destruct (last_opt_inv _ _ Er) as [rows Erows].
      assert (Hr : is_Some (low r) /\ is_Some (high r) /\
                   Interval_ (low r) (high r) = Ret (interval r)).
      { rewrite List.Forall_forall in Hrows. apply Hrows.
        rewrite Erows. apply in_or_app. right. left. reflexivity. }
      destruct Hr as ([x Hx] & [y Hy] & Hrun).
      assert (Hpl2 : previousLows st' = previousLows st ++ [x]).
      { rewrite Hpl', Hpl0. rewrite <- Hlow, Hx.
        destruct lu; cbn [negb andb append_if_note].
        - rewrite andb_false_r. reflexivity.
        - cbn in Eany. subst hu. cbn [andb].
          rewrite (Hml0 eq_refl), <- Hlow, Hx. reflexivity. }
      assert (Hph2 : previousHighs st' = previousHighs st ++ [y]).
      { rewrite Hph', Hph0. rewrite <- Hhigh, Hy.
        destruct hu; cbn [negb andb append_if_note].
        - rewrite andb_false_r. reflexivity.
        - rewrite orb_false_r in Eany. subst lu. cbn [andb].
          rewrite (Hmh0 eq_refl), <- Hhigh, Hy. reflexivity. }
      rewrite Hpl2, Hph2 in *.
      rewrite !fmap_app, Hpl, Hph. cbn [fmap list_fmap].
      rewrite Erows, removelast_last, !fmap_app. cbn [fmap list_fmap].
      rewrite Hx, Hy.
      split; [reflexivity |]. split; [reflexivity |].
      rewrite !length_app in Hngram. cbn [List.length] in Hngram.
      rewrite !bool_decide_eq_true_2 in Hngram by lia. cbn [andb] in Hngram.
      destruct Hngram as (previous & ngram & Hprev & Hinit & ->).
      rewrite !last_opt_snoc in Hprev.
      rewrite <- Hx, <- Hy, Hrun in Hprev. injection Hprev as <-.
      rewrite pairs_of_snoc. apply Forall2_app.
      * rewrite <- Erows. exact Hng.
      * constructor; [| constructor]. cbn [fst snd].
        apply ngram_of_two, Hinit.
    + (* the first row *)
      destruct Hlast as [Hlow Hhigh].
      assert (Hrows0 : addInterval_calls st = []) by (apply last_opt_nil, Er).
      rewrite Hrows0 in *. cbn [removelast fmap list_fmap] in Hpl, Hph.
      assert (Hp0 : previousLows st = []) by (destruct (previousLows st); [reflexivity | discriminate]).
      assert (Hq0 : previousHighs st = []) by (destruct (previousHighs st); [reflexivity | discriminate]).
      assert (Hlu : lu = true).
      { destruct lu; [reflexivity |]. rewrite (Hml0 eq_refl), Hlow in Ha. discriminate. }
      assert (Hhu : hu = true).
      { destruct hu; [reflexivity |]. rewrite (Hmh0 eq_refl), Hhigh in Hb. discriminate. }
      subst lu hu. cbn [negb andb] in *.
      rewrite Hpl', Hpl0, Hph', Hph0, Hp0, Hq0, Hlow, Hhigh in *.
      cbn [append_if_note List.length] in *.
      rewrite bool_decide_eq_false_2 in Hngram by lia. cbn [andb] in Hngram.
      rewrite Hngram. inversion Hng; subst.
      cbn. repeat split; constructor.
  - apply orb_false_elim in Eany as [-> ->].
    rewrite Hcalls, Hngram, Hml, Hmh, Hpl', Hph', Hpl0, Hph0.
    rewrite (Hml0 eq_refl), (Hmh0 eq_refl). cbn [negb andb].
    repeat split; assumption.
Qed.

Lemma visTheseParts_ngrams_ok (st : vis_state) :
  visTheseParts Interval_ hfn lfn = Ret st -> ngrams_ok st.
Proof.
  unfold visTheseParts. apply visTheseParts_loop_inv.
  - apply ngrams_ok_step.
  - unfold ngrams_ok. cbn. repeat split; constructor.
Qed.
End NGramsOfRows.

Lemma toy_Interval_refuses (a b : option Music21.Note) (iv : Music21.Interval) :
  ToyMusic21.Interval_ a b = Ret iv -> is_Some a /\ is_Some b.
Proof.
  unfold ToyMusic21.Interval_. destruct a, b; try discriminate.
  intros _. split; eexists; reflexivity.
Qed.

(** X11. With a music21 that makes an interval of two notes only, the
    n-grams [visTheseParts] hands to [addNGram] are the 2-grams of
    neighbouring rows, one for every row but the first and in the order of
    the rows: the intervals of the i-th n-gram are the interval counted in
    row i and the one counted in row i + 1, and its single movement is the
    interval between their lower notes. *)
Theorem aligner_ngrams_join_neighbouring_rows
    (Interval_ : option Music21.Note -> option Music21.Note -> outcome Music21.Interval)
    (hfn lfn : list Music21.Note) (st : Intsec.vis_state) :
  (forall a b iv, Interval_ a b = Ret iv -> is_Some a /\ is_Some b) ->
  Intsec.visTheseParts Interval_ hfn lfn = Ret st ->
  List.length (Intsec.addNGram_calls st)
  = (List.length (Intsec.addInterval_calls st) - 1)%nat /\
  Forall2 (fun ngram rows =>
             Intsec._listOfIntervals ngram
             = [Intsec.interval (fst rows); Intsec.interval (snd rows)] /\
             Intsec._heedQuality ngram = false /\
             exists move,
               Intsec._listOfMovements ngram = [move] /\
               Interval_ (Intsec.lower_note (Intsec.interval (fst rows)))
                         (Intsec.lower_note (Intsec.interval (snd rows))) = Ret move)
          (Intsec.addNGram_calls st)
          (pairs_of (Intsec.addInterval_calls st)).
Proof.
  intros Hrefuses Hst.
  destruct (visTheseParts_ngrams_ok Interval_ hfn lfn Hrefuses st Hst)
    as (_ & _ & _ & _ & Hng).
  split; [| exact Hng].
  apply Forall2_length in Hng. rewrite Hng. unfold pairs_of.
  rewrite length_combine.
  destruct (Intsec.addInterval_calls st) as [| c rows]; [reflexivity |].
  cbn [tl List.length]. lia.
Qed.

Lemma aligner_ngrams_join_neighbouring_rows_witness :
  exists st,
    Intsec.visTheseParts ToyMusic21.Interval_ thirds_high thirds_low = Ret st /\
    List.length (Intsec.addNGram_calls st)
    = (List.length (Intsec.addInterval_calls st) - 1)%nat.
Proof.
  eexists. split; [vm_compute; reflexivity |].
  apply (aligner_ngrams_join_neighbouring_rows ToyMusic21.Interval_
           thirds_high thirds_low).
  - apply toy_Interval_refuses.
  - vm_compute. reflexivity.
Defined.

(** ** [VerticalIntervalStatistics]: what the tables count *)

Section Tables.
Import Music21 Intsec.

(** The number a table holds for a key, 0 when it has none. *)
Definition occurrences (d : gmap string Z) (key : string) : Z := default 0%Z (d !! key).

Definition one_if (b : bool) : Z := if b then 1%Z else 0%Z.

Lemma occurrences_count_one (d : gmap string Z) (key key' : string) :
  occurrences (count_one key d) key'
  = (occurrences d key' + one_if (String.eqb key key'))%Z.
Proof.
  unfold occurrences, count_one, one_if.
  destruct (String.eqb_spec key key') as [<- | Hne].
  - destruct (d !! key) as [c |] eqn:E; rewrite lookup_insert_eq;
      cbv [from_option id String.eqb]; rewrite ?String.eqb_refl; lia.
  - destruct (d !! key) as [c |]; rewrite lookup_insert_ne by exact Hne;
      cbv beta iota; lia.
Qed.

Lemma findNumberOfAllQualities_sum (species : string) (db : gmap string Z) :
  findNumberOfAllQualities species db
  = (occurrences db ("d" +:+ species) + occurrences db ("m" +:+ species) +
     occurrences db ("M" +:+ species) + occurrences db ("P" +:+ species) +
     occurrences db ("A" +:+ species))%Z.
Proof.
  unfold findNumberOfAllQualities, occurrences. cbn [fold_left].
  destruct (db !! ("d" +:+ species)), (db !! ("m" +:+ species)),
           (db !! ("M" +:+ species)), (db !! ("P" +:+ species)),
           (db !! ("A" +:+ species)); cbv [from_option id]; lia.
Qed.

(** What a look-up for [whichInterval] counts: the name itself, or, for
    a bare number, the number with one of the qualities d, m, M, P, A. *)
Definition asked_for (whichInterval nm : string) : bool :=
  if py_isdigit whichInterval
  then existsb (fun quality => String.eqb (quality +:+ whichInterval) nm)
               ["d"; "m"; "M"; "P"; "A"]
  else String.eqb whichInterval nm.

(** The table answer to a look-up. *)
Definition looked_up (db : gmap string Z) (whichInterval : string) : Z :=
  if py_isdigit whichInterval
  then findNumberOfAllQualities whichInterval db
  else occurrences db whichInterval.

Lemma looked_up_count_one (db : gmap string Z) (key whichInterval : string) :
  looked_up (count_one key db) whichInterval
  = (looked_up db whichInterval + one_if (asked_for whichInterval key))%Z.
Proof.
  unfold looked_up, asked_for. destruct (py_isdigit whichInterval).
  - rewrite !findNumberOfAllQualities_sum, !occurrences_count_one.
    cbn [existsb]. rewrite !(String.eqb_sym key).
    repeat match goal with
           | |- context [String.eqb (?q +:+ whichInterval) key] =>
             destruct (String.eqb_spec (q +:+ whichInterval) key)
           end;
      cbv [one_if orb];
      try lia;
      exfalso;
      match goal with
      | H1 : ?a +:+ whichInterval = key, H2 : ?b +:+ whichInterval = key |- _ =>
        rewrite <- H1 in H2; vm_compute in H2; discriminate H2
      end.
  - rewrite occurrences_count_one, (String.eqb_sym key). reflexivity.
Qed.

(** The name under which an interval is counted in a table. *)
Definition counted_as (simpleOrCompound : string) (iv : Interval) : string :=
  if String.eqb "simple" simpleOrCompound then semiSimpleName iv else name iv.

Lemma getIntervalOccurrences_looked_up (self : VerticalIntervalStatistics)
    (whichInterval simpleOrCompound : string) :
  simpleOrCompound = "simple" \/ simpleOrCompound = "compound" ->
  getIntervalOccurrences self whichInterval simpleOrCompound
  = Ret (looked_up (if String.eqb "simple" simpleOrCompound
                    then _simpleIntervalDict self
                    else _compoundIntervalDict self) whichInterval).
Proof.
  intros [-> | ->]; unfold getIntervalOccurrences, looked_up, occurrences;
    cbn [String.eqb Ascii.eqb Bool.eqb]; destruct (py_isdigit whichInterval);
    reflexivity.
Qed.

Lemma addInterval_tables (self : VerticalIntervalStatistics) (iv : Interval) :
  _simpleIntervalDict (addInterval self iv)
  = count_one (semiSimpleName iv) (_simpleIntervalDict self) /\
  _compoundIntervalDict (addInterval self iv)
  = count_one (name iv) (_compoundIntervalDict self).
Proof.
  unfold addInterval.
  destruct (String.eqb_spec (name iv) (semiSimpleName iv)) as [E | _]; cbn;
    [rewrite E |]; split; reflexivity.
Qed.

Lemma addInterval_all (simpleOrCompound whichInterval : string)
    (intervals : list Interval) :
  simpleOrCompound = "simple" \/ simpleOrCompound = "compound" ->
  forall self : VerticalIntervalStatistics,
    looked_up (if String.eqb "simple" simpleOrCompound
               then _simpleIntervalDict (fold_left addInterval intervals self)
               else _compoundIntervalDict (fold_left addInterval intervals self))
              whichInterval
    = (looked_up (if String.eqb "simple" simpleOrCompound
                  then _simpleIntervalDict self
                  else _compoundIntervalDict self) whichInterval
       + Z.of_nat (List.length
                     (List.filter (fun iv => asked_for whichInterval
                                               (counted_as simpleOrCompound iv))
                                  intervals)))%Z.
Proof.
  intros Hkind.
  induction intervals as [| iv intervals IH]; intros self; cbn [fold_left List.filter].
  - cbn. lia.
  - rewrite IH. destruct (addInterval_tables self iv) as [Hs Hc].
    unfold counted_as.
    destruct Hkind as [-> | ->]; cbn [String.eqb Ascii.eqb Bool.eqb];
      rewrite ?Hs, ?Hc, looked_up_count_one;
      match goal with
      | |- context [asked_for ?w ?k] => destruct (asked_for w k)
      end; cbn [one_if List.length]; lia.
Qed.
End Tables.

(** X12. After any intervals were added to a statistics object,
    [getIntervalOccurrences] answers what it answered before plus the
    number of added intervals that the look-up asks for: those with that
    name (the single-octave name for ['simple'], the full name for
    ['compound']), or, when [whichInterval] is a bare number, those whose name
    is that number with one of the qualities d, m, M, P, A. *)
Theorem statistics_count_intervals (self : Intsec.VerticalIntervalStatistics)
    (intervals : list Music21.Interval) (whichInterval simpleOrCompound : string) :
  simpleOrCompound = "simple" \/ simpleOrCompound = "compound" ->
  exists before,
    Intsec.getIntervalOccurrences self whichInterval simpleOrCompound = Ret before /\
    Intsec.getIntervalOccurrences (fold_left Intsec.addInterval intervals self)
                                  whichInterval simpleOrCompound
    = Ret (before
           + Z.of_nat (List.length
                         (List.filter
                            (fun iv => asked_for whichInterval
                                         (counted_as simpleOrCompound iv))
                            intervals)))%Z.
Proof.
  intros Hkind. eexists. split.
  - apply getIntervalOccurrences_looked_up, Hkind.
  - rewrite getIntervalOccurrences_looked_up by exact Hkind.
    rewrite addInterval_all by exact Hkind. reflexivity.
Qed.

Lemma statistics_count_intervals_witness :
  exists before,
    Intsec.getIntervalOccurrences Intsec.VerticalIntervalStatistics__init__
                                  "3" "simple" = Ret before /\
    Intsec.getIntervalOccurrences
      (fold_left Intsec.addInterval (Intsec._listOfIntervals third_to_third)
                 Intsec.VerticalIntervalStatistics__init__)
      "3" "simple"
    = Ret (before
           + Z.of_nat (List.length
                         (List.filter
                            (fun iv => asked_for "3" (counted_as "simple" iv))
                            (Intsec._listOfIntervals third_to_third))))%Z.
Proof.
  apply (statistics_count_intervals Intsec.VerticalIntervalStatistics__init__
           (Intsec._listOfIntervals third_to_third) "3" "simple").
  left. reflexivity.
Defined.

Example thirds_counted_without_quality :
  Intsec.getIntervalOccurrences
    (fold_left Intsec.addInterval (Intsec._listOfIntervals third_to_third)
               Intsec.VerticalIntervalStatistics__init__)
    "3" "simple" = Ret 2%Z.
Proof. vm_compute. reflexivity. Qed.

Lemma foldM_returns {A B : Type} (body : A -> B -> outcome A) (l : list B) :
  (forall acc x, In x l -> exists acc', body acc x = Ret acc') ->
  forall acc, exists r, foldM body acc l = Ret r.
Proof.
  induction l as [| x l IH]; intros Hbody acc; cbn [foldM].
  - exists acc. reflexivity.
  - destruct (Hbody acc x ltac:(left; reflexivity)) as [acc' ->].
    cbn [mbind outcome_bind]. apply IH. intros a y Hy. apply Hbody. right. exact Hy.
Qed.

(** With ['compound'] (or ['simple']) [stringVersion] returns a label. *)
Lemma stringVersion_returns (self : Intsec.NGram) (simpleOrCompound : string)
    (heedQuality : bool) :
  simpleOrCompound = "simple" \/ simpleOrCompound = "compound" ->
  exists label,
    Intsec.stringVersion self simpleOrCompound (Some heedQuality) = Ret label.
Proof.
  intros Hkind.
  cbv beta iota zeta delta [Intsec.stringVersion default from_option id].
  apply foldM_returns. intros post i Hi.
  apply in_seq in Hi.
  destruct (nth_error (Intsec._listOfIntervals self) i) as [iv |] eqn:Eiv.
  - rewrite (stringVersion_body_tokens self simpleOrCompound heedQuality Hkind
               i post iv Eiv).
    eexists. reflexivity.
  - apply nth_error_None in Eiv. lia.
Qed.

Section NGramTables.
Import Music21 Intsec.

(** The number the table of [n]-grams holds for a label, 0 when there is
    no such table or no such label. *)
Definition count_at (tables : list (gmap string Z)) (n : nat) (label : string) : Z :=
  match nth_error tables n with
  | Some table => occurrences table label
  | None => 0%Z
  end.

Lemma make_room_appends (turns : nat) :
  forall quality noQuality : list (gmap string Z),
    make_room turns (quality, noQuality)
    = (quality ++ repeat ∅ turns, noQuality ++ repeat ∅ turns).
Proof.
  induction turns as [| turns IH]; intros quality noQuality; cbn [make_room repeat].
  - rewrite !app_nil_r. reflexivity.
  - cbn [fst snd]. rewrite IH, <- !app_assoc. reflexivity.
Qed.

Lemma count_at_room (tables : list (gmap string Z)) (turns n : nat) (label : string) :
  count_at (tables ++ repeat ∅ turns) n label = count_at tables n label.
Proof.
  unfold count_at.
  destruct (Nat.lt_ge_cases n (List.length tables)) as [Hlt | Hge].
  - rewrite nth_error_app1 by exact Hlt. reflexivity.
  - rewrite nth_error_app2 by exact Hge.
    rewrite (proj2 (nth_error_None tables n)) by exact Hge.
    destruct (nth_error (repeat ∅ turns) (n - List.length tables)) as [d |] eqn:E;
      [| reflexivity].
    apply nth_error_In, repeat_spec in E. subst d. reflexivity.
Qed.

Lemma nth_error_list_insert {A : Type} (l : list A) (n m : nat) (x : A) :
  nth_error (<[ n := x ]> l) m
  = if (n =? m)%nat && (n <? List.length l)%nat then Some x else nth_error l m.
Proof.
  revert n m. induction l as [| a l IH]; intros [| n] [| m]; try reflexivity.
  - cbn. destruct (n =? m)%nat; reflexivity.
  - cbn [nth_error List.length]. change (<[S n:=x]> (a :: l)) with (a :: <[n:=x]> l).
    cbn [nth_error]. rewrite IH. reflexivity.
Qed.

Lemma count_in_table_counts (tables : list (gmap string Z)) (n : nat) (key : string) :
  (n < List.length tables)%nat ->
  exists tables',
    count_in_table tables n key = Ret tables' /\
    List.length tables' = List.length tables /\
    forall (m : nat) (label : string),
      count_at tables' m label
      = (count_at tables m label
         + one_if ((n =? m)%nat && String.eqb key label))%Z.
Proof.
  intros Hn. unfold count_in_table.
  destruct (nth_error tables n) as [table |] eqn:Et;
    [| apply nth_error_None in Et; lia].
  rewrite (py_index_nat _ _ _ Et). cbn [mbind outcome_bind].
  eexists. split; [reflexivity |]. split; [apply length_insert |].
  intros m label. unfold count_at. rewrite nth_error_list_insert.
  destruct (Nat.eqb_spec n m) as [<- | Hne]; cbn [andb].
  - destruct (Nat.ltb_spec n (List.length tables)); [| lia].
    rewrite Et, occurrences_count_one. reflexivity.
  - cbv [one_if]. lia.
Qed.

(** The label under which an n-gram is counted: with quality in the one
    table, without in the other. *)
Definition counted_label (heedQuality : bool) (ng : NGram) (label : string) : bool :=
  match stringVersion ng "compound" (Some heedQuality) with
  | Ret zzz => String.eqb zzz label
  | _ => false
  end.

Lemma addNGram_counts (self : VerticalIntervalStatistics) (theNGram : NGram) :
  List.length (_compoundQualityNGramsDict self)
  = List.length (_compoundNoQualityNGramsDict self) ->
  exists self',
    addNGram self theNGram = Ret self' /\
    List.length (_compoundQualityNGramsDict self')
    = List.length (_compoundNoQualityNGramsDict self') /\
    _simpleIntervalDict self' = _simpleIntervalDict self /\
    _compoundIntervalDict self' = _compoundIntervalDict self /\
    forall (m : nat) (label : string),
      count_at (_compoundQualityNGramsDict self') m label
      = (count_at (_compoundQualityNGramsDict self) m label
         + one_if ((_n theNGram =? m)%nat && counted_label true theNGram label))%Z /\
      count_at (_compoundNoQualityNGramsDict self') m label
      = (count_at (_compoundNoQualityNGramsDict self) m label
         + one_if ((_n theNGram =? m)%nat && counted_label false theNGram label))%Z.
Proof.
  intros Hlen. unfold addNGram. rewrite make_room_appends.
  set (turns := (S (_n theNGram) - List.length (_compoundQualityNGramsDict self))%nat).
  destruct (stringVersion_returns theNGram "compound" true (or_intror eq_refl))
    as [quality Hq].
  destruct (stringVersion_returns theNGram "compound" false (or_intror eq_refl))
    as [noQuality Hnq].
  rewrite Hq. cbn [mbind outcome_bind].
  destruct (count_in_table_counts
              (_compoundQualityNGramsDict self ++ repeat ∅ turns)
              (_n theNGram) quality)
    as (tq & -> & Hlq & Hcq).
  { rewrite length_app, repeat_length. unfold turns. lia. }
  cbn [mbind outcome_bind]. rewrite Hnq. cbn [mbind outcome_bind].
  destruct (count_in_table_counts
              (_compoundNoQualityNGramsDict self ++ repeat ∅ turns)
              (_n theNGram) noQuality)
    as (tn & -> & Hln & Hcn).
  { rewrite length_app, repeat_length, <- Hlen. unfold turns. lia. }
  cbn [mbind outcome_bind]. eexists. split; [reflexivity |].
  cbn [_compoundQualityNGramsDict _compoundNoQualityNGramsDict
       _simpleIntervalDict _compoundIntervalDict].
  split; [rewrite Hlq, Hln, !length_app, Hlen; reflexivity |].
  split; [reflexivity |]. split; [reflexivity |].
  intros m label. unfold counted_label. rewrite Hq, Hnq, Hcq, Hcn, !count_at_room.
  split; reflexivity.
Qed.

Lemma addNGram_all (ngrams : list NGram) :
  forall self : VerticalIntervalStatistics,
    List.length (_compoundQualityNGramsDict self)
    = List.length (_compoundNoQualityNGramsDict self) ->
    exists self',
      foldM addNGram self ngrams = Ret self' /\
      _simpleIntervalDict self' = _simpleIntervalDict self /\
      _compoundIntervalDict self' = _compoundIntervalDict self /\
      forall (m : nat) (label : string),
        count_at (_compoundQualityNGramsDict self') m label
        = (count_at (_compoundQualityNGramsDict self) m label
           + Z.of_nat (List.length
                         (List.filter (fun ng => (_n ng =? m)%nat &&
                                                 counted_label true ng label)
                                      ngrams)))%Z /\
        count_at (_compoundNoQualityNGramsDict self') m label
        = (count_at (_compoundNoQualityNGramsDict self) m label
           + Z.of_nat (List.length
                         (List.filter (fun ng => (_n ng =? m)%nat &&
                                                 counted_label false ng label)
                                      ngrams)))%Z.
Proof.
  induction ngrams as [| ng ngrams IH]; intros self Hlen; cbn [foldM List.filter].
  - exists self. split; [reflexivity |]. split; [reflexivity |].
    split; [reflexivity |]. intros m label. cbn. split; lia.
  - destruct (addNGram_counts self ng Hlen) as (self1 & -> & Hlen1 & Hs1 & Hc1 & H1).
    cbn [mbind outcome_bind].
    destruct (IH self1 Hlen1) as (self' & -> & Hs & Hc & H).
    exists self'. split; [reflexivity |].
    split; [congruence |]. split; [congruence |].
    intros m label. destruct (H m label) as [Hq Hn].
    destruct (H1 m label) as [Hq1 Hn1]. rewrite Hq, Hn, Hq1, Hn1.
    split.
    + destruct ((_n ng =? m)%nat && counted_label true ng label);
        cbn [one_if List.length]; lia.
    + destruct ((_n ng =? m)%nat && counted_label false ng label);
        cbn [one_if List.length]; lia.
Qed.

Lemma getNGramOccurrences_count_at (self : VerticalIntervalStatistics)
    (first : ascii) (rest : string) (n : nat) :
  getNGramOccurrences self (String first rest) (Z.of_nat n)
  = Ret (count_at (if is_alpha first
                   then _compoundQualityNGramsDict self
                   else _compoundNoQualityNGramsDict self) n (String first rest)).
Proof.
  unfold getNGramOccurrences, count_at.
  set (tables := if is_alpha first then _ else _).
  destruct (nth_error tables n) as [table |] eqn:Et.
  - rewrite (py_index_nat _ _ _ Et). reflexivity.
  - unfold py_index.
    destruct (Z.ltb_spec (Z.of_nat n) 0); [lia |].
    apply nth_error_None in Et.
    destruct (Z.ltb_spec (Z.of_nat n) (Z.of_nat (List.length tables))); [lia |].
    rewrite andb_false_r. reflexivity.
Qed.
End NGramTables.

(** X13. Adding n-grams to a new statistics object always succeeds, and
    afterwards [getNGramOccurrences( whichNGram, n )], for a non-empty label
    and [n >= 0], is the number of added n-grams of that [n] whose compound
    label is [whichNGram]: the label with quality when [whichNGram] begins
    with a letter, the label without quality otherwise.  For the empty label
    the answer is 0. *)
Theorem statistics_count_ngrams (ngrams : list Intsec.NGram) :
  exists self,
    foldM Intsec.addNGram Intsec.VerticalIntervalStatistics__init__ ngrams = Ret self /\
    (forall n : Z, Intsec.getNGramOccurrences self EmptyString n = Ret 0%Z) /\
    forall (first : ascii) (rest : string) (n : nat),
      Intsec.getNGramOccurrences self (String first rest) (Z.of_nat n)
      = Ret (Z.of_nat
               (List.length
                  (List.filter
                     (fun ng => (Intsec._n ng =? n)%nat &&
                                counted_label (is_alpha first) ng (String first rest))
                     ngrams))).
Proof.
  destruct (addNGram_all ngrams Intsec.VerticalIntervalStatistics__init__ eq_refl)
    as (self & Hrun & _ & _ & Hcount).
  exists self. split; [exact Hrun |]. split; [reflexivity |].
  intros first rest n. rewrite getNGramOccurrences_count_at.
  destruct (Hcount n (String first rest)) as [Hq Hn].
  assert (Hnew : forall m label, count_at [∅; ∅; ∅] m label = 0%Z).
  { intros m label. unfold count_at, occurrences.
    destruct m as [| [| [| [| m]]]]; cbn [nth_error];
      rewrite ?lookup_empty; reflexivity. }
  destruct (is_alpha first); [rewrite Hq | rewrite Hn]; f_equal;
    cbn [Intsec._compoundQualityNGramsDict Intsec._compoundNoQualityNGramsDict
         Intsec.VerticalIntervalStatistics__init__];
    rewrite Hnew; lia.
Qed.

Example thirds_counted_twice :
  exists self,
    foldM Intsec.addNGram Intsec.VerticalIntervalStatistics__init__
          [third_to_third; third_to_third] = Ret self /\
    Intsec.getNGramOccurrences self "M3 +M2 m3" 2 = Ret 2%Z /\
    Intsec.getNGramOccurrences self "3 +2 3" 2 = Ret 2%Z /\
    Intsec.getNGramOccurrences self "3 +2 3" 7 = Ret 0%Z.
Proof. eexists. split; [vm_compute; reflexivity |]. repeat split. Qed.

(** ** [IntSecSettings]: what the two parsers keep *)

Section Settings.
Import Intsec.

(** What [parsePropertyGet] makes of a stored string. *)
Definition as_python (value : string) : setting :=
  if String.eqb "True" value || String.eqb "true" value then SBool true
  else if String.eqb "False" value || String.eqb "false" value then SBool false
  else SStr value.

(** A value that reads back as a bool. *)
Definition boolean (v : setting) : Prop :=
  match v with
  | SBool _ => True
  | SStr s => isTorF s = true
  | SInts _ => False
  end.

(** The two switches hold booleans, and the table holds the three
    properties it was made with. *)
Definition settings_ok (self : IntSecSettings) : Prop :=
  (exists v, _secretSettingsHash self !! "heedQuality" = Some v /\ boolean v) /\
  (exists v, _secretSettingsHash self !! "produceLabeledScore" = Some v /\ boolean v) /\
  forall key : string,
    is_Some (_secretSettingsHash self !! key) <->
    key = "produceLabeledScore" \/ key = "heedQuality" \/ key = "lookForTheseNs".

Lemma settings_ok_init : settings_ok IntSecSettings__init__.
Proof.
  split; [exists (SBool false); split; [reflexivity | exact I] |].
  split; [exists (SBool false); split; [reflexivity | exact I] |].
  intros key. unfold IntSecSettings__init__. cbn [_secretSettingsHash].
  rewrite !lookup_insert_is_Some, lookup_singleton_is_Some.
  split.
  - intros [<- | [_ [<- | [_ <-]]]]; tauto.
  - intros [-> | [-> | ->]]; [left; reflexivity | |].
    + right. split; [discriminate |]. left. reflexivity.
    + right. split; [discriminate |]. right. split; [discriminate |].
      reflexivity.
Qed.

Lemma insert_keeps_keys (hash : gmap string setting) (key key' : string) (v : setting) :
  is_Some (hash !! key) ->
  (is_Some (<[ key := v ]> hash !! key') <-> is_Some (hash !! key')).
Proof.
  intros Hkey. rewrite lookup_insert_is_Some. split.
  - intros [<- | [_ H]]; assumption.
  - intros H. destruct (decide (key = key')) as [-> | Hne]; [left; reflexivity |].
    right. split; assumption.
Qed.

Lemma parsePropertySet_keeps (self self' : IntSecSettings) (propertyStr : string) :
  settings_ok self -> parsePropertySet self propertyStr = Ret self' ->
  settings_ok self'.
Proof.
  intros (Hheed & Hlabel & Hkeys). unfold parsePropertySet.
  set (cleaned := without_prefix "set " propertyStr).
  set (property := py_slice cleaned None (Some (py_find " " cleaned))).
  set (value := py_slice cleaned (Some (py_find " " cleaned + 1)%Z) None).
  destruct ((String.eqb "heedQuality" property ||
             String.eqb "produceLabeledScore" property ||
             String.eqb "produceLabelledScore" property) && negb (isTorF value))
    eqn:Echeck; [discriminate |].
  assert (Hvalue : property = "heedQuality" \/ property = "produceLabeledScore" \/
                   property = "produceLabelledScore" -> boolean (SStr value)).
  { intros Hp. cbn [boolean].
    destruct (isTorF value); [reflexivity |]. exfalso.
    rewrite andb_true_r in Echeck.
    destruct Hp as [-> | [-> | ->]]; discriminate Echeck. }
  assert (Hswitch : forall (switch key : string) (hash : gmap string setting),
             (exists v, hash !! switch = Some v /\ boolean v) ->
             (key = switch -> boolean (SStr value)) ->
             exists v, <[ key := SStr value ]> hash !! switch = Some v /\ boolean v).
  { intros switch key hash (v & Hv & Hb) Hkey.
    destruct (decide (key = switch)) as [-> | Hne].
    - exists (SStr value). rewrite lookup_insert_eq. split; [reflexivity | auto].
    - exists v. rewrite lookup_insert_ne by exact Hne. split; assumption. }
  destruct (bool_decide (is_Some (_secretSettingsHash self !! property))) eqn:Ein.
  - apply bool_decide_eq_true in Ein. intros H. injection H as <-.
    unfold settings_ok. cbn [_secretSettingsHash].
    split; [apply Hswitch; [exact Hheed | intros ->; apply Hvalue; tauto] |].
    split; [apply Hswitch; [exact Hlabel | intros ->; apply Hvalue; tauto] |].
    intros key. rewrite insert_keeps_keys by exact Ein. apply Hkeys.
  - destruct (String.eqb_spec "produceLabelledScore" property) as [Hp | _];
      [| discriminate].
    intros H. injection H as <-.
    unfold settings_ok. cbn [_secretSettingsHash].
    assert (Hin : is_Some (_secretSettingsHash self !! "produceLabeledScore")).
    { apply Hkeys. left. reflexivity. }
    split; [apply Hswitch; [exact Hheed | discriminate] |].
    split; [apply Hswitch; [exact Hlabel | intros _; apply Hvalue; auto] |].
    intros key. rewrite insert_keeps_keys by exact Hin. apply Hkeys.
Qed.

Lemma set_command_keeps (self : IntSecSettings) (userSays : string) :
  settings_ok self -> settings_ok (set_command self userSays).
Proof.
  intros Hok. unfold set_command.
  destruct (parsePropertySet self userSays) as [self' | |] eqn:E; try exact Hok.
  eapply parsePropertySet_keeps; eassumption.
Qed.

Lemma set_commands_keep (commands : list string) :
  forall self, settings_ok self -> settings_ok (fold_left set_command commands self).
Proof.
  induction commands as [| c commands IH]; intros self Hok; [exact Hok |].
  cbn [fold_left]. apply IH, set_command_keeps, Hok.
Qed.

Lemma boolean_reads_back (self : IntSecSettings) (switch : string) (v : setting) :
  without_prefix "get " switch = switch ->
  _secretSettingsHash self !! switch = Some v -> boolean v ->
  exists b, parsePropertyGet self switch = Ret (SBool b).
Proof.
  intros Hclean Hv Hb. unfold parsePropertyGet. rewrite Hclean, Hv.
  cbn [mbind outcome_bind]. destruct v as [b | s | ns]; [| | destruct Hb].
  - exists b. reflexivity.
  - cbn [boolean] in Hb. unfold isTorF in Hb.
    destruct (String.eqb "True" s), (String.eqb "true" s),
             (String.eqb "False" s), (String.eqb "false" s);
      cbn [orb]; try discriminate Hb; eexists; reflexivity.
Qed.
End Settings.

(** X14. Whatever ["set ..."] lines the command loop has been given since
    the settings were made, [heedQuality] and [produceLabeledScore] read back
    as booleans: [parsePropertyGet] returns [True] or [False] for them, never
    a string. *)
Theorem settings_switches_stay_boolean (commands : list string) :
  (exists b,
     Intsec.parsePropertyGet
       (fold_left Intsec.set_command commands Intsec.IntSecSettings__init__)
       "heedQuality" = Ret (Intsec.SBool b)) /\
  (exists b,
     Intsec.parsePropertyGet
       (fold_left Intsec.set_command commands Intsec.IntSecSettings__init__)
       "produceLabeledScore" = Ret (Intsec.SBool b)).
Proof.
  destruct (set_commands_keep commands _ settings_ok_init)
    as ((v & Hv & Hb) & (w & Hw & Hbw) & _).
  split.
  - exact (boolean_reads_back _ "heedQuality" v eq_refl Hv Hb).
  - exact (boolean_reads_back _ "produceLabeledScore" w eq_refl Hw Hbw).
Qed.

(** X15. No ["set ..."] line creates or removes a property: the settings
    always hold [produceLabeledScore], [heedQuality] and [lookForTheseNs] and
    nothing else, and [parsePropertyGet] raises [NonsensicalInputError],
    naming the property without its ["get "], for every other name but the
    second spelling [produceLabelledScore]. *)
Theorem settings_properties_are_fixed (commands : list string) (propertyStr : string) :
  let name := Intsec.without_prefix "get " propertyStr in
  name <> "produceLabeledScore" -> name <> "heedQuality" ->
  name <> "lookForTheseNs" -> name <> "produceLabelledScore" ->
  (forall key : string,
     is_Some (Intsec._secretSettingsHash
                (fold_left Intsec.set_command commands Intsec.IntSecSettings__init__)
              !! key) <->
     key = "produceLabeledScore" \/ key = "heedQuality" \/ key = "lookForTheseNs") /\
  Intsec.parsePropertyGet
    (fold_left Intsec.set_command commands Intsec.IntSecSettings__init__) propertyStr
  = Raise (NonsensicalInputError ("Unrecognized property: " +:+ name)).
Proof.
  intros name H1 H2 H3 H4.
  destruct (set_commands_keep commands _ settings_ok_init) as (_ & _ & Hkeys).
  split; [exact Hkeys |].
  unfold Intsec.parsePropertyGet. fold name.
  destruct (Intsec._secretSettingsHash _ !! name) as [v |] eqn:E.
  - exfalso. assert (Hin : is_Some (Intsec._secretSettingsHash
                (fold_left Intsec.set_command commands Intsec.IntSecSettings__init__)
              !! name)) by (rewrite E; eexists; reflexivity).
    apply Hkeys in Hin. tauto.
  - destruct (String.eqb_spec "produceLabelledScore" name) as [Heq | _];
      [congruence | reflexivity].
Qed.

Lemma settings_properties_are_fixed_witness :
  Intsec.parsePropertyGet
    (fold_left Intsec.set_command ["set heedQuality true"; "set n 3"]
               Intsec.IntSecSettings__init__) "get n"
  = Raise (NonsensicalInputError ("Unrecognized property: " +:+ "n")).
Proof.
  apply (settings_properties_are_fixed ["set heedQuality true"; "set n 3"] "get n");
    vm_compute; discriminate.
Defined.

(** ** Reading a ["set <property> <value>"] line *)

Lemma substring_all (s : string) : String.substring 0 (String.length s) s = s.
Proof. induction s as [| c s IH]; [reflexivity |]. cbn. rewrite IH. reflexivity. Qed.

Lemma substring_front (a b : string) :
  String.substring 0 (String.length a) (a +:+ b) = a.
Proof.
  induction a as [| c a IH].
  - rewrite append_nil_l. destruct b; reflexivity.
  - rewrite append_cons. cbn. rewrite IH. reflexivity.
Qed.

Lemma substring_back (a b : string) :
  String.substring (String.length a) (String.length b) (a +:+ b) = b.
Proof.
  induction a as [| c a IH].
  - rewrite append_nil_l. apply substring_all.
  - rewrite append_cons. cbn. exact IH.
Qed.

Lemma length_append (a b : string) :
  String.length (a +:+ b) = (String.length a + String.length b)%nat.
Proof.
  induction a as [| c a IH]; [rewrite append_nil_l; reflexivity |].
  rewrite append_cons. cbn. rewrite IH. reflexivity.
Qed.

Lemma py_slice_front (a b : string) :
  py_slice (a +:+ b) None (Some (Z.of_nat (String.length a))) = a.
Proof.
  unfold py_slice. rewrite length_append.
  destruct (Z.ltb_spec (Z.of_nat (String.length a)) 0); [lia |].
  rewrite Z.min_l by lia. rewrite Z.sub_0_r, Nat2Z.id. apply substring_front.
Qed.

Lemma py_slice_back (a b : string) :
  py_slice (a +:+ b) (Some (Z.of_nat (String.length a))) None = b.
Proof.
  unfold py_slice. rewrite length_append.
  destruct (Z.ltb_spec (Z.of_nat (String.length a)) 0); [lia |].
  rewrite Z.min_l by lia. rewrite Nat2Z.id.
  replace (Z.to_nat (Z.of_nat (String.length a + String.length b)
                     - Z.of_nat (String.length a))) with (String.length b) by lia.
  apply substring_back.
Qed.

Lemma without_prefix_strips (prefix rest : string) :
  String.length prefix = 4%nat ->
  Intsec.without_prefix prefix (prefix +:+ rest) = rest.
Proof.
  intros Hlen. unfold Intsec.without_prefix. rewrite length_append, Hlen.
  cbn [Nat.add Nat.ltb Nat.leb].
  change 4%Z with (Z.of_nat 4). rewrite <- Hlen.
  rewrite py_slice_front, String.eqb_refl. apply py_slice_back.
Qed.

Lemma py_find_from_space (key rest : string) :
  space_free key = true ->
  forall i : Z,
    py_find_from " " (key +:+ String " " rest) i = (i + Z.of_nat (String.length key))%Z.
Proof.
  induction key as [| c key IH]; intros Hfree i.
  - rewrite append_nil_l. cbn. destruct rest; cbn; lia.
  - rewrite append_cons. cbn [space_free] in Hfree.
    apply andb_prop in Hfree as [Hc Hfree].
    cbn [py_find_from String.prefix].
    destruct (ascii_dec " " c) as [<- | _]; [discriminate Hc |].
    rewrite (IH Hfree). cbn [String.length]. lia.
Qed.

(** How both parsers split a line with the prefix: the property is what
    stands before the first space, the value everything after it. *)
Lemma set_line_parts (key value : string) :
  space_free key = true ->
  let cleaned := Intsec.without_prefix "set " ("set " +:+ key +:+ " " +:+ value) in
  py_slice cleaned None (Some (py_find " " cleaned)) = key /\
  py_slice cleaned (Some (py_find " " cleaned + 1)%Z) None = value.
Proof.
  intros Hfree cleaned.
  assert (Hc : cleaned = key +:+ String " " value).
  { unfold cleaned. rewrite (without_prefix_strips "set " _ eq_refl). reflexivity. }
  rewrite Hc. unfold py_find. rewrite (py_find_from_space key value Hfree 0).
  rewrite Z.add_0_l. split; [apply py_slice_front |].
  change (key +:+ String " " value) with (key +:+ (" " +:+ value)).
  rewrite <- append_assoc.
  replace (Z.of_nat (String.length key) + 1)%Z
    with (Z.of_nat (String.length (key +:+ " "))).
  - apply py_slice_back.
  - rewrite length_append. cbn [String.length]. lia.
Qed.

Section SetThenGet.
Import Intsec.

(** The property a name stands for: [produceLabelledScore] is stored as
    [produceLabeledScore]. *)
Definition stored_as (key : string) : string :=
  if String.eqb "produceLabelledScore" key then "produceLabeledScore" else key.

Definition a_property (key : string) : Prop :=
  key = "produceLabeledScore" \/ key = "produceLabelledScore" \/
  key = "heedQuality" \/ key = "lookForTheseNs".

Definition a_switch (key : string) : Prop :=
  key = "produceLabeledScore" \/ key = "produceLabelledScore" \/ key = "heedQuality".

Lemma a_property_space_free (key : string) : a_property key -> space_free key = true.
Proof. intros [-> | [-> | [-> | ->]]]; reflexivity. Qed.

Lemma parsePropertySet_line (self : IntSecSettings) (key value : string) :
  space_free key = true ->
  parsePropertySet self ("set " +:+ key +:+ " " +:+ value)
  = if (String.eqb "heedQuality" key || String.eqb "produceLabeledScore" key ||
        String.eqb "produceLabelledScore" key) && negb (isTorF value)
    then Raise (NonsensicalInputError
                  ("Value must be either True or False, but we got " +:+ value))
    else if bool_decide (is_Some (_secretSettingsHash self !! key))
    then Ret {| _secretSettingsHash :=
                  <[ key := SStr value ]> (_secretSettingsHash self) |}
    else if String.eqb "produceLabelledScore" key
    then Ret {| _secretSettingsHash :=
                  <[ "produceLabeledScore" := SStr value ]> (_secretSettingsHash self) |}
    else Raise (NonsensicalInputError ("Unrecognized property: " +:+ key)).
Proof.
  intros Hfree. unfold parsePropertySet.
  destruct (set_line_parts key value Hfree) as [Hk Hv].
  cbv zeta in Hk, Hv |- *. rewrite Hk, Hv. reflexivity.
Qed.

Lemma parsePropertyGet_as_python (self : IntSecSettings) (key value : string) :
  _secretSettingsHash self !! stored_as key = Some (SStr value) ->
  (key <> "produceLabelledScore" \/
   _secretSettingsHash self !! "produceLabelledScore" = None) ->
  parsePropertyGet self ("get " +:+ key) = Ret (as_python value).
Proof.
  intros Hstored Hkey. unfold parsePropertyGet.
  rewrite (without_prefix_strips "get " key eq_refl).
  unfold stored_as in Hstored.
  destruct (String.eqb_spec "produceLabelledScore" key) as [<- | Hne].
  - destruct Hkey as [Hkey | Hkey]; [congruence |].
    rewrite Hkey, Hstored. cbn [mbind outcome_bind].
    unfold as_python.
    destruct (String.eqb "True" value || String.eqb "true" value); [reflexivity |].
    destruct (String.eqb "False" value || String.eqb "false" value); reflexivity.
  - rewrite Hstored. cbn [mbind outcome_bind]. unfold as_python.
    destruct (String.eqb "True" value || String.eqb "true" value); [reflexivity |].
    destruct (String.eqb "False" value || String.eqb "false" value); reflexivity.
Qed.
End SetThenGet.

(** X16. Set, then get.  Whatever was set before, a line
    ["set <property> <value>"] for one of the properties (in either spelling
    of [produceLabeledScore]), with [true], [True], [false] or [False] as the
    value of a switch, is accepted; afterwards ["get <property>"] gives the
    value back - as a bool when it is one of those four words, else as the
    string itself, also for [lookForTheseNs] - and the other properties are
    as they were. *)
Theorem settings_set_then_get (commands : list string) (key value : string) :
  let self := fold_left Intsec.set_command commands Intsec.IntSecSettings__init__ in
  a_property key ->
  (a_switch key -> Intsec.isTorF value = true) ->
  exists self',
    Intsec.parsePropertySet self ("set " +:+ key +:+ " " +:+ value) = Ret self' /\
    Intsec.parsePropertyGet self' ("get " +:+ key) = Ret (as_python value) /\
    forall other : string,
      other <> stored_as key ->
      Intsec._secretSettingsHash self' !! other = Intsec._secretSettingsHash self !! other.
Proof.
  intros self Hkey Hvalue.
  destruct (set_commands_keep commands _ settings_ok_init) as (_ & _ & Hkeys).
  fold self in Hkeys.
  rewrite (parsePropertySet_line self key value (a_property_space_free key Hkey)).
  assert (Hcheck : (String.eqb "heedQuality" key || String.eqb "produceLabeledScore" key ||
                    String.eqb "produceLabelledScore" key) &&
                   negb (Intsec.isTorF value) = false).
  { destruct (Intsec.isTorF value) eqn:E; [apply andb_false_r |].
    destruct Hkey as [-> | [-> | [-> | ->]]]; try reflexivity;
      discriminate Hvalue; unfold a_switch; tauto. }
  rewrite Hcheck.
  assert (Hnone : Intsec._secretSettingsHash self !! "produceLabelledScore" = None).
  { destruct (Intsec._secretSettingsHash self !! "produceLabelledScore") eqn:E;
      [| reflexivity].
    assert (Hin : is_Some (Intsec._secretSettingsHash self !! "produceLabelledScore"))
      by (rewrite E; eexists; reflexivity).
    apply Hkeys in Hin. destruct Hin as [H | [H | H]]; discriminate H. }
  destruct (bool_decide (is_Some (Intsec._secretSettingsHash self !! key))) eqn:Ein.
  - apply bool_decide_eq_true in Ein.
    assert (Hstored : stored_as key = key).
    { unfold stored_as.
      destruct (String.eqb_spec "produceLabelledScore" key) as [<- | _];
        [| reflexivity].
      rewrite Hnone in Ein. destruct Ein as [? Ein]. discriminate Ein. }
    eexists. split; [reflexivity |]. split.
    + apply parsePropertyGet_as_python; cbn [Intsec._secretSettingsHash].
      * rewrite Hstored. apply lookup_insert_eq.
      * destruct (String.eqb_spec key "produceLabelledScore") as [-> | Hne];
          [| left; exact Hne].
        rewrite Hnone in Ein. destruct Ein as [? Ein]. discriminate Ein.
    + intros other Hother. cbn [Intsec._secretSettingsHash].
      rewrite Hstored in Hother. apply lookup_insert_ne. congruence.
  - apply bool_decide_eq_false in Ein.
    assert (Hk : key = "produceLabelledScore").
    { destruct Hkey as [-> | [-> | [-> | ->]]]; try reflexivity;
        exfalso; apply Ein, Hkeys; tauto. }
    subst key. cbn [String.eqb Ascii.eqb Bool.eqb].
    eexists. split; [reflexivity |]. split.
    + apply parsePropertyGet_as_python; cbn [Intsec._secretSettingsHash].
      * apply lookup_insert_eq.
      * right. rewrite lookup_insert_ne by discriminate. exact Hnone.
    + intros other Hother. cbn [Intsec._secretSettingsHash].
      apply lookup_insert_ne. exact (not_eq_sym Hother).
Qed.

Lemma settings_set_then_get_witness :
  exists self',
    Intsec.parsePropertySet
      (fold_left Intsec.set_command ["set heedQuality True"] Intsec.IntSecSettings__init__)
      ("set " +:+ "produceLabelledScore" +:+ " " +:+ "true") = Ret self' /\
    Intsec.parsePropertyGet self' ("get " +:+ "produceLabelledScore")
    = Ret (as_python "true") /\
    forall other : string,
      other <> stored_as "produceLabelledScore" ->
      Intsec._secretSettingsHash self' !! other
      = Intsec._secretSettingsHash
          (fold_left Intsec.set_command ["set heedQuality True"]
                     Intsec.IntSecSettings__init__) !! other.
Proof.
  apply (settings_set_then_get ["set heedQuality True"] "produceLabelledScore" "true").
  - right. left. reflexivity.
  - intros _. reflexivity.
Defined.

(** X17. What a ["set <property> <value>"] line is refused for.  For a
    switch, a value other than [true], [True], [false], [False] raises
    [NonsensicalInputError] with the value in the message; for a word
    without a space that is no property, the error names the word.  Either
    way the command loop keeps the settings it had. *)
Theorem settings_set_refused (commands : list string) (key value : string) :
  let self := fold_left Intsec.set_command commands Intsec.IntSecSettings__init__ in
  space_free key = true ->
  (a_switch key /\ Intsec.isTorF value = false) \/ ~ a_property key ->
  Intsec.parsePropertySet self ("set " +:+ key +:+ " " +:+ value)
  = Raise (NonsensicalInputError
             (if bool_decide (a_switch key)
              then "Value must be either True or False, but we got " +:+ value
              else "Unrecognized property: " +:+ key)) /\
  Intsec.set_command self ("set " +:+ key +:+ " " +:+ value) = self.
Proof.
  intros self Hfree Hwhy.
  destruct (set_commands_keep commands _ settings_ok_init) as (_ & _ & Hkeys).
  fold self in Hkeys.
  assert (Hraise : Intsec.parsePropertySet self ("set " +:+ key +:+ " " +:+ value)
                   = Raise (NonsensicalInputError
             (if bool_decide (a_switch key)
              then "Value must be either True or False, but we got " +:+ value
              else "Unrecognized property: " +:+ key))).
  { rewrite (parsePropertySet_line self key value Hfree).
    destruct Hwhy as [[Hswitch Hvalue] | Hnot].
    - rewrite Hvalue, (bool_decide_eq_true_2 _ Hswitch).
      destruct Hswitch as [-> | [-> | ->]]; reflexivity.
    - assert (Hno : ~ a_switch key) by (unfold a_switch, a_property in *; tauto).
      rewrite (bool_decide_eq_false_2 _ Hno).
      destruct (String.eqb_spec "heedQuality" key) as [<- | _];
        [exfalso; apply Hnot; unfold a_property; tauto |].
      destruct (String.eqb_spec "produceLabeledScore" key) as [<- | _];
        [exfalso; apply Hnot; unfold a_property; tauto |].
      destruct (String.eqb_spec "produceLabelledScore" key) as [<- | _];
        [exfalso; apply Hnot; unfold a_property; tauto |].
      cbn [orb andb].
      rewrite bool_decide_eq_false_2; [reflexivity |].
      intros Hin. apply Hkeys in Hin. apply Hnot. unfold a_property. tauto. }
  split; [exact Hraise |].
  unfold Intsec.set_command. rewrite Hraise. reflexivity.
Qed.

Lemma settings_set_refused_witness :
  Intsec.parsePropertySet
    (fold_left Intsec.set_command ["set heedQuality True"] Intsec.IntSecSettings__init__)
    ("set " +:+ "heedQuality" +:+ " " +:+ "yes")
  = Raise (NonsensicalInputError
             (if bool_decide (a_switch "heedQuality")
              then "Value must be either True or False, but we got " +:+ "yes"
              else "Unrecognized property: " +:+ "heedQuality")) /\
  Intsec.set_command
    (fold_left Intsec.set_command ["set heedQuality True"] Intsec.IntSecSettings__init__)
    ("set " +:+ "heedQuality" +:+ " " +:+ "yes")
  = fold_left Intsec.set_command ["set heedQuality True"] Intsec.IntSecSettings__init__.
Proof.
  apply (settings_set_refused ["set heedQuality True"] "heedQuality" "yes").
  - reflexivity.
  - left. split; [| reflexivity]. right. right. reflexivity.
Defined.

(** ** [analytic_engine.vis_these_parts] with a counting interval that is not positive *)

Lemma py_index_last {A : Type} (l : list A) :
  l <> [] -> exists x, py_index l (-1) = Ret x /\ In x l.
Proof.
  intros Hl. unfold py_index.
  assert (Hlen : (0 < List.length l)%nat) by (destruct l; [congruence | cbn; lia]).
  destruct (Z.ltb_spec (-1) 0); [| lia].
  destruct (Z.leb_spec 0 (Z.of_nat (List.length l) + -1)); [| lia].
  destruct (Z.ltb_spec (Z.of_nat (List.length l) + -1) (Z.of_nat (List.length l)));
    [| lia].
  cbn [andb].
  destruct (nth_error l (Z.to_nat (Z.of_nat (List.length l) + -1))) as [x |] eqn:E.
  - exists x. split; [reflexivity |]. eapply nth_error_In, E.
  - apply nth_error_None in E. lia.
Qed.

Lemma py_min_cases (a b : Q) :
  (py_min a b = a \/ py_min a b = b) /\ py_min a b <= a /\ py_min a b <= b.
Proof.
  unfold py_min. destruct (Qltb b a) eqn:E.
  - apply Qltb_lt in E. split; [right; reflexivity | split; lra].
  - apply Qltb_ge in E. split; [left; reflexivity | split; lra].
Qed.

Section EngineHangs.
Import Music21 AnalyticEngine.

Variable Interval_ : option Note -> option Note -> outcome Interval.
Variable Interval_eq : Interval -> Interval -> bool.
Variable NGram : Type.
Variable NGram_ : list moment -> bool -> string -> outcome NGram.
Variable the_settings : VIS_Settings.

Hypothesis Hnot_positive : offsetBetweenInterval the_settings <= 0.

Lemma count_up_never_ends (fuel : nat) :
  forall potential_new_offset greater_offset : Q,
    potential_new_offset < greater_offset ->
    count_up the_settings fuel potential_new_offset greater_offset = Diverge.
Proof.
  induction fuel as [| fuel IH]; intros p g Hlt; cbn [count_up].
  - assert (Hle : Qle_bool p g = true) by (apply Qle_bool_iff; lra).
    rewrite Hle.
    destruct (Qeq_bool p g) eqn:E; [apply Qeq_bool_iff in E; lra | reflexivity].
  - assert (Hle : Qle_bool p g = true) by (apply Qle_bool_iff; lra).
    rewrite Hle.
    destruct (Qeq_bool p g) eqn:E; [apply Qeq_bool_iff in E; lra |].
    apply IH. lra.
Qed.

Variable h0 l0 : GeneralNote.
Variable hs ls : list GeneralNote.

Hypothesis Hdiffer : ~ offset_of h0 == offset_of l0.
Hypothesis Hhigher : Forall (fun x => offset_of h0 <= offset_of x) hs.
Hypothesis Hlower : Forall (fun x => offset_of l0 <= offset_of x) ls.

Let higher_part := h0 :: hs.
Let lower_part := l0 :: ls.

(** The objects the first turn settles on: the greater of their offsets
    is past the offset from which counting starts. *)
Lemma first_right_objects :
  exists li hi lower higher,
    right_objects higher_part lower_part 0 0 l0 h0 = (li, hi) /\
    py_index lower_part li = Ret lower /\
    py_index higher_part hi = Ret higher /\
    py_min (offset_of h0) (offset_of l0) < py_max (offset_of higher) (offset_of lower).
Proof using Hdiffer Hhigher Hlower.
  assert (Hl0 : py_index lower_part 0 = Ret l0) by reflexivity.
  assert (Hh0 : py_index higher_part 0 = Ret h0) by reflexivity.
  assert (Hsame : py_min (offset_of h0) (offset_of l0)
                  < py_max (offset_of h0) (offset_of l0)).
  { destruct (py_min_cases (offset_of h0) (offset_of l0)) as (_ & H1 & H2).
    destruct (py_max_ge (offset_of h0) (offset_of l0)) as [H3 H4].
    destruct (Qlt_le_dec (offset_of h0) (offset_of l0)) as [H | H]; [lra |].
    destruct (Qlt_le_dec (offset_of l0) (offset_of h0)) as [H' | H']; [lra |].
    exfalso. apply Hdiffer. lra. }
  assert (Hlast_h : exists x, py_index higher_part (-1) = Ret x /\
                              offset_of h0 <= offset_of x).
  { destruct (py_index_last higher_part) as (x & Hx & Hin); [discriminate |].
    exists x. split; [exact Hx |].
    destruct Hin as [<- | Hin]; [lra |].
    rewrite List.Forall_forall in Hhigher. apply Hhigher, Hin. }
  assert (Hlast_l : exists x, py_index lower_part (-1) = Ret x /\
                              offset_of l0 <= offset_of x).
  { destruct (py_index_last lower_part) as (x & Hx & Hin); [discriminate |].
    exists x. split; [exact Hx |].
    destruct Hin as [<- | Hin]; [lra |].
    rewrite List.Forall_forall in Hlower. apply Hlower, Hin. }
  assert (Hup_h : Qltb (offset_of l0) (offset_of h0) = true ->
            exists li hi lower higher,
              (0%Z, (0 - 1)%Z) = (li, hi) /\
              py_index lower_part li = Ret lower /\
              py_index higher_part hi = Ret higher /\
              py_min (offset_of h0) (offset_of l0)
              < py_max (offset_of higher) (offset_of lower)).
  { intros Hlt. apply Qltb_lt in Hlt.
    destruct Hlast_h as (x & Hx & Hox).
    exists 0%Z, (-1)%Z, l0, x. split; [reflexivity |].
    split; [exact Hl0 |]. split; [exact Hx |].
    destruct (py_min_cases (offset_of h0) (offset_of l0)) as (_ & _ & H2).
    destruct (py_max_ge (offset_of x) (offset_of l0)) as [H3 _]. lra. }
  assert (Hup_l : Qltb (offset_of l0) (offset_of h0) = false ->
            exists li hi lower higher,
              ((0 - 1)%Z, 0%Z) = (li, hi) /\
              py_index lower_part li = Ret lower /\
              py_index higher_part hi = Ret higher /\
              py_min (offset_of h0) (offset_of l0)
              < py_max (offset_of higher) (offset_of lower)).
  { intros Hge. apply Qltb_ge in Hge.
    assert (Hlt : offset_of h0 < offset_of l0).
    { destruct (Qlt_le_dec (offset_of h0) (offset_of l0)) as [H | H]; [exact H |].
      exfalso. apply Hdiffer. lra. }
    destruct Hlast_l as (x & Hx & Hox).
    exists (-1)%Z, 0%Z, x, h0. split; [reflexivity |].
    split; [exact Hx |]. split; [exact Hh0 |].
    destruct (py_min_cases (offset_of h0) (offset_of l0)) as (_ & H1 & _).
    destruct (py_max_ge (offset_of h0) (offset_of x)) as [_ H4]. lra. }
  assert (Hstay : exists li hi lower higher,
              (0%Z, 0%Z) = (li, hi) /\
              py_index lower_part li = Ret lower /\
              py_index higher_part hi = Ret higher /\
              py_min (offset_of h0) (offset_of l0)
              < py_max (offset_of higher) (offset_of lower)).
  { exists 0%Z, 0%Z, l0, h0. repeat split; assumption. }
  unfold right_objects.
  assert (Hne : Qeq_bool (offset_of l0) (offset_of h0) = false).
  { destruct (Qeq_bool (offset_of l0) (offset_of h0)) eqn:E; [| reflexivity].
    apply Qeq_bool_iff in E. exfalso. apply Hdiffer. lra. }
  rewrite Hne. cbn [negb].
  destruct ((0 =? len_lower lower_part - 1) && (0 =? len_higher higher_part - 1))%Z;
    [exact Hstay |].
  destruct (0 =? len_higher higher_part - 1)%Z.
  - destruct (Qltb (offset_of l0) (offset_of h0)) eqn:E; [exact (Hup_h eq_refl) |].
    exact Hstay.
  - destruct (0 =? len_lower lower_part - 1)%Z.
    + destruct (Qltb (offset_of h0) (offset_of l0)) eqn:E; [| exact Hstay].
      apply Hup_l. apply Qltb_ge. apply Qltb_lt in E. lra.
    + destruct (Qltb (offset_of l0) (offset_of h0)) eqn:E;
        [exact (Hup_h eq_refl) | exact (Hup_l eq_refl)].
Qed.

Lemma first_turn_never_ends (st : engine_state NGram) :
  current_lower_index st = 0%Z -> current_higher_index st = 0%Z ->
  current_offset st = None ->
  vis_these_parts_body Interval_ Interval_eq NGram NGram_ the_settings
    higher_part lower_part st = Diverge.
Proof using Hnot_positive Hdiffer Hhigher Hlower.
  intros Hli Hhi Hoff. unfold vis_these_parts_body. rewrite Hli, Hhi, Hoff.
  assert (Hcl : clamp 0 (len_lower lower_part) = 0%Z).
  { unfold clamp, len_lower, lower_part. cbn [List.length].
    destruct (Z.leb_spec (Z.of_nat (S (List.length ls))) 0); [lia | reflexivity]. }
  assert (Hch : clamp 0 (len_higher higher_part) = 0%Z).
  { unfold clamp, len_higher, higher_part. cbn [List.length].
    destruct (Z.leb_spec (Z.of_nat (S (List.length hs))) 0); [lia | reflexivity]. }
  rewrite Hcl, Hch.
  change (py_index lower_part 0) with (Ret l0).
  change (py_index higher_part 0) with (Ret h0).
  cbn [mbind outcome_bind].
  destruct first_right_objects as (li & hi & lower & higher & Hr & Hl & Hh & Hlt).
  rewrite Hr. unfold first_potential_offset.
  change (py_index lower_part 0) with (Ret l0).
  change (py_index higher_part 0) with (Ret h0).
  cbn [mbind outcome_bind]. rewrite Hh, Hl. cbn [mbind outcome_bind].
  rewrite (count_up_never_ends _ _ _ Hlt). reflexivity.
Qed.
End EngineHangs.

(** X18. With a counting interval that is zero or negative the counting
    loop of [vis_these_parts] never ends once it starts below the greater
    offset, however many turns it is given; so for two parts whose first
    objects stand at different offsets (no object of a part before its
    first) [vis_these_parts] does not return and does not raise. *)
Theorem engine_hangs_without_positive_interval
    (Interval_ : option Music21.Note -> option Music21.Note -> outcome Music21.Interval)
    (Interval_eq : Music21.Interval -> Music21.Interval -> bool)
    (NGram : Type)
    (NGram_ : list AnalyticEngine.moment -> bool -> string -> outcome NGram)
    (the_settings : AnalyticEngine.VIS_Settings)
    (h0 l0 : Music21.GeneralNote) (hs ls : list Music21.GeneralNote) :
  AnalyticEngine.offsetBetweenInterval the_settings <= 0 ->
  ~ AnalyticEngine.offset_of h0 == AnalyticEngine.offset_of l0 ->
  Forall (fun x => AnalyticEngine.offset_of h0 <= AnalyticEngine.offset_of x) hs ->
  Forall (fun x => AnalyticEngine.offset_of l0 <= AnalyticEngine.offset_of x) ls ->
  (forall (turns : nat) (potential_new_offset greater_offset : Q),
     potential_new_offset < greater_offset ->
     AnalyticEngine.count_up the_settings turns potential_new_offset greater_offset
     = Diverge) /\
  AnalyticEngine.vis_these_parts Interval_ Interval_eq NGram NGram_ the_settings
    (h0 :: hs) (l0 :: ls) = Diverge.
Proof.
  intros Hnot Hdiffer Hhigher Hlower.
  split; [intros turns; apply count_up_never_ends, Hnot |].
  unfold AnalyticEngine.vis_these_parts.
  cbn [List.length Nat.add AnalyticEngine.vis_these_parts_loop
       AnalyticEngine.current_lower_index AnalyticEngine.current_higher_index].
  assert (Hlen : (0 <? AnalyticEngine.len_lower (l0 :: ls))%Z = true).
  { apply Z.ltb_lt. unfold AnalyticEngine.len_lower. cbn [List.length]. lia. }
  rewrite Hlen. cbn [orb].
  rewrite (first_turn_never_ends Interval_ Interval_eq NGram NGram_ the_settings
             Hnot h0 l0 hs ls Hdiffer Hhigher Hlower); reflexivity.
Qed.

Lemma engine_hangs_without_positive_interval_witness :
  AnalyticEngine.vis_these_parts ToyMusic21.Interval_ ToyMusic21.Interval_eqb _
    listed_NGram
    {| AnalyticEngine.offsetBetweenInterval := 0;
       AnalyticEngine.lookForTheseNs := [2%Z];
       AnalyticEngine.heedQuality := false;
       AnalyticEngine.simpleOrCompound := "compound" |}
    [Music21.ARest 0 1; Music21.ARest 1 1] [Music21.ARest (1 # 2) 1] = Diverge.
Proof.
  apply (engine_hangs_without_positive_interval ToyMusic21.Interval_
           ToyMusic21.Interval_eqb _ listed_NGram
           {| AnalyticEngine.offsetBetweenInterval := 0;
              AnalyticEngine.lookForTheseNs := [2%Z];
              AnalyticEngine.heedQuality := false;
              AnalyticEngine.simpleOrCompound := "compound" |}
           (Music21.ARest 0 1) (Music21.ARest (1 # 2) 1)
           [Music21.ARest 1 1] []).
  - cbn. lra.
  - cbn. intros H. vm_compute in H. discriminate H.
  - constructor; [cbn; lra | constructor].
  - constructor.
Defined.

(** ** The interval sorters of intsec.py and of [IntervalsStatistics] *)

Lemma digit_not_space (c : ascii) : is_digit c = true -> is_space c = false.
Proof.
  unfold is_digit, is_space. cbv zeta. intros H.
  apply andb_prop in H as [H1 H2].
  apply Nat.leb_le in H1. apply Nat.leb_le in H2.
  destruct (Nat.eqb_spec (nat_of_ascii c) 32); [lia |].
  destruct (Nat.leb_spec 9 (nat_of_ascii c)); [| reflexivity].
  destruct (Nat.leb_spec (nat_of_ascii c) 13); [lia | reflexivity].
Qed.

Lemma py_rstrip_digits (n : string) : all_chars is_digit n = true -> py_rstrip n = n.
Proof.
  induction n as [| c n IH]; [reflexivity |].
  cbn [all_chars py_rstrip]. intros H. apply andb_prop in H as [Hc Hn].
  rewrite (IH Hn). destruct n; [| reflexivity].
  rewrite (digit_not_space c Hc). reflexivity.
Qed.

Lemma py_strip_digits (n : string) : all_chars is_digit n = true -> py_strip n = n.
Proof.
  intros H. unfold py_strip.
  assert (Hl : py_lstrip n = n).
  { destruct n as [| c n]; [reflexivity |]. cbn [py_lstrip].
    cbn [all_chars] in H. apply andb_prop in H as [Hc _].
    rewrite (digit_not_space c Hc). reflexivity. }
  rewrite Hl. apply py_rstrip_digits, H.
Qed.

(** [int( n )] of a string of digits is the number the digits stand for. *)
Lemma py_int_str_digits (n : string) :
  py_isdigit n = true -> py_int_str n = inr (digits_value n 0).
Proof.
  intros H. unfold py_isdigit in H. apply andb_prop in H as [Hne Hd].
  unfold py_int_str. rewrite (py_strip_digits n Hd).
  assert (Hn : py_isdigit n = true) by (unfold py_isdigit; rewrite Hne, Hd; reflexivity).
  destruct n as [| c n]; [discriminate Hne |].
  assert (Hplus : Ascii.eqb c "+" = false /\ Ascii.eqb c "-" = false).
  { cbn [all_chars] in Hd. apply andb_prop in Hd as [Hc _].
    unfold is_digit in Hc. cbv zeta in Hc. apply andb_prop in Hc as [H1 H2].
    apply Nat.leb_le in H1.
    split; apply Ascii.eqb_neq; intros ->; vm_compute in H1; lia. }
  destruct Hplus as [Hp Hm].
  assert (Hgoal : (if py_isdigit (String c n)
                   then inr (1 * digits_value (String c n) 0)%Z
                   else @inl str_exn Z ValueError)
                  = inr (digits_value (String c n) 0)).
  { rewrite Hn, Z.mul_1_l. reflexivity. }
  destruct c as [[] [] [] [] [] [] [] []];
    try discriminate Hp; try discriminate Hm; exact Hgoal.
Qed.

(** The order of the qualities of one size: diminished, minor, any other
    letter, augmented. *)
Definition quality_rank (q : ascii) : Z :=
  if Ascii.eqb q "d" then 0%Z
  else if Ascii.eqb q "m" then 1%Z
  else if Ascii.eqb q "A" then 3%Z
  else 2%Z.

Definition compare_Z (a b : Z) : Z :=
  if (a <? b)%Z then (-1)%Z else if (b <? a)%Z then 1%Z else 0%Z.

(** An interval name without its ['+'] and ['-']. *)
Definition unsigned (s : string) : string := remove_char "-" (remove_char "+" s).

(** X19. [intervalSorter] on names made of a quality letter and a number
    in digits: it returns, and it orders the names by the number first and,
    for one number, by the quality: [d] before [m] before every other letter
    before [A] - so [m3] comes before [M3], and [d4] before [A4].  (Two
    names with one letter and one number are taken to be the same name.) *)
Theorem intervalSorter_orders_by_size_then_quality (qx qy : ascii) (nx ny : string) :
  py_isdigit nx = true -> py_isdigit ny = true ->
  (qx = qy -> digits_value nx 0 = digits_value ny 0 -> nx = ny) ->
  Intsec.intervalSorter (String qx nx) (String qy ny)
  = inr (if (digits_value nx 0 =? digits_value ny 0)%Z
         then compare_Z (quality_rank qx) (quality_rank qy)
         else compare_Z (digits_value nx 0) (digits_value ny 0)).
Proof.
  intros Hx Hy Hsame. unfold Intsec.intervalSorter. cbn [py_tail].
  rewrite (py_int_str_digits nx Hx), (py_int_str_digits ny Hy).
  unfold compare_Z.
  destruct (String.eqb_spec (String qx nx) (String qy ny)) as [Heq | Hne].
  - injection Heq as -> ->. rewrite Z.eqb_refl, !Z.ltb_irrefl. reflexivity.
  - destruct (Z.ltb_spec (digits_value nx 0) (digits_value ny 0)) as [Hlt | Hge].
    { destruct (Z.eqb_spec (digits_value nx 0) (digits_value ny 0)); [lia | reflexivity]. }
    destruct (Z.ltb_spec (digits_value ny 0) (digits_value nx 0)) as [Hgt | Hle].
    { destruct (Z.eqb_spec (digits_value nx 0) (digits_value ny 0)); [lia | reflexivity]. }
    assert (Hv : digits_value nx 0 = digits_value ny 0) by lia.
    rewrite Hv, Z.eqb_refl.
    assert (Hq : qx <> qy).
    { intros Hq. apply Hne. rewrite Hq, (Hsame Hq Hv). reflexivity. }
    unfold quality_rank.
    destruct (Ascii.eqb_spec qx "d") as [-> | Hxd].
    + destruct (Ascii.eqb_spec qy "d") as [-> | _]; [congruence |].
      destruct (Ascii.eqb qy "m"); [reflexivity |].
      destruct (Ascii.eqb qy "A"); reflexivity.
    + destruct (Ascii.eqb_spec qy "d") as [-> | Hyd].
      { destruct (Ascii.eqb qx "m"); [reflexivity |].
        destruct (Ascii.eqb qx "A"); reflexivity. }
      destruct (Ascii.eqb_spec qx "A") as [-> | Hxa].
      { cbn [Ascii.eqb Bool.eqb].
        destruct (Ascii.eqb_spec qy "m") as [-> | _]; [reflexivity |].
        destruct (Ascii.eqb_spec qy "A") as [-> | _]; [congruence | reflexivity]. }
      destruct (Ascii.eqb_spec qy "A") as [-> | Hya].
      { cbn [Ascii.eqb Bool.eqb].
        destruct (Ascii.eqb qx "m"); reflexivity. }
      destruct (Ascii.eqb_spec qx "m") as [-> | Hxm].
      { destruct (Ascii.eqb_spec qy "m") as [-> | _]; [congruence | reflexivity]. }
      destruct (Ascii.eqb_spec qy "m") as [-> | Hym]; reflexivity.
Qed.

Lemma intervalSorter_orders_by_size_then_quality_witness :
  Intsec.intervalSorter "m3" "M3" = inr (-1)%Z.
Proof.
  apply (intervalSorter_orders_by_size_then_quality "m" "M" "3" "3").
  - reflexivity.
  - reflexivity.
  - intros _ _. reflexivity.
Defined.

(** X20. [interval_sorter] on plain numbers, with or without ['+'] and
    ['-']: it returns the comparison of the numbers, -1, 0 or 1, whatever
    the directions. *)
Theorem interval_sorter_plain_numbers (left right : string) :
  py_isdigit (unsigned left) = true -> py_isdigit (unsigned right) = true ->
  IntervalsStatistics.interval_sorter left right
  = inr (compare_Z (digits_value (unsigned left) 0) (digits_value (unsigned right) 0)).
Proof.
  unfold IntervalsStatistics.interval_sorter. fold (unsigned left) (unsigned right).
  intros Hl Hr.
  pose proof (py_int_str_digits _ Hl) as Hil.
  pose proof (py_int_str_digits _ Hr) as Hir.
  destruct (unsigned left) as [| l0 lr] eqn:El; [discriminate Hl |].
  destruct (unsigned right) as [| r0 rr] eqn:Er; [discriminate Hr |].
  assert (Hl0 : is_digit l0 = true).
  { unfold py_isdigit in Hl. cbn [all_chars] in Hl.
    apply andb_prop in Hl as [_ Hl]. apply andb_prop in Hl as [Hl _]. exact Hl. }
  assert (Hr0 : is_digit r0 = true).
  { unfold py_isdigit in Hr. cbn [all_chars] in Hr.
    apply andb_prop in Hr as [_ Hr]. apply andb_prop in Hr as [Hr _]. exact Hr. }
  cbv zeta. rewrite Hl0, Hr0. cbn [py_tail]. rewrite Hil, Hir.
  unfold compare_Z.
  destruct (String.eqb_spec (String "P" (String l0 lr)) (String "P" (String r0 rr)))
    as [Heq | _].
  - injection Heq as -> ->. rewrite !Z.ltb_irrefl. reflexivity.
  - destruct (Z.ltb_spec (digits_value (String l0 lr) 0) (digits_value (String r0 rr) 0));
      [reflexivity |].
    destruct (Z.ltb_spec (digits_value (String r0 rr) 0) (digits_value (String l0 lr) 0));
      reflexivity.
Qed.

Lemma interval_sorter_plain_numbers_witness :
  IntervalsStatistics.interval_sorter "-10" "+9" = inr 1%Z.
Proof.
  apply (interval_sorter_plain_numbers "-10" "+9"); reflexivity.
Defined.

(** X21. The sorter of [IntervalsStatistics] is the sorter of intsec.py
    with the directions left out: for two names of which one does not start
    with a digit once its ['+'] and ['-'] are removed, [interval_sorter]
    gives what [intervalSorter] gives for the names without them. *)
Theorem interval_sorter_ignores_direction (left right : string)
    (l0 r0 : ascii) (lr rr : string) :
  unsigned left = String l0 lr -> unsigned right = String r0 rr ->
  is_digit l0 = false \/ is_digit r0 = false ->
  IntervalsStatistics.interval_sorter left right
  = Intsec.intervalSorter (unsigned left) (unsigned right).
Proof.
  unfold IntervalsStatistics.interval_sorter, Intsec.intervalSorter.
  fold (unsigned left) (unsigned right).
  intros -> -> Hq. cbv zeta.
  assert (Hboth : (if is_digit l0 then @inr str_exn bool (is_digit r0) else inr false)
                  = inr false).
  { destruct Hq as [-> | ->]; [reflexivity |]. destruct (is_digit l0); reflexivity. }
  rewrite Hboth. reflexivity.
Qed.

Lemma interval_sorter_ignores_direction_witness :
  IntervalsStatistics.interval_sorter "m-3" "+M3"
  = Intsec.intervalSorter (unsigned "m-3") (unsigned "+M3").
Proof.
  apply (interval_sorter_ignores_direction "m-3" "+M3" "m" "M" "3" "3").
  - reflexivity.
  - reflexivity.
  - left. reflexivity.
Defined.

(** ** [ChordsLists.remove_rests] *)

Section RemoveRests.
Import ChordsLists.

(** The strings of an event, the nested ones in their place. *)
Definition members (event : list chord_member) : list string :=
  flat_map (fun m => match m with Single s => [s] | Nested inner => inner end) event.

Definition not_rest (s : string) : bool := negb (String.eqb "Rest" s).

Lemma inner_loop (inner : list string) :
  forall post : list string,
    fold_left (fun post inner_chord_member =>
                 if negb (String.eqb "Rest" inner_chord_member)
                 then post ++ [inner_chord_member] else post) inner post
    = post ++ List.filter not_rest inner.
Proof.
  induction inner as [| s inner IH]; intros post; cbn [fold_left List.filter].
  - rewrite app_nil_r. reflexivity.
  - rewrite IH. unfold not_rest at 2. destruct (negb (String.eqb "Rest" s)).
    + rewrite <- app_assoc. reflexivity.
    + reflexivity.
Qed.

Lemma outer_loop (event : list chord_member) :
  forall post : list string,
    fold_left
      (fun post chord_member =>
         match chord_member with
         | Nested inner =>
           fold_left
             (fun post inner_chord_member =>
                if negb (String.eqb "Rest" inner_chord_member)
                then post ++ [inner_chord_member] else post)
             inner post
         | Single s =>
           if negb (String.eqb "Rest" s) then post ++ [s] else post
         end) event post
    = post ++ List.filter not_rest (members event).
Proof.
  induction event as [| m event IH]; intros post; cbn [fold_left members flat_map].
  - rewrite app_nil_r. reflexivity.
  - fold (members event). rewrite IH, List.filter_app. destruct m as [s | inner].
    + cbn [List.filter app]. unfold not_rest at 2.
      destruct (negb (String.eqb "Rest" s)).
      * rewrite <- app_assoc. reflexivity.
      * reflexivity.
    + rewrite inner_loop, <- app_assoc. reflexivity.
Qed.

Lemma remove_rests_filter (event : list chord_member) :
  remove_rests event = List.filter not_rest (members event).
Proof. unfold remove_rests. rewrite outer_loop. reflexivity. Qed.

Lemma filter_filter_same {A : Type} (p : A -> bool) (l : list A) :
  List.filter p (List.filter p l) = List.filter p l.
Proof.
  induction l as [| x l IH]; [reflexivity |]. cbn [List.filter].
  destruct (p x) eqn:E; [| exact IH]. cbn [List.filter]. rewrite E, IH. reflexivity.
Qed.

Lemma members_Single (l : list string) : members (map Single l) = l.
Proof.
  induction l as [| s l IH]; [reflexivity |].
  cbn [map members flat_map app]. fold (members (map Single l)).
  rewrite IH. reflexivity.
Qed.
End RemoveRests.

(** X22. [remove_rests] gives the strings of the event other than
    ['Rest'], those of a nested list or tuple in its place, in their order
    and as often as they stand there; ['Rest'] is never in the result, and
    removing the rests of the result changes nothing. *)
Theorem remove_rests_keeps_the_others (event : list ChordsLists.chord_member) :
  ChordsLists.remove_rests event
  = List.filter (fun s => negb (String.eqb "Rest" s)) (members event) /\
  ~ In "Rest"%string (ChordsLists.remove_rests event) /\
  ChordsLists.remove_rests (map ChordsLists.Single (ChordsLists.remove_rests event))
  = ChordsLists.remove_rests event.
Proof.
  split; [apply remove_rests_filter |]. split.
  - rewrite remove_rests_filter. intros Hin. apply List.filter_In in Hin as [_ H].
    discriminate H.
  - rewrite !remove_rests_filter, members_Single. apply filter_filter_same.
Qed.

(** ** [IntervalNGramStatistics.ngram_sorter] *)

Lemma length_substring_le (s : string) :
  forall n m : nat, (String.length (String.substring n m s) <= m)%nat.
Proof.
  induction s as [| c s IH]; intros [| n] [| m]; cbn; try lia.
  - specialize (IH 0%nat m). lia.
  - apply (IH n 0%nat).
  - apply (IH n (S m)).
Qed.

Lemma length_py_lstrip (s : string) :
  (String.length (py_lstrip s) <= String.length s)%nat.
Proof.
  induction s as [| c s IH]; [cbn; lia |].
  cbn [py_lstrip]. destruct (is_space c); cbn [String.length]; lia.
Qed.

Lemma length_py_rstrip (s : string) :
  (String.length (py_rstrip s) <= String.length s)%nat.
Proof.
  induction s as [| c s IH]; [cbn; lia |].
  cbn [py_rstrip]. destruct (py_rstrip s) as [| d kept].
  - destruct (is_space c); cbn [String.length]; lia.
  - cbn [String.length] in *. lia.
Qed.

Lemma length_py_strip (s : string) :
  (String.length (py_strip s) <= String.length s)%nat.
Proof.
  unfold py_strip.
  pose proof (length_py_rstrip (py_lstrip s)). pose proof (length_py_lstrip s). lia.
Qed.

Lemma py_find_from_range (s : string) :
  forall i : Z,
    py_find_from " " s i = (-1)%Z \/
    (i <= py_find_from " " s i < i + Z.of_nat (String.length s))%Z.
Proof.
  induction s as [| c s IH]; intros i; cbn [py_find_from String.prefix].
  - left. reflexivity.
  - destruct (ascii_dec " " c) as [_ | _].
    + assert (Hp : String.prefix EmptyString s = true) by (destruct s; reflexivity).
      rewrite Hp. right. cbn [String.length]. lia.
    + destruct (IH (i + 1)%Z) as [H | H]; [left; exact H |].
      right. cbn [String.length]. lia.
Qed.

(** What follows the first space is shorter than the string. *)
Lemma after_the_space_shorter (s : string) :
  py_find " " s <> (-1)%Z ->
  (String.length (py_slice s (Some (py_find " " s + 1)%Z) None) < String.length s)%nat.
Proof.
  intros Hfound. unfold py_find in *.
  destruct (py_find_from_range s 0) as [H | H]; [contradiction |].
  unfold py_slice. set (k := py_find_from " " s 0) in *.
  destruct (Z.ltb_spec (k + 1) 0); [lia |].
  rewrite Z.min_l by lia.
  pose proof (length_substring_le s (Z.to_nat (k + 1))
                (Z.to_nat (Z.of_nat (String.length s) - (k + 1)))).
  lia.
Qed.

Lemma ngram_sorter_turns_enough (turns : nat) :
  forall left right : string,
    (String.length left < turns)%nat ->
    IntervalNGramStatistics.ngram_sorter_turns turns left right <> None.
Proof.
  induction turns as [| turns IH]; intros left right Hlen; [lia |].
  cbn [IntervalNGramStatistics.ngram_sorter_turns]. cbv zeta.
  destruct (Z.eqb_spec (-1) (py_find " " (py_strip left))) as [_ | Hl].
  - destruct (-1 =? py_find " " (py_strip right))%Z; discriminate.
  - destruct (-1 =? py_find " " (py_strip right))%Z; [discriminate |].
    destruct (IntervalsStatistics.interval_sorter _ _) as [e | r]; [discriminate |].
    destruct (negb (0 =? r)%Z); [discriminate |].
    apply IH.
    pose proof (after_the_space_shorter (py_strip left) (not_eq_sym Hl)).
    pose proof (length_py_strip left). lia.
Qed.

(** A token of an n-gram: not empty, and without white space. *)
Definition is_token (t : string) : bool :=
  negb (String.eqb t EmptyString) && all_chars (fun c => negb (is_space c)) t.

(** The tokens [a], [ls] joined by single spaces. *)
Definition joined (a : string) (ls : list string) : string :=
  py_join_space (a :: ls).

(** The comparison of two n-grams token by token. *)
Fixpoint by_tokens (a : string) (ls : list string) (b : string) (rs : list string)
  : str_exn + Z :=
  match ls, rs with
  | [], [] => IntervalsStatistics.interval_sorter a b
  | [], _ :: _ => inr (-1)%Z
  | _ :: _, [] => inr 1%Z
  | a' :: ls', b' :: rs' =>
    match IntervalsStatistics.interval_sorter a b with
    | inl e => inl e
    | inr possible_result =>
      if (0 =? possible_result)%Z then by_tokens a' ls' b' rs'
      else inr possible_result
    end
  end.

Fixpoint last_char_ok (s : string) : bool :=
  match s with
  | EmptyString => false
  | String c EmptyString => negb (is_space c)
  | String _ rest => last_char_ok rest
  end.

Lemma py_rstrip_last_ok (s : string) : last_char_ok s = true -> py_rstrip s = s.
Proof.
  induction s as [| c s IH]; [discriminate |].
  destruct s as [| d s].
  - cbn. intros H. destruct (is_space c); [discriminate H | reflexivity].
  - intros H. change (last_char_ok (String d s) = true) in H.
    change (py_rstrip (String c (String d s)))
      with (match py_rstrip (String d s) with
            | EmptyString => if is_space c then EmptyString else String c EmptyString
            | kept => String c kept
            end).
    rewrite (IH H). reflexivity.
Qed.

Lemma last_char_ok_append (a b : string) :
  b <> EmptyString -> last_char_ok (a +:+ b) = last_char_ok b.
Proof.
  intros Hb. induction a as [| c a IH]; [rewrite append_nil_l; reflexivity |].
  rewrite append_cons. destruct (a +:+ b) as [| d r] eqn:E.
  - exfalso. destruct a; [rewrite append_nil_l in E; contradiction |].
    rewrite append_cons in E. discriminate E.
  - exact IH.
Qed.

Lemma token_parts (t : string) :
  is_token t = true ->
  exists c r, t = String c r /\ is_space c = false /\
              all_chars (fun c => negb (is_space c)) t = true.
Proof.
  unfold is_token. intros H. apply andb_prop in H as [Hne Hall].
  destruct t as [| c r]; [discriminate Hne |].
  exists c, r. split; [reflexivity |]. split; [| exact Hall].
  cbn [all_chars] in Hall. apply andb_prop in Hall as [Hc _].
  apply negb_true_iff, Hc.
Qed.

Lemma token_last_ok (t : string) : is_token t = true -> last_char_ok t = true.
Proof.
  intros H. destruct (token_parts t H) as (c & r & -> & _ & Hall). clear H.
  revert c Hall. induction r as [| d r IH]; intros c Hall.
  - cbn in *. rewrite andb_true_r in Hall. exact Hall.
  - change (last_char_ok (String d r) = true). apply IH.
    cbn [all_chars] in Hall. apply andb_prop in Hall as [_ Hall]. exact Hall.
Qed.

Lemma token_space_free (t : string) : is_token t = true -> space_free t = true.
Proof.
  intros H. destruct (token_parts t H) as (_ & _ & _ & _ & Hall). clear H.
  induction t as [| c t IH]; [reflexivity |].
  cbn [all_chars space_free] in *. apply andb_prop in Hall as [Hc Hall].
  rewrite (IH Hall), andb_true_r.
  destruct (Ascii.eqb_spec c " ") as [-> | _]; [discriminate Hc | reflexivity].
Qed.

Lemma joined_cons (a b : string) (ls : list string) :
  joined a (b :: ls) = a +:+ String " " (joined b ls).
Proof. reflexivity. Qed.

Lemma joined_not_empty (a : string) (ls : list string) :
  is_token a = true -> joined a ls <> EmptyString.
Proof.
  intros H. destruct (token_parts a H) as (c & r & -> & _ & _).
  destruct ls as [| b ls]; [discriminate |].
  rewrite joined_cons, append_cons. discriminate.
Qed.

Lemma py_strip_joined (ls : list string) :
  forall a : string,
    is_token a = true -> Forall (fun t => is_token t = true) ls ->
    py_strip (joined a ls) = joined a ls.
Proof.
  intros a Ha Hls. unfold py_strip.
  assert (Hl : py_lstrip (joined a ls) = joined a ls).
  { destruct (token_parts a Ha) as (c & r & -> & Hc & _).
    destruct ls as [| b ls].
    - cbn. rewrite Hc. reflexivity.
    - rewrite joined_cons, append_cons. cbn [py_lstrip]. rewrite Hc. reflexivity. }
  rewrite Hl. clear Hl. apply py_rstrip_last_ok.
  revert a Ha. induction Hls as [| b ls Hb Hls IH]; intros a Ha.
  - apply token_last_ok, Ha.
  - rewrite joined_cons, last_char_ok_append by discriminate.
    specialize (IH b Hb). pose proof (joined_not_empty b ls Hb) as Hne.
    destruct (joined b ls); [contradiction | exact IH].
Qed.

Lemma py_find_space_free (s : string) :
  space_free s = true -> forall i : Z, py_find_from " " s i = (-1)%Z.
Proof.
  induction s as [| c s IH]; intros Hfree i; [reflexivity |].
  cbn [space_free] in Hfree. apply andb_prop in Hfree as [Hc Hfree].
  cbn [py_find_from String.prefix].
  destruct (ascii_dec " " c) as [<- | _]; [discriminate Hc |].
  apply IH, Hfree.
Qed.

(** A string cut at its first space. *)
Lemma cut_at_space (key value : string) :
  space_free key = true ->
  py_find " " (key +:+ String " " value) = Z.of_nat (String.length key) /\
  py_slice (key +:+ String " " value) None (Some (Z.of_nat (String.length key))) = key /\
  py_slice (key +:+ String " " value) (Some (Z.of_nat (String.length key) + 1)%Z) None
  = value.
Proof.
  intros Hfree. unfold py_find. rewrite (py_find_from_space key value Hfree 0).
  split; [lia |]. split; [apply py_slice_front |].
  change (key +:+ String " " value) with (key +:+ (" " +:+ value)).
  rewrite <- append_assoc.
  replace (Z.of_nat (String.length key) + 1)%Z
    with (Z.of_nat (String.length (key +:+ " "))).
  - apply py_slice_back.
  - rewrite length_append. cbn [String.length]. lia.
Qed.

Lemma ngram_sorter_turns_tokens (ls : list string) :
  forall (a : string) (rs : list string) (b : string) (turns : nat),
    is_token a = true -> Forall (fun t => is_token t = true) ls ->
    is_token b = true -> Forall (fun t => is_token t = true) rs ->
    (String.length (joined a ls) < turns)%nat ->
    IntervalNGramStatistics.ngram_sorter_turns turns (joined a ls) (joined b rs)
    = Some (by_tokens a ls b rs).
Proof.
  induction ls as [| a' ls IH]; intros a rs b turns Ha Hls Hb Hrs Hlen;
    (destruct turns as [| turns]; [lia |]);
    cbn [IntervalNGramStatistics.ngram_sorter_turns]; cbv zeta;
    rewrite (py_strip_joined _ a Ha Hls);
    rewrite (py_strip_joined rs b Hb Hrs).
  - change (joined a []) with a.
    unfold py_find at 1. rewrite (py_find_space_free a (token_space_free a Ha)).
    rewrite Z.eqb_refl.
    destruct rs as [| b' rs].
    + change (joined b []) with b.
      unfold py_find. rewrite (py_find_space_free b (token_space_free b Hb)).
      reflexivity.
    + rewrite joined_cons.
      destruct (cut_at_space b (joined b' rs) (token_space_free b Hb)) as (Hf & _ & _).
      rewrite Hf.
      destruct (Z.eqb_spec (-1) (Z.of_nat (String.length b))); [lia | reflexivity].
  - apply Forall_cons in Hls as [Ha' Hls].
    rewrite joined_cons in Hlen |- *.
    destruct (cut_at_space a (joined a' ls) (token_space_free a Ha)) as (Hf & Hk & Hv).
    rewrite Hf, Hk, Hv.
    destruct (Z.eqb_spec (-1) (Z.of_nat (String.length a))); [lia |].
    destruct rs as [| b' rs].
    + change (joined b []) with b.
      unfold py_find. rewrite (py_find_space_free b (token_space_free b Hb)).
      reflexivity.
    + apply Forall_cons in Hrs as [Hb' Hrs].
      rewrite joined_cons.
      destruct (cut_at_space b (joined b' rs) (token_space_free b Hb))
        as (Hfb & Hkb & Hvb).
      rewrite Hfb, Hkb, Hvb.
      destruct (Z.eqb_spec (-1) (Z.of_nat (String.length b))); [lia |].
      cbn [by_tokens].
      destruct (IntervalsStatistics.interval_sorter a b) as [e | r]; [reflexivity |].
      destruct (0 =? r)%Z; [| reflexivity]. cbn [negb].
      apply IH; try assumption.
      rewrite length_append in Hlen. cbn [String.length] in Hlen. lia.
Qed.

Lemma ngram_sorter_tokens (a : string) (ls : list string) (b : string) (rs : list string) :
  is_token a = true -> Forall (fun t => is_token t = true) ls ->
  is_token b = true -> Forall (fun t => is_token t = true) rs ->
  IntervalNGramStatistics.ngram_sorter (joined a ls) (joined b rs)
  = Some (by_tokens a ls b rs).
Proof.
  intros Ha Hls Hb Hrs. unfold IntervalNGramStatistics.ngram_sorter.
  apply ngram_sorter_turns_tokens; try assumption. lia.
Qed.

(** A token with something left when its ['+'] and ['-'] are removed. *)
Definition is_name (t : string) : bool :=
  is_token t && negb (String.eqb (unsigned t) EmptyString).

Lemma interval_sorter_same (x : string) :
  unsigned x <> EmptyString -> IntervalsStatistics.interval_sorter x x = inr 0%Z.
Proof.
  intros Hx. unfold IntervalsStatistics.interval_sorter. fold (unsigned x). cbv zeta.
  destruct (unsigned x) as [| c r]; [contradiction |].
  destruct (is_digit c); rewrite String.eqb_refl; reflexivity.
Qed.

Lemma is_name_parts (t : string) :
  is_name t = true -> is_token t = true /\ unsigned t <> EmptyString.
Proof.
  unfold is_name. intros H. apply andb_prop in H as [Ht Hu].
  split; [exact Ht |]. intros E. rewrite E in Hu. discriminate Hu.
Qed.

Lemma by_tokens_prefix (ls : list string) :
  forall (a : string) (more : list string),
    is_name a = true -> Forall (fun t => is_name t = true) ls ->
    by_tokens a ls a ls = inr 0%Z /\
    (more <> [] ->
     by_tokens a ls a (ls ++ more) = inr (-1)%Z /\
     by_tokens a (ls ++ more) a ls = inr 1%Z).
Proof.
  induction ls as [| a' ls IH]; intros a more Ha Hls.
  - destruct (is_name_parts a Ha) as [_ Hu].
    split; [exact (interval_sorter_same a Hu) |].
    intros Hmore. destruct more as [| m more]; [contradiction |].
    split; reflexivity.
  - apply Forall_cons in Hls as [Ha' Hls].
    destruct (is_name_parts a Ha) as [_ Hu].
    destruct (IH a' more Ha' Hls) as [Hsame Hprefix].
    cbn [by_tokens app]. rewrite (interval_sorter_same a Hu). cbn [Z.eqb].
    split; [exact Hsame |]. intros Hmore. destruct (Hprefix Hmore) as [H1 H2].
    split; [exact H1 | exact H2].
Qed.

(** The comparison of two lists of tokens, neither of them empty. *)
Definition by_token_lists (ls rs : list string) : str_exn + Z :=
  match ls, rs with
  | a :: ls', b :: rs' => by_tokens a ls' b rs'
  | _, _ => inr 0%Z
  end.

Lemma ngram_sorter_token_lists (ls rs : list string) :
  ls <> [] -> rs <> [] ->
  Forall (fun t => is_token t = true) ls -> Forall (fun t => is_token t = true) rs ->
  IntervalNGramStatistics.ngram_sorter (py_join_space ls) (py_join_space rs)
  = Some (by_token_lists ls rs).
Proof.
  intros Hl Hr Hls Hrs.
  destruct ls as [| a ls]; [contradiction |].
  destruct rs as [| b rs]; [contradiction |].
  apply Forall_cons in Hls as [Ha Hls]. apply Forall_cons in Hrs as [Hb Hrs].
  exact (ngram_sorter_tokens a ls b rs Ha Hls Hb Hrs).
Qed.

(** Pairs of tokens that compare as 0 and are followed by further tokens
    on both sides are passed over. *)
Lemma by_token_lists_after_equal (pre_l pre_r : list string) :
  Forall2 (fun x y => IntervalsStatistics.interval_sorter x y = inr 0%Z) pre_l pre_r ->
  forall (x y : string) (tl tr : list string),
    by_token_lists (pre_l ++ x :: tl) (pre_r ++ y :: tr)
    = by_token_lists (x :: tl) (y :: tr).
Proof.
  induction 1 as [| p q pre_l pre_r Hpq _ IH]; intros x y tl tr; [reflexivity |].
  rewrite <- (IH x y tl tr).
  cbn [app by_token_lists].
  destruct (pre_l ++ x :: tl) as [| a ls] eqn:El;
    [destruct pre_l; discriminate El |].
  destruct (pre_r ++ y :: tr) as [| b rs] eqn:Er;
    [destruct pre_r; discriminate Er |].
  cbn [by_tokens by_token_lists]. rewrite Hpq. reflexivity.
Qed.

(** X23. [ngram_sorter] on two n-grams written as tokens with single
    spaces between them.  As long as both n-grams have a further token after
    the pair at hand, pairs that compare as 0 with [interval_sorter] are
    passed over and the first pair that does not gives the result (or
    raises).  When both n-grams are at their last token, [interval_sorter]
    of that pair is the result.  When only one n-gram is at its last token
    it is the smaller one, whatever the two tokens are: the pair is not
    compared. *)
Theorem ngram_sorter_compares_token_by_token
    (pre_l pre_r : list string) (x y : string) (tl tr : list string) :
  Forall (fun t => is_token t = true) (pre_l ++ x :: tl) ->
  Forall (fun t => is_token t = true) (pre_r ++ y :: tr) ->
  Forall2 (fun x y => IntervalsStatistics.interval_sorter x y = inr 0%Z) pre_l pre_r ->
  (tl <> [] -> tr <> [] -> IntervalsStatistics.interval_sorter x y <> inr 0%Z) ->
  IntervalNGramStatistics.ngram_sorter
    (py_join_space (pre_l ++ x :: tl)) (py_join_space (pre_r ++ y :: tr))
  = Some (match tl, tr with
          | [], _ :: _ => inr (-1)%Z
          | _ :: _, [] => inr 1%Z
          | _, _ => IntervalsStatistics.interval_sorter x y
          end).
Proof.
  intros Hls Hrs Hpre Hxy.
  rewrite ngram_sorter_token_lists; try assumption;
    try (intros E; apply (f_equal (@List.length string)) in E;
         rewrite List.length_app in E; cbn in E; lia).
  rewrite (by_token_lists_after_equal pre_l pre_r Hpre).
  cbn [by_token_lists].
  destruct tl as [| t tl], tr as [| u tr]; cbn [by_tokens]; try reflexivity.
  specialize (Hxy ltac:(discriminate) ltac:(discriminate)).
  destruct (IntervalsStatistics.interval_sorter x y) as [e | r]; [reflexivity |].
  destruct (Z.eqb_spec 0 r) as [<- | _]; [congruence | reflexivity].
Qed.

Lemma ngram_sorter_compares_token_by_token_witness :
  IntervalNGramStatistics.ngram_sorter
    (py_join_space (["3"; "+2"] ++ "9" :: [])) (py_join_space (["3"; "+2"] ++ "3" :: ["+2"; "3"]))
  = Some (inr (-1)%Z).
Proof.
  apply (ngram_sorter_compares_token_by_token
           ["3"; "+2"] ["3"; "+2"] "9" "3" [] ["+2"; "3"]).
  - repeat constructor.
  - repeat constructor.
  - repeat constructor.
  - intros H. contradiction.
Defined.

(** X24. An n-gram compares as 0 with itself, and an n-gram that is the
    beginning of a longer one is the smaller of the two, in whichever order
    they are given - for tokens that are more than signs. *)
Theorem ngram_sorter_shorter_is_smaller (a : string) (ls more : list string) :
  is_name a = true -> Forall (fun t => is_name t = true) ls ->
  Forall (fun t => is_token t = true) more -> more <> [] ->
  IntervalNGramStatistics.ngram_sorter (joined a ls) (joined a ls) = Some (inr 0%Z) /\
  IntervalNGramStatistics.ngram_sorter (joined a ls) (joined a (ls ++ more))
  = Some (inr (-1)%Z) /\
  IntervalNGramStatistics.ngram_sorter (joined a (ls ++ more)) (joined a ls)
  = Some (inr 1%Z).
Proof.
  intros Ha Hls Hmore Hne.
  destruct (is_name_parts a Ha) as [Hta _].
  assert (Htls : Forall (fun t => is_token t = true) ls).
  { eapply List.Forall_impl; [| exact Hls]. intros t Ht. apply is_name_parts, Ht. }
  assert (Hall : Forall (fun t => is_token t = true) (ls ++ more)).
  { apply Forall_app. split; assumption. }
  destruct (by_tokens_prefix ls a more Ha Hls) as [Hsame Hprefix].
  destruct (Hprefix Hne) as [H1 H2].
  rewrite !ngram_sorter_tokens by assumption.
  rewrite Hsame, H1, H2. repeat split.
Qed.

Lemma ngram_sorter_shorter_is_smaller_witness :
  IntervalNGramStatistics.ngram_sorter (joined "3" ["-2"; "3"]) (joined "3" ["-2"; "3"])
  = Some (inr 0%Z) /\
  IntervalNGramStatistics.ngram_sorter
    (joined "3" ["-2"; "3"]) (joined "3" (["-2"; "3"] ++ ["-2"; "3"]))
  = Some (inr (-1)%Z) /\
  IntervalNGramStatistics.ngram_sorter
    (joined "3" (["-2"; "3"] ++ ["-2"; "3"])) (joined "3" ["-2"; "3"])
  = Some (inr 1%Z).
Proof.
  apply (ngram_sorter_shorter_is_smaller "3" ["-2"; "3"] ["-2"; "3"]).
  - reflexivity.
  - repeat constructor.
  - repeat constructor.
  - discriminate.
Defined.

(** X25. [ngram_sorter] returns or raises for any two strings: each call
    of itself is on what follows the first space of [left], so it calls
    itself at most as often as [left] has characters. *)
Theorem ngram_sorter_ends (left right : string) :
  IntervalNGramStatistics.ngram_sorter left right <> None.
Proof.
  unfold IntervalNGramStatistics.ngram_sorter.
  apply ngram_sorter_turns_enough. lia.
Qed.

(** * Python floats *)

(** ** Powers of two *)


Lemma pow2_add (a b : Z) : pow2 (a + b) == pow2 a * pow2 b.
Proof. apply Qpower_plus. discriminate. Qed.

Lemma pow2_Z (e : Z) : (0 <= e)%Z -> pow2 e == inject_Z (2 ^ e).
Proof. intros He. symmetry. apply (Zpower_Qpower 2 e He). Qed.


Lemma pow2_lt (a b : Z) : (a < b)%Z -> pow2 a < pow2 b.
Proof. intros H. apply Qpower_lt_compat_l; [exact H | reflexivity]. Qed.

Lemma pow2_lt_inv (a b : Z) : pow2 a < pow2 b -> (a < b)%Z.
Proof. intros H. apply (Qpower_lt_compat_l_inv 2); [exact H | reflexivity]. Qed.

Lemma pow2_le_inv (a b : Z) : pow2 a <= pow2 b -> (a <= b)%Z.
Proof. intros H. apply (Qpower_le_compat_l_inv 2); [exact H | reflexivity]. Qed.

(** [2 ** (u - v)] as a fraction. *)
Lemma pow2_sub (u v : Z) :
  (0 <= u)%Z -> (0 <= v)%Z -> pow2 (u - v) == (2 ^ u) # (Z.to_pos (2 ^ v)).
Proof.
  intros Hu Hv.
  assert (Hpv : (0 < 2 ^ v)%Z) by (apply Z.pow_pos_nonneg; lia).
  assert (E : pow2 (u - v) * pow2 v == pow2 u).
  { rewrite <- pow2_add. replace (u - v + v)%Z with u by lia. reflexivity. }
  rewrite (pow2_Z u Hu), (pow2_Z v Hv) in E.
  assert (Hv0 : 0 < inject_Z (2 ^ v)).
  { change 0 with (inject_Z 0). rewrite <- Zlt_Qlt. exact Hpv. }
  assert (E' : pow2 (u - v) == inject_Z (2 ^ u) / inject_Z (2 ^ v)).
  { apply Qmult_inj_r with (z := inject_Z (2 ^ v)); [lra |].
    rewrite E. field. lra. }
  rewrite E'. unfold Qeq, Qdiv, Qmult, Qinv, inject_Z. cbn [Qnum Qden].
  destruct (2 ^ v)%Z as [| pv | pv] eqn:Epv; try lia.
  cbn. lia.
Qed.

Lemma pow2_sub_le (u v a : Z) (d : positive) :
  (0 <= u)%Z -> (0 <= v)%Z ->
  (2 ^ u * Zpos d <= a * 2 ^ v)%Z -> pow2 (u - v) <= a # d.
Proof.
  intros Hu Hv H. rewrite (pow2_sub u v Hu Hv).
  assert (Hpv : (0 < 2 ^ v)%Z) by (apply Z.pow_pos_nonneg; lia).
  unfold Qle. cbn [Qnum Qden]. rewrite Z2Pos.id by exact Hpv. exact H.
Qed.

Lemma pow2_sub_gt (u v a : Z) (d : positive) :
  (0 <= u)%Z -> (0 <= v)%Z ->
  (a * 2 ^ v < 2 ^ u * Zpos d)%Z -> a # d < pow2 (u - v).
Proof.
  intros Hu Hv H. rewrite (pow2_sub u v Hu Hv).
  assert (Hpv : (0 < 2 ^ v)%Z) by (apply Z.pow_pos_nonneg; lia).
  unfold Qlt. cbn [Qnum Qden]. rewrite Z2Pos.id by exact Hpv. exact H.
Qed.

(** ** The binade of a number *)

Lemma binade_spec (q : Q) :
  ~ q == 0 -> pow2 (binade q) <= Qabs q /\ Qabs q < pow2 (binade q + 1).
Proof.
  intros Hq. destruct q as [n d].
  assert (Hn : (0 < Z.abs n)%Z).
  { assert (n <> 0%Z); [| lia]. intros ->. apply Hq. reflexivity. }
  unfold binade. cbn [Qnum Qden].
  change (Qabs (n # d)) with (Z.abs n # d).
  set (a := Z.abs n) in *.
  pose proof (Z.log2_spec a Hn) as [Ha1 Ha2].
  pose proof (Z.log2_spec (Zpos d) ltac:(lia)) as [Hd1 Hd2].
  pose proof (Z.log2_nonneg a) as Hla.
  pose proof (Z.log2_nonneg (Zpos d)) as Hld.
  set (la := Z.log2 a) in *. set (ld := Z.log2 (Zpos d)) in *.
  assert (Hpa : (0 < 2 ^ la)%Z) by (apply Z.pow_pos_nonneg; lia).
  assert (Hpd : (0 < 2 ^ ld)%Z) by (apply Z.pow_pos_nonneg; lia).
  destruct (Qle_bool (pow2 (la - ld)) (a # d)) eqn:E.
  - apply Qle_bool_iff in E. split; [exact E |].
    replace (la - ld + 1)%Z with (Z.succ la - ld)%Z by lia.
    apply pow2_sub_gt; [lia | lia | nia].
  - assert (Hlt : a # d < pow2 (la - ld)).
    { destruct (Qlt_le_dec (a # d) (pow2 (la - ld))) as [H | H]; [exact H |].
      apply Qle_bool_iff in H. congruence. }
    split.
    + replace (la - ld - 1)%Z with (la - Z.succ ld)%Z by lia.
      apply pow2_sub_le; [lia | lia | nia].
    + replace (la - ld - 1 + 1)%Z with (la - ld)%Z by lia. exact Hlt.
Qed.

Lemma binade_unique (x : Q) (e e' : Z) :
  pow2 e <= x -> x < pow2 (e + 1) -> pow2 e' <= x -> x < pow2 (e' + 1) -> e = e'.
Proof.
  intros H1 H2 H3 H4.
  assert (Ha : (e < e' + 1)%Z) by (apply pow2_lt_inv; lra).
  assert (Hb : (e' < e + 1)%Z) by (apply pow2_lt_inv; lra).
  lia.
Qed.

Lemma binade_comp (q q' : Q) : q == q' -> ~ q == 0 -> binade q = binade q'.
Proof.
  intros Heq Hq.
  assert (Hq' : ~ q' == 0) by (intros H; apply Hq; lra).
  destruct (binade_spec q Hq) as [H1 H2].
  destruct (binade_spec q' Hq') as [H3 H4].
  assert (Ha : Qabs q == Qabs q') by (apply Qabs_wd; exact Heq).
  rewrite <- Ha in H3, H4.
  exact (binade_unique (Qabs q) _ _ H1 H2 H3 H4).
Qed.

(** ** Rounding to an integer *)

Lemma round_half_even_comp (x y : Q) : x == y -> round_half_even x = round_half_even y.
Proof.
  intros Hxy. unfold round_half_even. rewrite (Qfloor_comp x y Hxy).
  set (f := Qfloor y).
  assert (E1 : Qltb (x - inject_Z f) (1 # 2) = Qltb (y - inject_Z f) (1 # 2)).
  { destruct (Qltb (y - inject_Z f) (1 # 2)) eqn:E.
    - apply Qltb_lt in E. apply Qltb_lt. lra.
    - apply Qltb_ge in E. apply Qltb_ge. lra. }
  assert (E2 : Qltb (1 # 2) (x - inject_Z f) = Qltb (1 # 2) (y - inject_Z f)).
  { destruct (Qltb (1 # 2) (y - inject_Z f)) eqn:E.
    - apply Qltb_lt in E. apply Qltb_lt. lra.
    - apply Qltb_ge in E. apply Qltb_ge. lra. }
  rewrite E1, E2. reflexivity.
Qed.





Lemma Qfloor_opp_int (x : Q) (f : Z) :
  x == inject_Z f -> Qfloor (- x) = (- f)%Z.
Proof.
  intros H. assert (E : - x == inject_Z (- f)) by (rewrite inject_Z_opp; lra).
  rewrite (Qfloor_comp _ _ E). apply Qfloor_Z.
Qed.



(** ** Doubles *)

(** The floats 0.1 and 1/3, and a sum midway between two doubles. *)
Example double_tenth : double (1 # 10) = 3602879701896397 # 36028797018963968.
Proof. vm_compute. reflexivity. Qed.

Example double_third : double (1 # 3) = 6004799503160661 # 18014398509481984.
Proof. vm_compute. reflexivity. Qed.

Example double_tie :
  double ((9007199254740991 # 18014398509481984) + (1 # 2)) = 1.
Proof. vm_compute. reflexivity. Qed.



Lemma double_unfold (q : Q) :
  ~ q == 0 ->
  double q == inject_Z (round_half_even (q / pow2 (Z.max (binade q - 52) (-1074))))
              * pow2 (Z.max (binade q - 52) (-1074)).
Proof.
  intros Hq. unfold double.
  destruct (Qeq_bool q 0) eqn:E; [apply Qeq_bool_iff in E; contradiction |].
  apply Qred_correct.
Qed.

Lemma double_zero (q : Q) : q == 0 -> double q = 0.
Proof.
  intros Hq. unfold double. apply Qeq_bool_iff in Hq. rewrite Hq. reflexivity.
Qed.




Lemma double_comp (q q' : Q) : q == q' -> double q == double q'.
Proof.
  intros Heq. destruct (Qeq_dec q 0) as [H0 | H0].
  - rewrite (double_zero q H0), (double_zero q'); [reflexivity | lra].
  - assert (H0' : ~ q' == 0) by (intros H; apply H0; lra).
    rewrite (double_unfold q H0), (double_unfold q' H0').
    rewrite <- (binade_comp q q' Heq H0).
    assert (Hx : q / pow2 (Z.max (binade q - 52) (-1074))
                 == q' / pow2 (Z.max (binade q - 52) (-1074)))
      by (apply Qmult_comp; [exact Heq | reflexivity]).
    rewrite (round_half_even_comp _ _ Hx). reflexivity.
Qed.

#[global] Instance double_proper : Proper (Qeq ==> Qeq) double.
Proof. intros q q' H. apply double_comp, H. Qed.





(** ** [round_to] in doubles *)

Lemma py_int_comp (x y : Q) : x == y -> py_int x = py_int y.
Proof.
  intros Hxy. destruct (Qlt_le_dec x 0) as [Hneg | Hpos].
  - rewrite (py_int_nonpos x), (py_int_nonpos y) by lra.
    assert (E : - x == - y) by lra. rewrite (Qfloor_comp _ _ E). reflexivity.
  - rewrite (py_int_nonneg x), (py_int_nonneg y) by lra.
    apply Qfloor_comp, Hxy.
Qed.

(** The [correction] of [round_to]. *)
Definition correction (n : Q) : Q := if Qle_bool 0 n then 1 # 2 else - (1 # 2).

Lemma nearest_multiple_py_int (n p : Q) :
  0 < p -> py_int (n / p + correction n) = nearest_multiple n p.
Proof.
  intros Hp. unfold correction, nearest_multiple.
  destruct (Qle_bool 0 n) eqn:En.
  - apply Qle_bool_iff in En.
    assert (Hq : 0 <= n / p) by (apply Qle_shift_div_l; lra).
    apply py_int_nonneg. lra.
  - assert (Hn : n < 0).
    { destruct (Qlt_le_dec n 0) as [H | H]; [exact H |].
      apply Qle_bool_iff in H. congruence. }
    assert (Hq : 0 <= (- n) / p) by (apply Qle_shift_div_l; lra).
    assert (Hx : - (n / p + - (1 # 2)) == (- n) / p + (1 # 2)) by (field; lra).
    rewrite py_int_nonpos by lra.
    rewrite (Qfloor_comp _ _ Hx). reflexivity.
Qed.

Lemma round_to_doubles_value (n p : Q) :
  ~ p == 0 ->
  AnalyticEngine.Doubles.round_to n p
  = Ret (double (double (inject_Z (py_int (double (double (n / p) + correction n))))
                 * p)).
Proof.
  intros Hp. unfold AnalyticEngine.Doubles.round_to.
  destruct (Qeq_bool p 0) eqn:E; [apply Qeq_bool_iff in E; contradiction |].
  reflexivity.
Qed.




(** The multiple that the formula of [round_to] picks is at most half an
    interval away, when nothing is rounded. *)
Lemma nearest_multiple_near (n p : Q) :
  0 < p -> Qabs (inject_Z (nearest_multiple n p) * p - n) <= p / 2.
Proof.
  intros Hp. rewrite Qhalf. unfold nearest_multiple.
  destruct (Qle_bool 0 n) eqn:En.
  - apply Qle_bool_iff in En.
    destruct (round_to_bracket n p _ En Hp eq_refl) as [Hlo Hhi].
    apply Qabs_Qle_condition. split; lra.
  - assert (Hn : 0 <= - n).
    { destruct (Qlt_le_dec n 0) as [H | H]; [lra |].
      apply Qle_bool_iff in H. congruence. }
    destruct (round_to_bracket (- n) p _ Hn Hp eq_refl) as [Hlo Hhi].
    rewrite inject_Z_opp.
    apply Qabs_Qle_condition. split; lra.
Qed.

(** C8.  [round_to] does not always return the nearest multiple.  The
    float 0.49999999999999994, the double below 0.5, with the counting
    interval 1.0: the sum [n / precision + 0.5] lies midway between two
    doubles and is rounded to 1.0, so [round_to] returns 1.0, more than half
    an interval away from [n], while the multiple 0.0 is less than half an
    interval away.  Likewise 0.24999999999999997 with the interval 0.5 gives
    0.5. *)
Theorem round_to_misses_the_nearest_multiple :
  (double (9007199254740991 # 18014398509481984) == 9007199254740991 # 18014398509481984 /\
   AnalyticEngine.Doubles.round_to (9007199254740991 # 18014398509481984) 1 = Ret 1 /\
   (1 # 2) < Qabs (1 - (9007199254740991 # 18014398509481984)) /\
   Qabs (0 - (9007199254740991 # 18014398509481984)) < (1 # 2)) /\
  (double (9007199254740991 # 36028797018963968) == 9007199254740991 # 36028797018963968 /\
   AnalyticEngine.Doubles.round_to (9007199254740991 # 36028797018963968) (1 # 2)
   = Ret (1 # 2) /\
   (1 # 2) / 2 < Qabs ((1 # 2) - (9007199254740991 # 36028797018963968)) /\
   Qabs (0 - (9007199254740991 # 36028797018963968)) < (1 # 2) / 2).
Proof.
  split; (split; [vm_compute; reflexivity |]);
    (split; [vm_compute; reflexivity |]); split; vm_compute; reflexivity.
Qed.



(** X26. When the quotient [n / precision], the sum with the correction
    and the product with the counting interval are doubles, so that nothing
    is rounded, [round_to] returns the multiple of the counting interval
    nearest to [n], at most half an interval away, a tie going away from
    zero - as for the 12.6 and 0.5 of the comment in the source. *)
Theorem round_to_nearest_when_exact (n p : Q) :
  0 < p ->
  double (n / p) == n / p ->
  double (n / p + correction n) == n / p + correction n ->
  double (inject_Z (nearest_multiple n p)) == inject_Z (nearest_multiple n p) ->
  double (inject_Z (nearest_multiple n p) * p) == inject_Z (nearest_multiple n p) * p ->
  exists r : Q,
    AnalyticEngine.Doubles.round_to n p = Ret r /\
    r == inject_Z (nearest_multiple n p) * p /\
    Qabs (r - n) <= p / 2.
Proof.
  intros Hp Hquot Hsum Hint Hprod.
  eexists. split; [apply round_to_doubles_value; lra |].
  assert (Hk : py_int (double (double (n / p) + correction n)) = nearest_multiple n p).
  { rewrite <- (nearest_multiple_py_int n p Hp). apply py_int_comp.
    transitivity (double (n / p + correction n)); [| exact Hsum].
    apply double_comp. rewrite Hquot. reflexivity. }
  rewrite Hk.
  assert (Hr : double (double (inject_Z (nearest_multiple n p)) * p)
               == inject_Z (nearest_multiple n p) * p).
  { transitivity (double (inject_Z (nearest_multiple n p) * p)); [| exact Hprod].
    apply double_comp. rewrite Hint. reflexivity. }
  split; [exact Hr |].
  rewrite Hr. apply nearest_multiple_near, Hp.
Qed.

Lemma round_to_nearest_when_exact_witness :
  exists r : Q,
    AnalyticEngine.Doubles.round_to (double (126 # 10)) (1 # 2) = Ret r /\
    r == inject_Z (nearest_multiple (double (126 # 10)) (1 # 2)) * (1 # 2) /\
    Qabs (r - double (126 # 10)) <= (1 # 2) / 2.
Proof.
  apply (round_to_nearest_when_exact (double (126 # 10)) (1 # 2));
    vm_compute; reflexivity.
Defined.

(** ** [fill_space_between_offsets] in doubles *)










